(** * archeum-dev/io: procedural scene generation and scroll state machine

    A shallow embedding of the algorithmic core of the landing page:

    - [LayerNodes.jsx]: the seeded generator, the Poisson-disc node sampler
      ([particles]) and the nearest-neighbour edge builders
      ([internalLines], [externalLines]);
    - [InterLayerLines.jsx]: the second copy of the sampler
      ([generateNodePositions]), the random-subset edge builder ([nodePairs])
      and the per-line growth of the frame callback;
    - [Experience.jsx]: the per-frame scroll state machine (camera target,
      layer opacities, line growth and line opacity);
    - [App.jsx]: the blackout target, the state of [MainApp], its handlers,
      effects and animation loops;
    - [ContentPane.jsx]: the touch navigation, the styles of the sections
      and [darkenColor].

    JavaScript numbers are modelled through a small arithmetic interface
    ([JsArith], [JsMath]) with two models: the rationals [Q], exact in the
    four operations and comparisons, on which every definition computes (with
    rational approximations of [Math.sqrt], [Math.cos], [Math.sin],
    [Math.atan2]), and the real numbers [R], on which these are the
    mathematical functions.  Rounding of IEEE doubles is not modelled.
    Properties that only depend on the structure of the code are proved for
    every model that satisfies [JsArithLaws]; the scroll state machine is
    studied on [Q], the geometry of the sampler on [R].  A third model,
    [double], rounds every operation to the nearest IEEE double: the edge
    builder and [darkenColor], whose results depend on that rounding, are
    studied on it. *)

From Stdlib Require Import QArith Qround Qminmax Lqa Reals Lra.
From Stdlib Require Import ZArith NArith Arith List Bool Lia.
From Stdlib Require Import Permutation Sorting.Sorted.
From Stdlib Require Import Qpower.
From Stdlib Require Strings.Ascii Strings.String.
Import ListNotations.

Set Implicit Arguments.

(* ------------------------------------------------------------------ *)
(** * JavaScript numbers *)

(** Arithmetic of JavaScript numbers: literals, the four operations, the
    comparison [<], [Math.floor] and [Math.ceil] (whose results are integers). *)
Class JsArith (num : Type) : Type := {
  lit : Q -> num;
  add : num -> num -> num;
  sub : num -> num -> num;
  mul : num -> num -> num;
  div : num -> num -> num;
  ltb : num -> num -> bool;
  Math_floor : num -> Z;
  Math_ceil : num -> Z
}.

(** The part of the platform's [Math] object the program uses. *)
Class JsMath (num : Type) : Type := {
  Math_sqrt : num -> num;
  Math_cos : num -> num;
  Math_sin : num -> num;
  Math_atan2 : num -> num -> num;
  Math_PI : num
}.

Arguments lit {num _} q%_Q.

Declare Scope js_scope.
Delimit Scope js_scope with js.
Infix "+" := add : js_scope.
Infix "-" := sub : js_scope.
Infix "*" := mul : js_scope.
Infix "/" := div : js_scope.
Infix "<?" := ltb : js_scope.
Notation "x >? y" := (ltb y x) (only parsing) : js_scope.

Section Conversions.
Context {num : Type} `{JsArith num}.

Definition ofZ (k : Z) : num := lit (inject_Z k).
Definition ofNat (n : nat) : num := ofZ (Z.of_nat n).
Definition ofN (n : N) : num := ofZ (Z.of_N n).

(** [a >= b] of JavaScript, on numbers that are not NaN. *)
Definition geb (a b : num) : bool := negb (ltb a b).

(** [Math.min] and [Math.max] on two numbers. *)
Definition Math_min (a b : num) : num := if ltb b a then b else a.
Definition Math_max (a b : num) : num := if ltb a b then b else a.

(** [Math.round]: the nearest integer, halves rounded up. *)
Definition Math_round (a : num) : Z := Math_floor (add a (lit 0.5)).
End Conversions.

Notation "x >=? y" := (geb x y) : js_scope.

(** The facts about numbers the structural proofs rely on: [Math.floor] of a
    scaled ratio of naturals and [Math.ceil] of a ratio of naturals are the
    integer quotients, [<] is a strict weak order, and the sign of a
    difference is the comparison. *)
Class JsArithLaws (num : Type) `{JsArith num} : Prop := {
  floor_ratio : forall s m n : Z, (0 <= s)%Z -> (0 < m)%Z -> (0 <= n)%Z ->
    Math_floor (mul (div (ofZ s) (ofZ m)) (ofZ n)) = (s * n / m)%Z;
  ceil_ratio : forall b a : Z, (0 <= b)%Z -> (0 < a)%Z ->
    Math_ceil (div (ofZ b) (ofZ a)) = ((b + a - 1) / a)%Z;
  ltb_irrefl : forall a : num, ltb a a = false;
  ltb_trans : forall a b c : num, ltb a b = true -> ltb b c = true -> ltb a c = true;
  ltb_negtrans : forall a b c : num, ltb a b = false -> ltb b c = false -> ltb a c = false;
  sub_sign : forall a b : num, ltb (lit 0) (sub a b) = ltb b a
}.

Arguments JsArithLaws num {_}.

(* ------------------------------------------------------------------ *)
(** * Outcomes of a call *)

(** A call returns a value, throws (a [TypeError] on a property read of
    [undefined]), or is cut off by the iteration bound of the model. *)
Inductive outcome (A : Type) : Type :=
| Returns (a : A)
| Throws
| OutOfFuel.

Arguments Throws {A}.
Arguments OutOfFuel {A}.

Definition bind {A B : Type} (m : outcome A) (k : A -> outcome B) : outcome B :=
  match m with
  | Returns a => k a
  | Throws => Throws
  | OutOfFuel => OutOfFuel
  end.

(* ------------------------------------------------------------------ *)
(** * Arrays *)

(** [arr[i]] for a number [i]: [None] stands for [undefined]. *)
Definition index {A : Type} (arr : list A) (i : Z) : option A :=
  if (i <? 0)%Z then None else nth_error arr (Z.to_nat i).

(** [arr[i] = v] for an index inside the array. *)
Fixpoint store {A : Type} (arr : list A) (i : nat) (v : A) : list A :=
  match arr, i with
  | [], _ => []
  | _ :: rest, O => v :: rest
  | a :: rest, S i' => a :: store rest i' v
  end.

(** [arr.splice(i, 1)] for an index inside the array. *)
Definition splice1 {A : Type} (arr : list A) (i : Z) : list A :=
  firstn (Z.to_nat i) arr ++ skipn (S (Z.to_nat i)) arr.

(* ------------------------------------------------------------------ *)
(** * The seeded generator (both files define the same [seededRandom]) *)

Section SeededRandom.
Context {num : Type} `{JsArith num}.
Local Open Scope js_scope.

(** [let state = seed].  Seeds are non-negative integers (0, 8000, 16000
    and [startY * 1000 + endY] at the call sites), on which [%] is the
    mathematical remainder. *)
Definition seededRandom (seed : N) : N := seed.

Definition nextState (state : N) : N := ((state * 9301 + 49297) mod 233280)%N.

(** One call of the closure: the new state and [state / 233280]. *)
Definition rng (state : N) : num * N :=
  let state' := nextState state in
  (ofN state' / ofN 233280, state').
End SeededRandom.

(** Three.js [Vector3], and the plain [{x, y, z}] objects of
    [InterLayerLines.jsx], which carry the same three fields. *)
Record Vector3 (num : Type) : Type := mkVector3 { px : num; py : num; pz : num }.

(* ------------------------------------------------------------------ *)
(** * Library functions the program calls *)

Section Library.
Context {num : Type} `{JsArith num} `{JsMath num}.
Local Open Scope js_scope.

(** Three.js [Vector3.distanceTo]: the square root of
    [dx * dx + dy * dy + dz * dz]. *)
Definition distanceTo (p v : Vector3 num) : num :=
  let dx := px p - px v in
  let dy := py p - py v in
  let dz := pz p - pz v in
  Math_sqrt (dx * dx + dy * dy + dz * dz).

(** Three.js [MathUtils.lerp] and [MathUtils.clamp]. *)
Definition lerp (x y t : num) : num := (lit 1 - t) * x + t * y.
Definition clamp (value min max : num) : num := Math_max min (Math_min max value).

(** [Array.prototype.sort(compareFn)]: a stable sort; an element goes
    behind those it compares greater than ([compareFn a b > 0]). *)
Section Sort.
Variable A : Type.
Variable compareFn : A -> A -> num.

Fixpoint insertSorted (a : A) (l : list A) : list A :=
  match l with
  | [] => [a]
  | b :: l' => if compareFn a b >? lit 0 then b :: insertSorted a l' else a :: l
  end.

Definition sort (l : list A) : list A := fold_right insertSorted [] l.
End Sort.

(** [arr.slice(0, k)] for an integer [k >= 0]. *)
Definition slice0 {A : Type} (arr : list A) (k : Z) : list A :=
  firstn (Z.to_nat k) arr.

(** [arr.forEach((p, i) => ...)]: the elements with their indices. *)
Definition entries {A : Type} (arr : list A) : list (nat * A) :=
  combine (seq 0 (length arr)) arr.
End Library.

(* ------------------------------------------------------------------ *)
(** * LayerNodes.jsx *)

Module LayerNodes.
Section Particles.
Context {num : Type} `{JsArith num} `{JsMath num}.
Local Open Scope js_scope.

Variable count : nat.
Variable radius : num.

Definition minDist : num := radius / Math_sqrt (ofNat count) * lit 1.8.
Definition maxAttempts : nat := 30.
Definition numSeeds : nat := 5.

Definition isValid (x z : num) (points : list (Vector3 num)) : bool :=
  let distFromCenter := Math_sqrt (x * x + z * z) in
  if (distFromCenter >? radius) || (distFromCenter <? radius * lit 0.15) then false
  else
    forallb (fun p =>
               let dx := x - px p in
               let dz := z - pz p in
               negb (Math_sqrt (dx * dx + dz * dz) <? minDist)) points.

(** One iteration of the seed loop. *)
Definition seedPoint (i : nat) (state : N) : Vector3 num * N :=
  let angle := ofNat i / ofNat numSeeds * Math_PI * lit 2 in
  let r := radius * lit 0.4 in
  let '(u, state) := rng state in
  (mkVector3 (r * Math_cos angle) ((u - lit 0.5) * lit 0.1) (r * Math_sin angle),
   state).

(** [for (let i = 0; i < numSeeds; i++)], with [n] iterations left. *)
Fixpoint seedLoop (n i : nat) (temp : list (Vector3 num)) (state : N)
  : list (Vector3 num) * N :=
  match n with
  | O => (temp, state)
  | S n' =>
      let '(p, state) := seedPoint i state in
      seedLoop n' (S i) (temp ++ [p]) state
  end.

(** The candidate loop [for (let i = 0; i < maxAttempts; i++)] around
    [point], with [n] attempts left: the accepted point, if any. *)
Fixpoint attempts (n : nat) (point : Vector3 num) (temp : list (Vector3 num))
         (state : N) : option (Vector3 num) * N :=
  match n with
  | O => (None, state)
  | S n' =>
      let '(u, state) := rng state in
      let angle := u * Math_PI * lit 2 in
      let '(u, state) := rng state in
      let dist := minDist * (lit 1 + u) in
      let newX := px point + Math_cos angle * dist in
      let newZ := pz point + Math_sin angle * dist in
      if isValid newX newZ temp then
        let '(u, state) := rng state in
        (Some (mkVector3 newX ((u - lit 0.5) * lit 0.1) newZ), state)
      else attempts n' point temp state
  end.

(** [while (activeList.length > 0 && temp.length < count)]. *)
Fixpoint sampling (fuel : nat) (temp activeList : list (Vector3 num)) (state : N)
  : outcome (list (Vector3 num)) :=
  if (0 <? length activeList)%nat && (length temp <? count)%nat then
    match fuel with
    | O => OutOfFuel
    | S fuel' =>
        let '(u, state) := rng state in
        let randIndex := Math_floor (u * ofNat (length activeList)) in
        match index activeList randIndex with
        | None => Throws
        | Some point =>
            match attempts maxAttempts point temp state with
            | (Some newPoint, state) =>
                sampling fuel' (temp ++ [newPoint]) (activeList ++ [newPoint]) state
            | (None, state) =>
                sampling fuel' temp (splice1 activeList randIndex) state
            end
        end
    end
  else Returns temp.

(** The [particles] memo.  Every iteration of the loop either accepts a
    point or retires one, so [2 * count] iterations are enough
    ([particles_returns]). *)
Definition particles (seed : N) : outcome (list (Vector3 num)) :=
  let '(temp, state) := seedLoop numSeeds 0 [] (seededRandom seed) in
  sampling (2 * count) temp temp state.
End Particles.

Section Lines.
Context {num : Type} `{JsArith num} `{JsMath num}.
Local Open Scope js_scope.

Variable radius : num.
Variable particles : list (Vector3 num).

(** The objects [{ idx: j, dist }] of the internal pass. *)
Record Neighbor : Type := mkNeighbor { idx : nat; dist : num }.

(** The inner [particles.forEach((p2, j) => ...)] for the node [p1] at
    index [i]. *)
Definition neighbors (i : nat) (p1 : Vector3 num) : list Neighbor :=
  flat_map (fun '(j, p2) =>
              if (i =? j)%nat then []
              else [mkNeighbor j (distanceTo p1 p2)])
           (entries particles).

(** What the node at index [i] pushes on [internal].  A pushed entry
    [[p1, particles[n.idx]]] is recorded by the indices of its two end
    points in [particles]. *)
Definition internalFrom (i : nat) (p1 : Vector3 num) : list (nat * nat) :=
  flat_map (fun n => if (i <? idx n)%nat then [(i, idx n)] else [])
           (slice0 (sort (fun a b => dist a - dist b) (neighbors i p1)) 2).

Definition internalLines (connectInternal : bool) : list (nat * nat) :=
  if connectInternal then
    flat_map (fun '(i, p1) => internalFrom i p1) (entries particles)
  else [].

(** The objects [{ node: p2, dist }] of the external pass. *)
Record Nearest : Type := mkNearest { node : Vector3 num; ndist : num }.

Variable connectTo : list (Vector3 num).

Definition connectionsPerNode : Z :=
  Z.min 3 (Math_ceil (ofNat (length connectTo) / ofNat (length particles))).

(** What the node [p1] pushes on [external]. *)
Definition externalFrom (p1 : Vector3 num) : list (Vector3 num * Vector3 num) :=
  let nearestNodes := map (fun p2 => mkNearest p2 (distanceTo p1 p2)) connectTo in
  let nearestNodes := sort (fun a b => ndist a - ndist b) nearestNodes in
  flat_map (fun n => if ndist n <? radius * lit 3 then [(p1, node n)] else [])
           (slice0 nearestNodes connectionsPerNode).

Definition externalLines : list (Vector3 num * Vector3 num) :=
  if (0 <? length connectTo)%nat then flat_map externalFrom particles else [].
End Lines.

Section Rendering.
Context {num : Type} `{JsArith num}.
Local Open Scope js_scope.

(** An instance of the [instancedMesh]: what [dummy.updateMatrix()]
    composes its matrix from, the position and the uniform scale. *)
Record Instance : Type := mkInstance {
  position : num * num * num;
  instanceScale : num
}.

(** [meshRef.current.setMatrixAt(i, dummy.matrix)]: the matrices live in a
    typed array with room for [count] instances, and a write past its end is
    dropped. *)
Definition setMatrixAt (instanceMatrix : list Instance) (i : nat) (m : Instance)
  : list Instance :=
  store instanceMatrix i m.

(** The frame callback of [LayerNodes], on the instance matrices. *)
Definition useFrame (count : nat) (scale : num) (particles : list (Vector3 num))
           (instanceMatrix : list Instance) : list Instance :=
  let shown :=
    fold_left (fun m '(i, particle) =>
                 setMatrixAt m i
                   (mkInstance (px particle, py particle, pz particle)
                               (lit 0.2 * scale)))
              (entries particles) instanceMatrix in
  fold_left (fun m i => setMatrixAt m i (mkInstance (lit 0, lit 0, lit 0) (lit 0)))
            (seq (length particles) (count - length particles)) shown.

(** The geometry of [LineSegments]: the flat array [points], and the flat
    array [colors] when there is a gradient.  A colour is the triple
    [(r, g, b)] of its [THREE.Color]; [targetColor] is [None] for [null]. *)
Definition lineSegments (lines : list (Vector3 num * Vector3 num))
           (color : num * num * num) (targetColor : option (num * num * num))
  : list num * option (list num) :=
  let hasGradient := match targetColor with Some _ => true | None => false end in
  let c1 := color in
  let c2 := match targetColor with Some c => c | None => c1 end in
  let points :=
    flat_map (fun '(p1, p2) => [px p1; py p1; pz p1; px p2; py p2; pz p2]) lines in
  let colors :=
    flat_map (fun _ : Vector3 num * Vector3 num =>
                let '(r1, g1, b1) := c1 in
                let '(r2, g2, b2) := c2 in
                if hasGradient then [r1; g1; b1; r2; g2; b2] else [])
             lines in
  (points, if hasGradient then Some colors else None).
End Rendering.
End LayerNodes.

(* ------------------------------------------------------------------ *)
(** * InterLayerLines.jsx: the second copy of the sampler *)

(** What the loop of [generateNodePositions] reads from an entry of its
    [activeList]: the fields [x] and [z].  The entries copied from [temp]
    carry a [y] as well, the pushed ones are [{ x: newX, z: newZ }]. *)
Record ActiveEntry (num : Type) : Type := mkActive { ax : num; az : num }.

Definition activeOf {num : Type} (p : Vector3 num) : ActiveEntry num :=
  mkActive (px p) (pz p).

Module InterLayerLines.
Section GenerateNodePositions.
Context {num : Type} `{JsArith num} `{JsMath num}.
Local Open Scope js_scope.

Variable count : nat.
Variable radius : num.

Definition minDist : num := radius / Math_sqrt (ofNat count) * lit 1.8.

Definition isValid (x z : num) (points : list (Vector3 num)) : bool :=
  let distFromCenter := Math_sqrt (x * x + z * z) in
  if (distFromCenter >? radius) || (distFromCenter <? radius * lit 0.15) then false
  else
    forallb (fun p =>
               let dx := x - px p in
               let dz := z - pz p in
               negb (Math_sqrt (dx * dx + dz * dz) <? minDist)) points.

Definition numSeeds : nat := 5.

(** The seed loop, with [n] iterations left. *)
Fixpoint seedLoop (n i : nat) (temp : list (Vector3 num)) (state : N)
  : list (Vector3 num) * N :=
  match n with
  | O => (temp, state)
  | S n' =>
      let angle := ofNat i / ofNat numSeeds * Math_PI * lit 2 in
      let r := radius * lit 0.4 in
      let '(u, state) := rng state in
      seedLoop n' (S i)
               (temp ++ [mkVector3 (r * Math_cos angle)
                                   ((u - lit 0.5) * lit 0.1)
                                   (r * Math_sin angle)])
               state
  end.

(** [for (let i = 0; i < 30; i++)], with [n] attempts left: the candidate
    that passed [isValid], if any, with its fresh [y]. *)
Fixpoint attempts (n : nat) (point : ActiveEntry num) (temp : list (Vector3 num))
         (state : N) : option (Vector3 num) * N :=
  match n with
  | O => (None, state)
  | S n' =>
      let '(u, state) := rng state in
      let angle := u * Math_PI * lit 2 in
      let '(u, state) := rng state in
      let dist := minDist * (lit 1 + u) in
      let newX := ax point + Math_cos angle * dist in
      let newZ := az point + Math_sin angle * dist in
      if isValid newX newZ temp then
        let '(u, state) := rng state in
        (Some (mkVector3 newX ((u - lit 0.5) * lit 0.1) newZ), state)
      else attempts n' point temp state
  end.

Fixpoint sampling (fuel : nat) (temp : list (Vector3 num))
         (activeList : list (ActiveEntry num)) (state : N)
  : outcome (list (Vector3 num)) :=
  if (0 <? length activeList)%nat && (length temp <? count)%nat then
    match fuel with
    | O => OutOfFuel
    | S fuel' =>
        let '(u, state) := rng state in
        let randIndex := Math_floor (u * ofNat (length activeList)) in
        match index activeList randIndex with
        | None => Throws
        | Some point =>
            match attempts 30 point temp state with
            | (Some newPoint, state) =>
                sampling fuel' (temp ++ [newPoint])
                         (activeList ++ [activeOf newPoint]) state
            | (None, state) =>
                sampling fuel' temp (splice1 activeList randIndex) state
            end
        end
    end
  else Returns temp.

Definition generateNodePositions (seed : N) : outcome (list (Vector3 num)) :=
  let '(temp, state) := seedLoop numSeeds 0 [] (seededRandom seed) in
  sampling (2 * count) temp (map activeOf temp) state.
End GenerateNodePositions.

Section NodePairs.
Context {num : Type} `{JsArith num} `{JsMath num}.
Local Open Scope js_scope.

(** [[a[i], a[j]] = [a[j], a[i]]].  Both reads are inside the array
    whenever [0 <= j <= i < a.length], which the shuffle guarantees
    ([shuffle_index_range]); JavaScript would store [undefined] otherwise. *)
Definition swap (arr : list nat) (i : nat) (j : Z) : list nat :=
  match nth_error arr i, index arr j with
  | Some ai, Some aj => store (store arr i aj) (Z.to_nat j) ai
  | _, _ => arr
  end.

(** The Fisher-Yates loop [for (let i = a.length - 1; i > 0; i--)], at
    index [i]. *)
Fixpoint shuffle (i : nat) (indices : list nat) (state : N) : list nat * N :=
  match i with
  | O => (indices, state)
  | S i' =>
      let '(u, state) := rng state in
      let j := Math_floor (u * ofNat (i + 1)) in
      shuffle i' (swap indices i j) state
  end.

(** The objects [{ start, end, offset }]. *)
Record Pair : Type := mkPair {
  startPoint : num * num * num;
  endPoint : num * num * num;
  offset : num
}.

Variables startY endY : N.
Variable numLines : nat.
Variables startNodes endNodes : list (Vector3 num).

(** [for (let i = 0; i < Math.min(numLines, startNodes.length,
    endNodes.length); i++)], with [n] iterations left.  Reading [.x] of a
    node that is [undefined] throws. *)
Fixpoint connect (n i : nat) (startIndices endIndices : list nat) (state : N)
         (pairs : list Pair) : outcome (list Pair) :=
  match n with
  | O => Returns pairs
  | S n' =>
      match option_map (nth_error startNodes) (nth_error startIndices i),
            option_map (nth_error endNodes) (nth_error endIndices i) with
      | Some (Some startNode), Some (Some endNode) =>
          let '(u, state) := rng state in
          let offset := u * lit 0.6 in
          connect n' (S i) startIndices endIndices state
                  (pairs ++ [mkPair (px startNode, ofN startY + py startNode, pz startNode)
                                    (px endNode, ofN endY + py endNode, pz endNode)
                                    offset])
      | _, _ => Throws
      end
  end.

(** The body of the [nodePairs] memo once both layers are generated. *)
Definition connectLayers : outcome (list Pair) :=
  let state := seededRandom (startY * 1000 + endY) in
  let startIndices := seq 0 (length startNodes) in
  let endIndices := seq 0 (length endNodes) in
  let '(startIndices, state) := shuffle (length startIndices - 1) startIndices state in
  let '(endIndices, state) := shuffle (length endIndices - 1) endIndices state in
  connect (Nat.min numLines (Nat.min (length startNodes) (length endNodes))) 0
          startIndices endIndices state [].
End NodePairs.

Section Component.
Context {num : Type} `{JsArith num} `{JsMath num}.
Local Open Scope js_scope.

(** The [nodePairs] memo; [null] counts are [None]. *)
Definition nodePairs (startY endY : N) (startRadius endRadius : num) (count : nat)
           (startCount endCount : option nat) (startSeed endSeed : N)
  : outcome (list (Pair (num := num))) :=
  let actualStartCount := match startCount with Some c => c | None => count end in
  let actualEndCount := match endCount with Some c => c | None => count end in
  bind (generateNodePositions actualStartCount startRadius startSeed) (fun startNodes =>
  bind (generateNodePositions actualEndCount endRadius endSeed) (fun endNodes =>
  connectLayers startY endY count startNodes endNodes)).

(** The frame callback: the growth of one line, from the growth of its
    group and its own offset. *)
Definition lineGrowth (baseGrowth offset : num) : num :=
  let offsetGrowth := (baseGrowth - offset) / (lit 1 - offset) in
  clamp offsetGrowth (lit 0) (lit 1).

(** [lineRef.current.visible = opacity > 0.01]. *)
Definition visible (opacity : num) : bool := opacity >? lit 0.01.
End Component.

Section Geometry.
Context {num : Type} `{JsArith num}.
Local Open Scope js_scope.

(** The geometry memo: the flat arrays [positions] and [colors], six
    numbers a line.  A colour is the triple [(r, g, b)] of its
    [THREE.Color]. *)
Definition positionsOf (nodePairs : list (Pair (num := num))) : list num :=
  flat_map (fun pair =>
              let '(sx, sy, sz) := startPoint pair in
              let '(ex, ey, ez) := endPoint pair in
              [sx; sy; sz; ex; ey; ez])
           nodePairs.

Definition colorsOf (startColorObj endColorObj : num * num * num)
           (nodePairs : list (Pair (num := num))) : list num :=
  flat_map (fun _ : Pair (num := num) =>
              let '(r1, g1, b1) := startColorObj in
              let '(r2, g2, b2) := endColorObj in
              [r1; g1; b1; r2; g2; b2])
           nodePairs.

(** One iteration of the loop of the frame callback, for the line [i]:
    the six entries of [positions] it writes.  [None] stands for a read of
    [undefined] outside [originalPositions]. *)
Definition frameLine (baseGrowth : num) (originalPositions positions : list num)
           (i : nat) (pair : Pair (num := num)) : option (list num) :=
  let baseIdx := (i * 6)%nat in
  let growth := lineGrowth baseGrowth (offset pair) in
  match nth_error originalPositions baseIdx,
        nth_error originalPositions (baseIdx + 1),
        nth_error originalPositions (baseIdx + 2),
        nth_error originalPositions (baseIdx + 3),
        nth_error originalPositions (baseIdx + 4),
        nth_error originalPositions (baseIdx + 5) with
  | Some startX, Some startY, Some startZ, Some endX, Some endY, Some endZ =>
      let positions := store positions baseIdx startX in
      let positions := store positions (baseIdx + 1) startY in
      let positions := store positions (baseIdx + 2) startZ in
      let positions := store positions (baseIdx + 3) (lerp startX endX growth) in
      let positions := store positions (baseIdx + 4) (lerp startY endY growth) in
      let positions := store positions (baseIdx + 5) (lerp startZ endZ growth) in
      Some positions
  | _, _, _, _, _, _ => None
  end.

(** The loop [for (let i = 0; i < nodePairs.length; i++)] of the frame
    callback. *)
Definition frame (baseGrowth : num) (nodePairs : list (Pair (num := num)))
           (originalPositions positions : list num) : option (list num) :=
  fold_left (fun acc '(i, nodePair) =>
               match acc with
               | Some positions =>
                   frameLine baseGrowth originalPositions positions i nodePair
               | None => None
               end)
            (entries nodePairs) (Some positions).
End Geometry.
End InterLayerLines.

(* ------------------------------------------------------------------ *)
(** * Experience.jsx: the frame callback *)

Module Experience.
Section UseFrame.
Context {num : Type} `{JsArith num} `{JsMath num}.
Local Open Scope js_scope.

(** [const offset = scrollProgress]. *)
Variable offset : num.
Variable isMobile : bool.

Record Cam : Type := mkCam { z : num; y : num; lookAt : num }.

Definition lookAtOffset : num := if isMobile then lit (-4) else lit 0.
Definition foundationCam : Cam := mkCam (lit 12) (lit 6.5) (lit 1.2 + lookAtOffset).
Definition networkCam : Cam := mkCam (lit 12) (lit 14.5) (lit 9.5 + lookAtOffset).
Definition ecosystemCam : Cam := mkCam (lit 12) (lit 20.5) (lit 17.5 + lookAtOffset).

(** The first chain of branches: [yPos] and [lookAtY]. *)
Definition yPos_lookAtY : num * num :=
  if offset <? lit 0.18 then
    let t := Math_min (offset / lit 0.18) (lit 1) in
    if t <? lit 0.5 then
      let dropT := t / lit 0.5 in
      (lerp (lit 50) (lit 20) dropT, lerp (lit 0) (lit 8 + lookAtOffset) dropT)
    else
      let arcT := (t - lit 0.5) / lit 0.5 in
      let easedT := arcT * arcT * (lit 3 - lit 2 * arcT) in
      (lerp (lit 20) (y foundationCam) easedT,
       lerp (lit 8 + lookAtOffset) (lookAt foundationCam) easedT)
  else if offset <? lit 0.35 then (y foundationCam, lookAt foundationCam)
  else if offset <? lit 0.38 then
    let t := (offset - lit 0.35) / lit 0.03 in
    (lerp (y foundationCam) (y networkCam) t,
     lerp (lookAt foundationCam) (lookAt networkCam) t)
  else if offset <? lit 0.58 then (y networkCam, lookAt networkCam)
  else if offset <? lit 0.61 then
    let t := (offset - lit 0.58) / lit 0.03 in
    (lerp (y networkCam) (y ecosystemCam) t,
     lerp (lookAt networkCam) (lookAt ecosystemCam) t)
  else (y ecosystemCam, lookAt ecosystemCam).

Definition targetX : num := if isMobile then lit 24 else lit 16.

(** [xPos] and [zPos]: the circular arc of the intro, the phase's [z]
    afterwards. *)
Definition xPos_zPos : num * num :=
  if offset <? lit 0.18 then
    let t := Math_min (offset / lit 0.18) (lit 1) in
    let lim := lit 0.5 in
    if t <? lim then (lit 0.5, lit 1)
    else
      let arcT := (t - lim) / (lit 1 - lim) in
      let easedT := arcT * arcT * (lit 3 - lit 2 * arcT) in
      let startRadius := Math_sqrt (lit 0.5 * lit 0.5 + lit 1 * lit 1) in
      let endRadius := Math_sqrt (targetX * targetX + z foundationCam * z foundationCam) in
      let radius := lerp startRadius endRadius easedT in
      let startAngle := Math_atan2 (lit 1) (lit 0.5) in
      let endAngle := Math_atan2 (z foundationCam) targetX in
      let angle := lerp startAngle endAngle easedT in
      (Math_cos angle * radius, Math_sin angle * radius)
  else if offset <? lit 0.35 then (targetX, z foundationCam)
  else if offset <? lit 0.38 then (targetX, z foundationCam)
  else if offset <? lit 0.58 then (targetX, z networkCam)
  else if offset <? lit 0.61 then (targetX, z ecosystemCam)
  else (targetX, z ecosystemCam).

(** [targetPos] and [targetLookAt]. *)
Definition targetPos : num * num * num :=
  (fst xPos_zPos, fst yPos_lookAtY, snd xPos_zPos).
Definition targetLookAt : num * num * num := (lit 0, snd yPos_lookAtY, lit 0).

(** The smoothing of the camera refs toward the target. *)
Definition lerpFactor (delta : num) : num := Math_min (delta * lit 4) (lit 1).
Definition lerp3 (current target : num * num * num) (t : num) : num * num * num :=
  let '(cx, cy, cz) := current in
  let '(tx, ty, tz) := target in
  (lerp cx tx t, lerp cy ty t, lerp cz tz t).
Definition cameraStep (currentCameraPos currentLookAt : num * num * num) (delta : num)
  : (num * num * num) * (num * num * num) :=
  (lerp3 currentCameraPos targetPos (lerpFactor delta),
   lerp3 currentLookAt targetLookAt (lerpFactor delta)).

(** Layer opacities. *)
Definition layer1Opacity : num := lit 1.

Definition layer2Opacity : num :=
  if offset <? lit 0.14 then lit 1
  else if offset <? lit 0.18 then
    let fadeProgress := (offset - lit 0.14) / (lit 0.18 - lit 0.14) in
    lit 1 - fadeProgress
  else if offset <? lit 0.30 then lit 0
  else if offset <? lit 0.38 then (offset - lit 0.30) / lit 0.08
  else lit 1.

Definition layer3Opacity : num :=
  if offset <? lit 0.14 then lit 1
  else if offset <? lit 0.18 then
    let fadeProgress := (offset - lit 0.14) / (lit 0.18 - lit 0.14) in
    lit 1 - fadeProgress
  else if offset <? lit 0.53 then lit 0
  else if offset <? lit 0.61 then (offset - lit 0.53) / lit 0.08
  else if offset <? lit 0.85 then lit 1
  else
    let fadeProgress := (offset - lit 0.85) / lit 0.03 in
    lit 1 - fadeProgress.

(** Line growth and opacity: the pair [(growth, opacity)] of each group. *)
Definition FADED_OPACITY : num := lit 0.1.
Definition LAYER_PAUSE : num := lit 0.03.

Definition foundationToNetwork : num * num :=
  if offset <? lit 0.18 then (lit 0, lit 0)
  else if offset <? lit 0.18 + LAYER_PAUSE then (lit 0, lit 0)
  else if offset <? lit 0.35 then
    let growthProgress := (offset - lit 0.18 - LAYER_PAUSE) / (lit 0.17 - LAYER_PAUSE) in
    (growthProgress, Math_min (lit 1) (growthProgress * lit 2))
  else if offset <? lit 0.38 then
    let fadeProgress := (offset - lit 0.35) / lit 0.03 in
    (lit 1, lerp (lit 1) FADED_OPACITY fadeProgress)
  else (lit 1, FADED_OPACITY).

Definition networkToEcosystem : num * num :=
  if offset <? lit 0.38 then (lit 0, lit 0)
  else if offset <? lit 0.38 + LAYER_PAUSE then (lit 0, lit 0)
  else if offset <? lit 0.58 then
    let growthProgress := (offset - lit 0.38 - LAYER_PAUSE) / (lit 0.20 - LAYER_PAUSE) in
    (growthProgress, Math_min (lit 1) (growthProgress * lit 2))
  else if offset <? lit 0.61 then
    let fadeProgress := (offset - lit 0.58) / lit 0.03 in
    (lit 1, lerp (lit 1) FADED_OPACITY fadeProgress)
  else (lit 1, FADED_OPACITY).

Definition ecosystemUpward : num * num :=
  if offset <? lit 0.61 then (lit 0, lit 0)
  else if offset <? lit 0.61 + LAYER_PAUSE then (lit 0, lit 0)
  else if offset <? lit 0.78 then
    let growthProgress := (offset - lit 0.61 - LAYER_PAUSE) / (lit 0.17 - LAYER_PAUSE) in
    (growthProgress, Math_min (lit 1) (growthProgress * lit 2))
  else (lit 1, lit 1).

Definition foundationToNetworkGrowth : num := fst foundationToNetwork.
Definition foundationToNetworkOpacity : num := snd foundationToNetwork.
Definition networkToEcosystemGrowth : num := fst networkToEcosystem.
Definition networkToEcosystemOpacity : num := snd networkToEcosystem.
Definition ecosystemUpwardGrowth : num := fst ecosystemUpward.
Definition ecosystemUpwardOpacity : num := snd ecosystemUpward.
End UseFrame.

Section Scene.
Context {num : Type} `{JsArith num}.
Local Open Scope js_scope.

Definition foundationNodeCount : nat := 60.
Definition networkNodeCount : nat := 120.
Definition ecosystemNodeCount : nat := 200.

Definition LINE_PERCENTAGE : num := lit 0.25.
Definition foundationToNetworkLineCount : Z :=
  Math_round (ofNat foundationNodeCount * LINE_PERCENTAGE).
Definition networkToEcosystemLineCount : Z :=
  Math_round (ofNat networkNodeCount * LINE_PERCENTAGE).
Definition ecosystemUpwardLineCount : Z :=
  Math_round (ofNat ecosystemNodeCount * LINE_PERCENTAGE).
End Scene.

Section Groups.
Context {num : Type} `{JsArith num} `{JsMath num}.

(** The three [<InterLayerLines>] of the scene. *)
Inductive group : Type := FoundationNetwork | NetworkEcosystem | EcosystemUpward.

Definition growthOf (g : group) (offset : num) : num :=
  match g with
  | FoundationNetwork => foundationToNetworkGrowth offset
  | NetworkEcosystem => networkToEcosystemGrowth offset
  | EcosystemUpward => ecosystemUpwardGrowth offset
  end.

Definition opacityOf (g : group) (offset : num) : num :=
  match g with
  | FoundationNetwork => foundationToNetworkOpacity offset
  | NetworkEcosystem => networkToEcosystemOpacity offset
  | EcosystemUpward => ecosystemUpwardOpacity offset
  end.

(** The [nodePairs] of a group, with the props the scene passes. *)
Definition linesOf (g : group) : outcome (list (InterLayerLines.Pair (num := num))) :=
  match g with
  | FoundationNetwork =>
      InterLayerLines.nodePairs 0 8 (lit 3.5) (lit 6)
        (Z.to_nat foundationToNetworkLineCount)
        (Some foundationNodeCount) (Some networkNodeCount) 0 8000
  | NetworkEcosystem =>
      InterLayerLines.nodePairs 8 16 (lit 6) (lit 9)
        (Z.to_nat networkToEcosystemLineCount)
        (Some networkNodeCount) (Some ecosystemNodeCount) 8000 16000
  | EcosystemUpward =>
      InterLayerLines.nodePairs 16 24 (lit 9) (lit 12)
        (Z.to_nat ecosystemUpwardLineCount)
        (Some ecosystemNodeCount) (Some ecosystemNodeCount) 16000 24000
  end.
End Groups.

Section Layers.
Context {num : Type} `{JsArith num} `{JsMath num}.
Local Open Scope js_scope.

(** The three [<LayerNodesWrapper>] of the scene, with the height of the
    group each one sits in and the props it is given. *)
Inductive layer : Type := Foundation | Network | Ecosystem.

Definition groupY (l : layer) : N :=
  match l with Foundation => 0 | Network => 8 | Ecosystem => 16 end.

Definition nodeCount (l : layer) : nat :=
  match l with
  | Foundation => foundationNodeCount
  | Network => networkNodeCount
  | Ecosystem => ecosystemNodeCount
  end.

Definition layerRadius (l : layer) : num :=
  match l with Foundation => lit 3.5 | Network => lit 6 | Ecosystem => lit 9 end.

Definition layerSeed (l : layer) : N :=
  match l with Foundation => 0 | Network => 8000 | Ecosystem => 16000 end.

(** [opacityRef.current] of a layer after the frame callback, at progress
    [offset]. *)
Definition opacityRef (l : layer) (offset : num) : num :=
  match l with
  | Foundation => layer1Opacity
  | Network => layer2Opacity offset
  | Ecosystem => layer3Opacity offset
  end.

(** The nodes [<LayerNodes>] generates for a layer, and the lines it
    builds: every layer is given [connectInternal={false}] and no
    [connectTo], which defaults to [[]]. *)
Definition nodesOf (l : layer) : outcome (list (Vector3 num)) :=
  LayerNodes.particles (nodeCount l) (layerRadius l) (layerSeed l).

Definition connectInternal (l : layer) : bool := false.
Definition connectTo (l : layer) : list (Vector3 num) := [].

Definition layerLines (l : layer) (particles : list (Vector3 num))
  : list (nat * nat) * list (Vector3 num * Vector3 num) :=
  (LayerNodes.internalLines particles (connectInternal l),
   LayerNodes.externalLines (layerRadius l) particles (connectTo l)).

(** The frame callback of [LayerNodesWrapper]: whether the group is
    visible, the opacity of the material of the spheres and the opacity of
    the material of the line segments. *)
Record Shown : Type := mkShown {
  visible : bool;
  meshOpacity : num;
  lineOpacity : num
}.

Definition wrapperFrame (opacity : num) : Shown :=
  mkShown (opacity >? lit 0.01) opacity (opacity * lit 0.1).

(** The layers an edge group joins; the upward lines end on a layer of
    radius 12 at height 24 that the scene does not draw. *)
Definition lowerLayer (g : group) : layer :=
  match g with
  | FoundationNetwork => Foundation
  | NetworkEcosystem => Network
  | EcosystemUpward => Ecosystem
  end.

Definition upperLayer (g : group) : option layer :=
  match g with
  | FoundationNetwork => Some Network
  | NetworkEcosystem => Some Ecosystem
  | EcosystemUpward => None
  end.

(** The slow rotation of the scene: [rotation.y += delta * 0.02]. *)
Definition rotate (delta rotationY : num) : num := rotationY + delta * lit 0.02.
End Layers.
End Experience.

(* ------------------------------------------------------------------ *)
(** * Comparisons, truthiness and defaults *)

Section Truthiness.
Context {num : Type} `{JsArith num}.
Local Open Scope js_scope.

(** [a <= b] of JavaScript, on numbers that are not NaN. *)
Definition leqb (a b : num) : bool := negb (b <? a).

(** [Math.abs]. *)
Definition Math_abs (a : num) : num := if a <? lit 0 then lit 0 - a else a.

(** A cell that holds a number, or [null] or [undefined] ([None]), is
    falsy when it holds no number or holds 0. *)
Definition truthy (v : option num) : bool :=
  match v with
  | Some x => (x <? lit 0) || (lit 0 <? x)
  | None => false
  end.

(** [v || d] and [v ?? d]. *)
Definition orElse (v : option num) (d : num) : num :=
  match v with
  | Some x => if truthy v then x else d
  | None => d
  end.

Definition nullish (v : option num) (d : num) : num :=
  match v with
  | Some x => x
  | None => d
  end.

(** [arr.indexOf(a)], for an equality test [eqb] on the elements. *)
Fixpoint indexOf {A : Type} (eqb : A -> A -> bool) (arr : list A) (a : A) : Z :=
  match arr with
  | [] => -1
  | b :: rest =>
      if eqb b a then 0
      else let k := indexOf eqb rest a in if (k <? 0)%Z then -1 else k + 1
  end%Z.
End Truthiness.

Notation "x <=? y" := (leqb x y) : js_scope.

(* ------------------------------------------------------------------ *)
(** * App.jsx: the blackout target *)

Module App.

(** The values of [animationPhase]: ['intro'], ['foundation'], ['network']
    and ['ecosystem']. *)
Inductive Phase : Type := intro | foundation | network | ecosystem.

Definition Phase_eqb (p q : Phase) : bool :=
  match p, q with
  | intro, intro | foundation, foundation
  | network, network | ecosystem, ecosystem => true
  | _, _ => false
  end.

Section MainApp.
Context {num : Type} `{JsArith num}.
Local Open Scope js_scope.

Definition MAX_SCROLL_PROGRESS : num := lit 0.82.
Definition BLACKOUT_START : num := lit 0.80.
Definition BLACKOUT_END : num := lit 0.82.

(** The effect "Blackout animation target": the new value of
    [blackoutTargetRef.current]. *)
Definition blackoutTarget (isMobile : bool) (scrollProgress blackoutTargetRef : num)
  : num :=
  if isMobile then blackoutTargetRef
  else if (scrollProgress >=? BLACKOUT_START) && (scrollProgress <? BLACKOUT_END) then
    let blackoutT := (scrollProgress - BLACKOUT_START) / (BLACKOUT_END - BLACKOUT_START) in
    blackoutT
  else if scrollProgress >=? BLACKOUT_END then lit 1
  else lit 0.

(** [handleWheel]: the new target progress after a wheel event. *)
Definition handleWheel (targetProgress deltaY : num) : num :=
  let scrollHeight := lit 10000 in
  let currentScroll := targetProgress * scrollHeight in
  let newScroll := Math_max (lit 0) (Math_min scrollHeight (currentScroll + deltaY)) in
  Math_max (lit 0) (Math_min MAX_SCROLL_PROGRESS (newScroll / scrollHeight)).

(** ** The state of [MainApp] and its handlers *)

(** The state cells of [MainApp] and the two refs its handlers write. *)
Record State : Type := mkState {
  scrollProgress : num;
  targetProgress : num;
  animationPhase : Phase;
  blackoutProgress : num;
  finalOverlayProgress : num;
  isMobile : bool;
  isDragging : bool;
  isOnFinalPage : bool;
  finalOverlayTouchStart : option num;
  finalOverlayTouchEnd : option num;
  blackoutTargetRef : num;
  finalOverlayTargetRef : num
}.

(** [useState(0)], [useState('intro')], [useState(false)], [useState(null)],
    [useRef(0)]. *)
Definition initialState : State :=
  mkState (lit 0) (lit 0) intro (lit 0) (lit 0) false false false None None
          (lit 0) (lit 0).

Definition setScrollProgress (v : num) (s : State) : State :=
  mkState v (targetProgress s) (animationPhase s) (blackoutProgress s)
          (finalOverlayProgress s) (isMobile s) (isDragging s) (isOnFinalPage s)
          (finalOverlayTouchStart s) (finalOverlayTouchEnd s)
          (blackoutTargetRef s) (finalOverlayTargetRef s).

Definition setTargetProgress (v : num) (s : State) : State :=
  mkState (scrollProgress s) v (animationPhase s) (blackoutProgress s)
          (finalOverlayProgress s) (isMobile s) (isDragging s) (isOnFinalPage s)
          (finalOverlayTouchStart s) (finalOverlayTouchEnd s)
          (blackoutTargetRef s) (finalOverlayTargetRef s).

Definition setAnimationPhase (v : Phase) (s : State) : State :=
  mkState (scrollProgress s) (targetProgress s) v (blackoutProgress s)
          (finalOverlayProgress s) (isMobile s) (isDragging s) (isOnFinalPage s)
          (finalOverlayTouchStart s) (finalOverlayTouchEnd s)
          (blackoutTargetRef s) (finalOverlayTargetRef s).

Definition setBlackoutProgress (v : num) (s : State) : State :=
  mkState (scrollProgress s) (targetProgress s) (animationPhase s) v
          (finalOverlayProgress s) (isMobile s) (isDragging s) (isOnFinalPage s)
          (finalOverlayTouchStart s) (finalOverlayTouchEnd s)
          (blackoutTargetRef s) (finalOverlayTargetRef s).

Definition setFinalOverlayProgress (v : num) (s : State) : State :=
  mkState (scrollProgress s) (targetProgress s) (animationPhase s)
          (blackoutProgress s) v (isMobile s) (isDragging s) (isOnFinalPage s)
          (finalOverlayTouchStart s) (finalOverlayTouchEnd s)
          (blackoutTargetRef s) (finalOverlayTargetRef s).

Definition setIsMobile (v : bool) (s : State) : State :=
  mkState (scrollProgress s) (targetProgress s) (animationPhase s)
          (blackoutProgress s) (finalOverlayProgress s) v (isDragging s)
          (isOnFinalPage s) (finalOverlayTouchStart s) (finalOverlayTouchEnd s)
          (blackoutTargetRef s) (finalOverlayTargetRef s).

Definition setIsDragging (v : bool) (s : State) : State :=
  mkState (scrollProgress s) (targetProgress s) (animationPhase s)
          (blackoutProgress s) (finalOverlayProgress s) (isMobile s) v
          (isOnFinalPage s) (finalOverlayTouchStart s) (finalOverlayTouchEnd s)
          (blackoutTargetRef s) (finalOverlayTargetRef s).

Definition setIsOnFinalPage (v : bool) (s : State) : State :=
  mkState (scrollProgress s) (targetProgress s) (animationPhase s)
          (blackoutProgress s) (finalOverlayProgress s) (isMobile s)
          (isDragging s) v (finalOverlayTouchStart s) (finalOverlayTouchEnd s)
          (blackoutTargetRef s) (finalOverlayTargetRef s).

Definition setFinalOverlayTouchStart (v : option num) (s : State) : State :=
  mkState (scrollProgress s) (targetProgress s) (animationPhase s)
          (blackoutProgress s) (finalOverlayProgress s) (isMobile s)
          (isDragging s) (isOnFinalPage s) v (finalOverlayTouchEnd s)
          (blackoutTargetRef s) (finalOverlayTargetRef s).

Definition setFinalOverlayTouchEnd (v : option num) (s : State) : State :=
  mkState (scrollProgress s) (targetProgress s) (animationPhase s)
          (blackoutProgress s) (finalOverlayProgress s) (isMobile s)
          (isDragging s) (isOnFinalPage s) (finalOverlayTouchStart s) v
          (blackoutTargetRef s) (finalOverlayTargetRef s).

(** [blackoutTargetRef.current = v] and [finalOverlayTargetRef.current = v]. *)
Definition setBlackoutTargetRef (v : num) (s : State) : State :=
  mkState (scrollProgress s) (targetProgress s) (animationPhase s)
          (blackoutProgress s) (finalOverlayProgress s) (isMobile s)
          (isDragging s) (isOnFinalPage s) (finalOverlayTouchStart s)
          (finalOverlayTouchEnd s) v (finalOverlayTargetRef s).

Definition setFinalOverlayTargetRef (v : num) (s : State) : State :=
  mkState (scrollProgress s) (targetProgress s) (animationPhase s)
          (blackoutProgress s) (finalOverlayProgress s) (isMobile s)
          (isDragging s) (isOnFinalPage s) (finalOverlayTouchStart s)
          (finalOverlayTouchEnd s) (blackoutTargetRef s) v.

(** [checkMobile], for the width of the window. *)
Definition checkMobile (innerWidth : num) (s : State) : State :=
  setIsMobile (innerWidth <=? lit 768) s.

Definition handleDragProgress (continuousProgress : num) (s : State) : State :=
  setScrollProgress continuousProgress s.

Definition handleScrollProgress (scrollPosition : num) (s : State) : State :=
  if isMobile s then
    if scrollPosition <? lit 0.2 then
      setBlackoutTargetRef (lit 0)
        (setAnimationPhase intro (setTargetProgress (lit 0) s))
    else if scrollPosition <? lit 0.45 then
      setBlackoutTargetRef (lit 0)
        (setAnimationPhase foundation (setTargetProgress (lit 0.18) s))
    else if scrollPosition <? lit 0.7 then
      setBlackoutTargetRef (lit 0)
        (setAnimationPhase network (setTargetProgress (lit 0.38) s))
    else if scrollPosition <? lit 0.95 then
      setBlackoutTargetRef (lit 0)
        (setAnimationPhase ecosystem (setTargetProgress (lit 0.61) s))
    else
      setBlackoutTargetRef (lit 1)
        (setAnimationPhase ecosystem (setTargetProgress (lit 0.82) s))
  else
    if scrollPosition >? lit 0.95 then
      let blackoutT := (scrollPosition - lit 0.95) / lit 0.03 in
      setBlackoutTargetRef (Math_min (lit 1) blackoutT) s
    else setBlackoutTargetRef (lit 0) s.

(** One frame of the loop [animate]: the updater passed to
    [setScrollProgress]. *)
Definition animate (s : State) : State :=
  let prev := scrollProgress s in
  setScrollProgress
    (if isDragging s then prev
     else
       let diff := targetProgress s - prev in
       if Math_abs diff <? lit 0.001 then targetProgress s
       else prev + diff * (if isMobile s then lit 0.05 else lit 0.15))
    s.

(** The phase the wheel listener derives from the new progress. *)
Definition wheelPhase (newProgress : num) : Phase :=
  if newProgress >=? lit 0.58 then ecosystem
  else if newProgress >=? lit 0.35 then network
  else if newProgress >=? lit 0.18 then foundation
  else intro.

(** The listener [handleWheel] as a whole, for an event with [deltaY]; it
    is registered on desktop only.  [handleWheel] above is its
    [newProgress]. *)
Definition onWheel (deltaY : num) (s : State) : State :=
  if isMobile s then s
  else
    let newProgress := handleWheel (targetProgress s) deltaY in
    let phase := wheelPhase newProgress in
    let s' := setTargetProgress newProgress s in
    let s' := if negb (Phase_eqb phase (animationPhase s))
              then setAnimationPhase phase s' else s' in
    if newProgress >=? BLACKOUT_START then setIsOnFinalPage true s'
    else setIsOnFinalPage false s'.

(** The effect "Blackout animation target", on the whole state. *)
Definition blackoutEffect (s : State) : State :=
  setBlackoutTargetRef
    (blackoutTarget (isMobile s) (scrollProgress s) (blackoutTargetRef s)) s.

(** The effect that sets the target of the final overlay. *)
Definition finalOverlayEffect (s : State) : State :=
  if isOnFinalPage s && (blackoutProgress s >=? lit 0.95)
  then setFinalOverlayTargetRef (lit 1) s
  else setFinalOverlayTargetRef (lit 0) s.

(** One frame of [animateBlackout] and of [animateOverlay]. *)
Definition animateBlackout (s : State) : State :=
  let prev := blackoutProgress s in
  let diff := blackoutTargetRef s - prev in
  setBlackoutProgress
    (if Math_abs diff <? lit 0.001 then blackoutTargetRef s
     else prev + diff * (if isMobile s then lit 0.05 else lit 0.1))
    s.

Definition animateOverlay (s : State) : State :=
  let prev := finalOverlayProgress s in
  let diff := finalOverlayTargetRef s - prev in
  setFinalOverlayProgress
    (if Math_abs diff <? lit 0.001 then finalOverlayTargetRef s
     else prev + diff * (if isMobile s then lit 0.05 else lit 0.08))
    s.

(** The touch handlers of the final overlay; [clientY] is
    [e.targetTouches[0].clientY]. *)
Definition handleFinalOverlayTouchStart (clientY : num) (s : State) : State :=
  if negb (isMobile s) then s
  else setFinalOverlayTouchStart (Some clientY) (setFinalOverlayTouchEnd None s).

Definition handleFinalOverlayTouchMove (clientY : num) (s : State) : State :=
  if negb (isMobile s) then s
  else setFinalOverlayTouchEnd (Some clientY) s.

Definition handleFinalOverlayTouchEnd (s : State) : State :=
  match finalOverlayTouchStart s, finalOverlayTouchEnd s with
  | Some touchStart, Some touchEnd =>
      if negb (isMobile s) || negb (truthy (Some touchStart))
         || negb (truthy (Some touchEnd))
      then s
      else
        let distance := touchStart - touchEnd in
        let isSwipeDown := distance <? lit (-50) in
        if isSwipeDown then
          handleScrollProgress (lit 0.75) (setIsOnFinalPage false s)
        else s
  | _, _ => s
  end.

(** The click handler of the logo; on desktop it also scrolls the content
    pane to its top, which changes nothing of this state. *)
Definition logoClick (s : State) : State :=
  let s' := setBlackoutTargetRef (lit 0)
              (setAnimationPhase intro (setTargetProgress (lit 0) s)) in
  if isMobile s' then handleScrollProgress (lit 0) s' else s'.

(** What the two overlays render: their [opacity], and whether the final
    overlay takes pointer events. *)
Definition blackoutOpacity (s : State) : num := blackoutProgress s.
Definition finalOverlayOpacity (s : State) : num := finalOverlayProgress s.
Definition finalOverlayPointerEvents (s : State) : bool :=
  finalOverlayProgress s >? lit 0.9.
End MainApp.
End App.
(* ------------------------------------------------------------------ *)
(** * Strings, [parseInt] and the 32-bit integer operators *)

(** A string is the sequence of its code units; the code units above 255
    have no representation in [string]. *)
Module JsString.
Import Ascii String.
Local Open Scope string_scope.
Local Open Scope Z_scope.

(** [s.replace(pattern, replacement)] for a pattern of one character and a
    replacement without [$]: the first occurrence is replaced. *)
Fixpoint replace (pattern : ascii) (replacement : string) (s : string) : string :=
  match s with
  | EmptyString => EmptyString
  | String a rest =>
      if Ascii.eqb a pattern then replacement ++ rest
      else String a (replace pattern replacement rest)
  end.

(** [s.padStart(targetLength, fill)] for a filler of one character. *)
Definition padStart (targetLength : nat) (fill : ascii) (s : string) : string :=
  string_of_list_ascii (repeat fill (targetLength - length s)) ++ s.

(** The white space and line terminators [parseInt] skips: TAB, LF, VT, FF,
    CR, SP and NBSP. *)
Definition isWhiteSpace (a : ascii) : bool :=
  let c := Z.of_N (N_of_ascii a) in
  ((9 <=? c) && (c <=? 13)) || (c =? 32) || (c =? 160).

Fixpoint trimStart (s : string) : string :=
  match s with
  | EmptyString => EmptyString
  | String a rest => if isWhiteSpace a then trimStart rest else s
  end.

(** The value of a digit, letters of both cases standing for 10 to 35. *)
Definition digitValue (a : ascii) : option Z :=
  let c := Z.of_N (N_of_ascii a) in
  if (48 <=? c) && (c <=? 57) then Some (c - 48)
  else if (97 <=? c) && (c <=? 122) then Some (c - 87)
  else if (65 <=? c) && (c <=? 90) then Some (c - 55)
  else None.

(** The integer written by the longest prefix of digits below [radix];
    [acc] is [None] as long as no digit was read. *)
Fixpoint digits (radix : Z) (s : string) (acc : option Z) : option Z :=
  match s with
  | EmptyString => acc
  | String a rest =>
      match digitValue a with
      | Some d =>
          if d <? radix
          then digits radix rest
                 (Some (radix * match acc with Some v => v | None => 0 end + d))
          else acc
      | None => acc
      end
  end.

(** The numbers with an integer value, [NaN] and the infinities. *)
Inductive Number : Type :=
| NaN
| Infinity (negative : bool)
| Finite (v : Z).

(** The double nearest to an integer, ties to the even significand. *)
Definition toDouble (v : Z) : Number :=
  let m := Z.abs v in
  if m <? 2 ^ 53 then Finite v
  else
    let e := Z.log2 m - 52 in
    let q := m / 2 ^ e in
    let r := m mod 2 ^ e in
    let half := 2 ^ (e - 1) in
    let q' := if (half <? r) || ((half =? r) && Z.odd q) then q + 1 else q in
    if 2 ^ 1024 <=? q' * 2 ^ e then Infinity (v <? 0)
    else Finite (Z.sgn v * (q' * 2 ^ e)).

(** [parseInt(inputString, 16)]. *)
Definition parseInt16 (inputString : string) : Number :=
  let S := trimStart inputString in
  let sign :=
    match S with
    | String a _ => if Ascii.eqb a "-" then -1 else 1
    | EmptyString => 1
    end in
  let S :=
    match S with
    | String a rest => if Ascii.eqb a "+" || Ascii.eqb a "-" then rest else S
    | EmptyString => S
    end in
  let S :=
    match S with
    | String a (String b rest) =>
        if Ascii.eqb a "0" && (Ascii.eqb b "x" || Ascii.eqb b "X") then rest else S
    | _ => S
    end in
  match digits 16 S None with
  | None => NaN
  | Some mathInt => toDouble (sign * mathInt)
  end.

(** The 32-bit integer the bit operators read from a number. *)
Definition int32 (v : Z) : Z :=
  let k := v mod 2 ^ 32 in if 2 ^ 31 <=? k then k - 2 ^ 32 else k.

Definition ToInt32 (n : Number) : Z :=
  match n with
  | Finite v => int32 v
  | _ => 0
  end.

(** [a >> k], [a << k], [a & b] and [a | b] on integers, for [0 <= k < 32]. *)
Definition sar (a k : Z) : Z := Z.shiftr (int32 a) k.
Definition shl (a k : Z) : Z := int32 (Z.shiftl (int32 a) k).
Definition band (a b : Z) : Z := Z.land (int32 a) (int32 b).
Definition bor (a b : Z) : Z := Z.lor (int32 a) (int32 b).

(** The digit of a value below 16, in lower case. *)
Definition hexDigit (d : Z) : ascii :=
  ascii_of_N (Z.to_N (if d <? 10 then 48 + d else 87 + d)).

(** The digits of [n >= 0], most significant first, before [acc]; eight
    steps cover a 32-bit integer. *)
Fixpoint hexDigits (steps : nat) (n : Z) (acc : string) : string :=
  match steps with
  | O => acc
  | S steps' =>
      if n <? 16 then String (hexDigit n) acc
      else hexDigits steps' (n / 16) (String (hexDigit (n mod 16)) acc)
  end.

(** [n.toString(16)] for a 32-bit integer. *)
Definition toString16 (n : Z) : string :=
  if n <? 0 then String "-" (hexDigits 8 (- n) "") else hexDigits 8 n "".
End JsString.


(* ------------------------------------------------------------------ *)
(** * ContentPane.jsx: touch navigation and the sections *)

Module ContentPane.
Section Colors.
Import Ascii String JsString.
Context {number : Type} `{JsArith number}.
Local Open Scope string_scope.

(** [darkenColor(hex, percent = 40)]; [None] is an omitted [percent].  The
    products are rounded as the model of numbers rounds them: on [double]
    as the code does, on [Q] not at all. *)
Definition darkenColor (hex : string) (percent : option number) : string :=
  let percent := nullish percent (lit 40) in
  let num := parseInt16 (replace "#" "" hex) in
  let r := Z.max 0 (Math_floor
             (ofZ (sar (ToInt32 num) 16) * (lit 1 - percent / lit 100))%js) in
  let g := Z.max 0 (Math_floor
             (ofZ (band (sar (ToInt32 num) 8) 0x00FF) * (lit 1 - percent / lit 100))%js) in
  let b := Z.max 0 (Math_floor
             (ofZ (band (ToInt32 num) 0x0000FF) * (lit 1 - percent / lit 100))%js) in
  "#" ++ padStart 6 "0" (toString16 (bor (bor (shl r 16) (shl g 8)) b)).
End Colors.

Section ContentPane.
Context {num : Type} `{JsArith num}.
Local Open Scope js_scope.

(** The state cells of [ContentPane]. *)
Record State : Type := mkState {
  activeCardIndex : Z;
  touchStart : option num;
  touchCurrent : option num
}.

Definition initialState : State := mkState 0 None None.

Definition setActiveCardIndex (v : Z) (s : State) : State :=
  mkState v (touchStart s) (touchCurrent s).
Definition setTouchStart (v : option num) (s : State) : State :=
  mkState (activeCardIndex s) v (touchCurrent s).
Definition setTouchCurrent (v : option num) (s : State) : State :=
  mkState (activeCardIndex s) (touchStart s) v.

(** The component reads the state of [MainApp] through its props and
    writes it through the callbacks [onScrollProgress] ([handleScrollProgress]),
    [onDragProgress] ([handleDragProgress]), [setIsDragging] and
    [setIsOnFinalPage]: its handlers act on both states. *)
Definition System : Type := App.State (num := num) * State.

Definition phaseToIndex (animationPhase : App.Phase) : Z :=
  match animationPhase with
  | App.intro => 0
  | App.foundation => 1
  | App.network => 2
  | App.ecosystem => 3
  end.

(** The effect that syncs [activeCardIndex] with [animationPhase]. *)
Definition syncActiveCard (st : System) : System :=
  let '(app, s) := st in
  if negb (App.isMobile app) || App.isDragging app then st
  else
    let index := phaseToIndex (App.animationPhase app) in
    if negb (index =? activeCardIndex s)%Z
    then (app, setActiveCardIndex index s) else st.

(** The touch listeners are registered on mobile only; [clientY] is
    [e.targetTouches[0].clientY]. *)
Definition handleTouchStart (clientY : num) (st : System) : System :=
  let '(app, s) := st in
  if negb (App.isMobile app) then st
  else (App.setIsDragging true app,
        setTouchCurrent (Some clientY) (setTouchStart (Some clientY) s)).

Definition snapPoints : list num := [lit 0; lit 0.18; lit 0.38; lit 0.61; lit 0.82].

(** [newProgress] of [handleTouchMove], for the height [innerHeight] of
    the window. *)
Definition newProgress (activeCardIndex : Z) (isOnFinalPage : bool)
           (touchStart currentY innerHeight : num) : num :=
  let dragDistance := touchStart - currentY in
  let screenHeight := innerHeight in
  let dragProgress := dragDistance / screenHeight in
  let dampenedProgress := dragProgress * lit 0.4 in
  let baseProgress := orElse (index snapPoints activeCardIndex) (lit 0) in
  let baseProgress := if isOnFinalPage then lit 0.82 else baseProgress in
  let '(nextSnap, prevSnap) :=
    if isOnFinalPage then (lit 0.82, lit 0.61)
    else if (activeCardIndex =? 3)%Z then
      (lit 0.82, orElse (index snapPoints (activeCardIndex - 1)) baseProgress)
    else
      (nullish (index snapPoints (activeCardIndex + 1)) baseProgress,
       nullish (index snapPoints (activeCardIndex - 1)) baseProgress) in
  let minProgress := prevSnap in
  let maxProgress := nextSnap in
  Math_max minProgress (Math_min maxProgress (baseProgress + dampenedProgress)).

Definition handleTouchMove (clientY innerHeight : num) (st : System) : System :=
  let '(app, s) := st in
  if negb (App.isMobile app) then st
  else
    match touchStart s with
    | Some start =>
        if negb (App.isDragging app) || negb (truthy (Some start)) then st
        else
          (App.handleDragProgress
             (newProgress (activeCardIndex s) (App.isOnFinalPage app)
                          start clientY innerHeight) app,
           setTouchCurrent (Some clientY) s)
    | None => st
    end.

Definition handleTouchEnd (st : System) : System :=
  let '(app, s) := st in
  if negb (App.isMobile app) then st
  else
    match touchStart s, touchCurrent s with
    | Some start, Some current =>
        if negb (App.isDragging app) || negb (truthy (Some start))
           || negb (truthy (Some current))
        then (App.setIsDragging false app, s)
        else
          let distance := start - current in
          let swipeThreshold := lit 50 in
          let isSwipeUp := distance >? swipeThreshold in
          let isSwipeDown := distance <? lit 0 - swipeThreshold in
          let '(app', s') :=
            if isSwipeUp && (activeCardIndex s <? 3)%Z then
              let newIndex := (activeCardIndex s + 1)%Z in
              (App.handleScrollProgress (ofZ newIndex / lit 4)
                 (App.setIsOnFinalPage false app),
               setActiveCardIndex newIndex s)
            else if isSwipeUp && (activeCardIndex s =? 3)%Z
                    && negb (App.isOnFinalPage app) then
              (App.handleScrollProgress (lit 1.0) (App.setIsOnFinalPage true app), s)
            else if isSwipeDown && App.isOnFinalPage app then
              (App.handleScrollProgress (lit 0.75) (App.setIsOnFinalPage false app), s)
            else if isSwipeDown && (0 <? activeCardIndex s)%Z then
              let newIndex := (activeCardIndex s - 1)%Z in
              (App.handleScrollProgress (ofZ newIndex / lit 4)
                 (App.setIsOnFinalPage false app),
               setActiveCardIndex newIndex s)
            else if App.isOnFinalPage app then
              (App.handleScrollProgress (lit 1.0) app, s)
            else
              (App.handleScrollProgress (ofZ (activeCardIndex s) / lit 4) app, s) in
          (App.setIsDragging false app',
           setTouchCurrent None (setTouchStart None s'))
    | _, _ => (App.setIsDragging false app, s)
    end.

(** ** What the component renders *)

(** The ids of [sections], in order. *)
Definition sections : list App.Phase :=
  [App.intro; App.foundation; App.network; App.ecosystem].

(** [dragOffset], in percent of the height of the window. *)
Definition dragOffset (innerHeight : num) (st : System) : num :=
  let '(app, s) := st in
  match touchStart s, touchCurrent s with
  | Some start, Some current =>
      if App.isMobile app && App.isDragging app
         && truthy (Some start) && truthy (Some current)
      then ((start - current) / innerHeight) * lit 100
      else lit 0
  | _, _ => lit 0
  end.

(** The style of a section: [transform] is [translateY(p%)] for a number
    [p] ([translateY(0)] is [translateY 0]); [pointerEvents] is [true] for
    ['auto'] and [false] for ['none']. *)
Inductive Transform : Type := translateY (percent : num).

Record Style : Type := mkStyle {
  transform : Transform;
  opacity : num;
  pointerEvents : bool
}.

(** The body of [sections.map((section, index) => ...)] up to the style. *)
Definition sectionStyle (innerHeight : num) (st : System)
           (section : App.Phase) (index : Z) : Style :=
  let '(app, s) := st in
  if App.isMobile app then
    if App.isOnFinalPage app then
      mkStyle (translateY (lit (-100))) (lit 0) false
    else if App.isDragging app then
      let dragOffset := dragOffset innerHeight st in
      if (index =? activeCardIndex s)%Z then
        mkStyle (translateY (lit 0 - dragOffset))
                (Math_max (lit 0) (lit 1 - dragOffset / lit 30)) true
      else if (index =? activeCardIndex s + 1)%Z then
        let fadeInProgress := dragOffset / lit 30 in
        mkStyle (translateY (lit 100 - dragOffset))
                (Math_max (lit 0) (Math_min (lit 1) fadeInProgress)) true
      else if (index =? activeCardIndex s - 1)%Z then
        let position := lit (-100) - dragOffset in
        let fadeInProgress := (lit 30 + position) / lit 30 in
        mkStyle (translateY position)
                (Math_max (lit 0) (Math_min (lit 1) fadeInProgress)) true
      else mkStyle (translateY (lit 0)) (lit 0) false
    else
      if (index =? activeCardIndex s)%Z then mkStyle (translateY (lit 0)) (lit 1) true
      else if (index <? activeCardIndex s)%Z then
        mkStyle (translateY (lit (-100))) (lit 0) false
      else mkStyle (translateY (lit 100)) (lit 0) false
  else
    let phaseOrder := [App.intro; App.foundation; App.network; App.ecosystem] in
    let currentPhaseIndex := indexOf App.Phase_eqb phaseOrder (App.animationPhase app) in
    let sectionIndex := indexOf App.Phase_eqb phaseOrder section in
    if (sectionIndex <? currentPhaseIndex)%Z then
      mkStyle (translateY (lit (-100))) (lit 0) false
    else if (sectionIndex =? currentPhaseIndex)%Z then
      mkStyle (translateY (lit 0)) (lit 1) true
    else mkStyle (translateY (lit 100)) (lit 0) false.

Definition sectionStyles (innerHeight : num) (st : System) : list Style :=
  map (fun '(index, section) =>
         sectionStyle innerHeight st section (Z.of_nat index))
      (entries sections).

(** The height of the fill of the progress indicator, in percent. *)
Definition progressFill (st : System) : num :=
  let '(app, s) := st in
  (if App.isOnFinalPage app then lit 4 else ofZ (activeCardIndex s)) / lit 4 * lit 100.
End ContentPane.
End ContentPane.

(* ------------------------------------------------------------------ *)
(** * The two models of JavaScript numbers *)

(** Exact rationals. *)
Definition Qltb (a b : Q) : bool :=
  match (a ?= b)%Q with Lt => true | _ => false end.

#[export] Instance Q_arith : JsArith Q := {|
  lit := fun q => q;
  add := Qplus; sub := Qminus; mul := Qmult; div := Qdiv;
  ltb := Qltb;
  Math_floor := Qfloor;
  Math_ceil := Qceiling |}.

(** Rational approximations of [Math], good to about ten decimals on the
    arguments the program passes (angles within a turn), so that the rational
    model runs end to end.  Only the examples evaluate them; no other property
    depends on their accuracy. *)
Definition Qround12 (x : Q) : Q := Qfloor (x * inject_Z (10 ^ 12)) # (10 ^ 12).

Definition Qsqrt12 (x : Q) : Q := Z.sqrt (Qfloor (x * inject_Z (10 ^ 24))) # (10 ^ 12).

Definition QPI : Q := 3.141592653590.

(** The partial sums of an alternating power series whose next term is
    [- term * x2 * step k]. *)
Fixpoint series (n : nat) (k : Z) (step : Z -> Q) (term acc x2 : Q) : Q :=
  match n with
  | O => acc
  | S n' =>
      let term' := Qround12 (- term * x2 * step k) in
      series n' (k + 2)%Z step term' (Qround12 (acc + term')) x2
  end.

Definition Qcos12 (x : Q) : Q :=
  let x := Qround12 x in
  series 30 0 (fun k => 1 # Z.to_pos ((k + 1) * (k + 2))) 1 1 (x * x).

Definition Qsin12 (x : Q) : Q :=
  let x := Qround12 x in
  series 30 1 (fun k => 1 # Z.to_pos ((k + 1) * (k + 2))) x x (x * x).

(** The arc tangent: the angle is halved three times, then summed as
    [h - h^3/3 + h^5/5 - ...]. *)
Definition halfTangent (t : Q) : Q := Qround12 (t / (1 + Qsqrt12 (1 + t * t))).

Fixpoint atanSeries (n : nat) (k : Z) (power acc x2 : Q) : Q :=
  match n with
  | O => acc
  | S n' =>
      let power' := Qround12 (- power * x2) in
      atanSeries n' (k + 2)%Z power'
                 (Qround12 (acc + power' / inject_Z (k + 2))) x2
  end.

Definition Qatan12 (t : Q) : Q :=
  let h := halfTangent (halfTangent (halfTangent t)) in
  Qround12 (8 * atanSeries 12 1 h h (h * h)).

Definition Qatan2_12 (y x : Q) : Q :=
  match (x ?= 0)%Q, (y ?= 0)%Q with
  | Gt, _ => Qatan12 (y / x)
  | Lt, Lt => Qround12 (Qatan12 (y / x) - QPI)
  | Lt, _ => Qround12 (Qatan12 (y / x) + QPI)
  | Eq, Gt => Qround12 (QPI / 2)
  | Eq, Lt => Qround12 (- QPI / 2)
  | Eq, Eq => 0
  end.

#[export] Instance Q_math : JsMath Q := {|
  Math_sqrt := Qsqrt12; Math_cos := Qcos12; Math_sin := Qsin12;
  Math_atan2 := Qatan2_12; Math_PI := QPI |}.

(** Real numbers, with the mathematical [Math]. *)
Definition Rltb (a b : R) : bool := if Rlt_dec a b then true else false.

Definition Ratan2 (y x : R) : R :=
  if Rlt_dec 0 x then atan (y / x)
  else if Rlt_dec x 0 then
         (if Rle_dec 0 y then atan (y / x) + PI else atan (y / x) - PI)
  else if Rlt_dec 0 y then PI / 2
  else if Rlt_dec y 0 then - PI / 2 else 0.

#[export] Instance R_arith : JsArith R := {|
  lit := Q2R;
  add := Rplus; sub := Rminus; mul := Rmult; div := Rdiv;
  ltb := Rltb;
  Math_floor := Zfloor;
  Math_ceil := Zceil |}.

#[export] Instance R_math : JsMath R := {|
  Math_sqrt := sqrt; Math_cos := cos; Math_sin := sin;
  Math_atan2 := Ratan2; Math_PI := PI |}.

(* ------------------------------------------------------------------ *)
(** * IEEE doubles *)

(** A third model of JavaScript numbers: the finite doubles, as the
    rationals they are, every operation rounded to the nearest double (53
    significant bits, ties to the even significand, gradual underflow below
    [2^-1022]).  Infinities, NaN and the sign of zero are not part of it: a
    result of magnitude [2^1024] or more, and a division by zero, are outside
    the model. *)

(** [floor (log2 x)] for [x > 0]. *)
Definition ilog2 (x : Q) : Z :=
  let e := (Z.log2 (Qnum x) - Z.log2 (Zpos (Qden x)))%Z in
  if Qle_bool (2 ^ e) x then e else (e - 1)%Z.

(** The nearest integer, halves to the even one. *)
Definition roundInt (q : Q) : Z :=
  let f := Qfloor q in
  match (q - inject_Z f ?= 1 # 2)%Q with
  | Lt => f
  | Gt => (f + 1)%Z
  | Eq => if Z.even f then f else (f + 1)%Z
  end.

(** The exponent of the last place of the doubles around [x <> 0]. *)
Definition ulpExponent (x : Q) : Z :=
  (Z.max (ilog2 (Z.abs (Qnum x) # Qden x)) (-1022) - 52)%Z.

Definition roundDouble (x : Q) : Q :=
  match Qnum x with
  | Z0 => 0
  | _ =>
      let e := ulpExponent x in
      Qred (inject_Z (roundInt (x * 2 ^ (- e))) * 2 ^ e)
  end.

Record double : Type := mkDouble { valueOf : Q }.

#[export] Instance double_arith : JsArith double | 100 := {|
  lit := fun q => mkDouble (roundDouble q);
  add := fun a b => mkDouble (roundDouble (valueOf a + valueOf b));
  sub := fun a b => mkDouble (roundDouble (valueOf a - valueOf b));
  mul := fun a b => mkDouble (roundDouble (valueOf a * valueOf b));
  div := fun a b => mkDouble (roundDouble (valueOf a / valueOf b));
  ltb := fun a b => Qltb (valueOf a) (valueOf b);
  Math_floor := fun a => Qfloor (valueOf a);
  Math_ceil := fun a => Qceiling (valueOf a) |}.

(** [Math] on doubles: the rational approximations above, rounded.  Only
    the examples evaluate them. *)
#[export] Instance double_math : JsMath double | 100 := {|
  Math_sqrt := fun a => mkDouble (roundDouble (Qsqrt12 (valueOf a)));
  Math_cos := fun a => mkDouble (roundDouble (Qcos12 (valueOf a)));
  Math_sin := fun a => mkDouble (roundDouble (Qsin12 (valueOf a)));
  Math_atan2 := fun a b => mkDouble (roundDouble (Qatan2_12 (valueOf a) (valueOf b)));
  Math_PI := mkDouble (roundDouble QPI) |}.

(* ------------------------------------------------------------------ *)
(** * Vocabulary of the properties *)

Section Vocabulary.
Context {num : Type} `{JsArith num} `{JsMath num}.
Local Open Scope js_scope.

(** The five seed points of a layer. *)
Definition seedPoints (radius : num) (seed : N) : list (Vector3 num) :=
  fst (LayerNodes.seedLoop radius LayerNodes.numSeeds 0 [] (seededRandom seed)).

(** [Accepted count radius temp l]: the points of [l], pushed one after
    the other on [temp], each passed [isValid] against all the points
    before it. *)
Inductive Accepted (count : nat) (radius : num)
  : list (Vector3 num) -> list (Vector3 num) -> Prop :=
| Accepted_nil temp : Accepted count radius temp []
| Accepted_cons temp p l :
    LayerNodes.isValid count radius (px p) (pz p) temp = true ->
    Accepted count radius (temp ++ [p]) l ->
    Accepted count radius temp (p :: l).

(** The angle of the [i]-th seed point. *)
Definition seedAngle (i : nat) : num :=
  ofNat i / ofNat LayerNodes.numSeeds * Math_PI * lit 2.

(** Distances in the plane of a layer, as [isValid] measures them. *)
Definition distFromCenter (p : Vector3 num) : num :=
  Math_sqrt (px p * px p + pz p * pz p).
Definition planarDistance (p q : Vector3 num) : num :=
  let dx := px p - px q in
  let dz := pz p - pz q in
  Math_sqrt (dx * dx + dz * dz).
End Vocabulary.

(** The blackout fade as the specification words it: 0 below [a], a linear
    ramp from 0 to 1 over [[a, b)], 1 from [b] onward. *)
Definition blackoutRamp (a b p : Q) : Q :=
  if Qltb p a then 0%Q
  else if Qltb p b then ((p - a) / (b - a))%Q
  else 1%Q.

(** The growth phase of each edge group in the phase table, and whether a
    hand-off camera transition (of length 0.03) follows it. *)
Definition growthStart (g : Experience.group) : Q :=
  match g with
  | Experience.FoundationNetwork => 0.18
  | Experience.NetworkEcosystem => 0.38
  | Experience.EcosystemUpward => 0.61
  end.

Definition growthEnd (g : Experience.group) : Q :=
  match g with
  | Experience.FoundationNetwork => 0.35
  | Experience.NetworkEcosystem => 0.58
  | Experience.EcosystemUpward => 0.78
  end.

Definition handsOff (g : Experience.group) : bool :=
  match g with
  | Experience.EcosystemUpward => false
  | _ => true
  end.

(** A value is an opacity or a growth fraction. *)
Definition inUnit (v : Q) : Prop := (0 <= v <= 1)%Q.

(** [Math.ceil(b / a)] on naturals. *)
Definition ceilDiv (b a : nat) : nat := ((b + a - 1) / a)%nat.

Section Nearest.
Context {num : Type} `{JsArith num}.
Variable A : Type.
Variable key : A -> num.

(** [c'] is no closer than [c]. *)
Definition noCloser (c c' : A) : Prop := ltb (key c') (key c) = false.

(** [chosen] holds at most [k] elements of [l], and every other element of
    [l] is no closer than any of them: they are [k] nearest ones. *)
Definition kNearest (k : nat) (l chosen : list A) : Prop :=
  exists rest,
    Permutation l (chosen ++ rest)
    /\ (length chosen <= k)%nat
    /\ forall c c', In c chosen -> In c' rest -> noCloser c c'.
End Nearest.

Section Pairs.
Context {num : Type} `{JsArith num}.
Variables startY endY : N.
Variables startNodes endNodes : list (Vector3 num).

(** [pair] joins the nodes that the shuffled index lists name at position
    [k], shifted to the heights of their layers, and its offset is 0.6 times
    the number the generator yields after [n] earlier ones from [state]. *)
Definition pairAt (startIndices endIndices : list nat) (state : N) (k n : nat)
           (pair : InterLayerLines.Pair (num := num)) : Prop :=
  exists si ei startNode endNode,
    nth_error startIndices k = Some si
    /\ nth_error startNodes si = Some startNode
    /\ nth_error endIndices k = Some ei
    /\ nth_error endNodes ei = Some endNode
    /\ InterLayerLines.startPoint pair
       = (px startNode, add (ofN startY) (py startNode), pz startNode)
    /\ InterLayerLines.endPoint pair
       = (px endNode, add (ofN endY) (py endNode), pz endNode)
    /\ InterLayerLines.offset pair
       = mul (fst (rng (Nat.iter n nextState state))) (lit 0.6).
End Pairs.

(** The props the scene passes to each [<InterLayerLines>]: the node count
    of the starting layer and the line count. *)
Definition startCountOf (g : Experience.group) : nat :=
  match g with
  | Experience.FoundationNetwork => Experience.foundationNodeCount
  | Experience.NetworkEcosystem => Experience.networkNodeCount
  | Experience.EcosystemUpward => Experience.ecosystemNodeCount
  end.

Definition lineCountOf {num : Type} `{JsArith num} (g : Experience.group) : Z :=
  match g with
  | Experience.FoundationNetwork => Experience.foundationToNetworkLineCount
  | Experience.NetworkEcosystem => Experience.networkToEcosystemLineCount
  | Experience.EcosystemUpward => Experience.ecosystemUpwardLineCount
  end.

(* ------------------------------------------------------------------ *)
(** * The page as a transition system *)

Section Page.
Context {num : Type} `{JsArith num}.

(** What can happen to the page: a resize, a frame of one of the three
    animation loops, a wheel event, a run of one of the three effects, a
    touch on the content pane or on the final overlay, a click on the
    logo. *)
Inductive Event : Type :=
| Resize (innerWidth : num)
| ScrollFrame
| BlackoutFrame
| OverlayFrame
| Wheel (deltaY : num)
| BlackoutEffect
| FinalOverlayEffect
| SyncEffect
| TouchStart (clientY : num)
| TouchMove (clientY innerHeight : num)
| TouchEnd
| OverlayTouchStart (clientY : num)
| OverlayTouchMove (clientY : num)
| OverlayTouchEnd
| LogoClick.

(** The handler or effect an event runs, on the states of [MainApp] and
    [ContentPane]. *)
Definition after (e : Event) (st : ContentPane.System (num := num))
  : ContentPane.System :=
  let '(app, s) := st in
  match e with
  | Resize innerWidth => (App.checkMobile innerWidth app, s)
  | ScrollFrame => (App.animate app, s)
  | BlackoutFrame => (App.animateBlackout app, s)
  | OverlayFrame => (App.animateOverlay app, s)
  | Wheel deltaY => (App.onWheel deltaY app, s)
  | BlackoutEffect => (App.blackoutEffect app, s)
  | FinalOverlayEffect => (App.finalOverlayEffect app, s)
  | SyncEffect => ContentPane.syncActiveCard st
  | TouchStart clientY => ContentPane.handleTouchStart clientY st
  | TouchMove clientY innerHeight => ContentPane.handleTouchMove clientY innerHeight st
  | TouchEnd => ContentPane.handleTouchEnd st
  | OverlayTouchStart clientY => (App.handleFinalOverlayTouchStart clientY app, s)
  | OverlayTouchMove clientY => (App.handleFinalOverlayTouchMove clientY app, s)
  | OverlayTouchEnd => (App.handleFinalOverlayTouchEnd app, s)
  | LogoClick => (App.logoClick app, s)
  end.

Definition run (events : list Event) (st : ContentPane.System (num := num))
  : ContentPane.System :=
  fold_left (fun st e => after e st) events st.

(** The page when it is mounted. *)
Definition mounted : ContentPane.System (num := num) :=
  (App.initialState, ContentPane.initialState).

(** The window has a positive height whenever a finger moves on it. *)
Definition positiveHeight (e : Event) : Prop :=
  match e with
  | TouchMove _ innerHeight => ltb (lit 0) innerHeight = true
  | _ => True
  end.
End Page.

(** The ranges the page keeps its numbers in. *)
Definition appInRange (app : App.State (num := Q)) : Prop :=
  (0 <= App.scrollProgress app <= 0.82)%Q
  /\ (0 <= App.targetProgress app <= 0.82)%Q
  /\ inUnit (App.blackoutTargetRef app)
  /\ inUnit (App.blackoutProgress app)
  /\ inUnit (App.finalOverlayTargetRef app)
  /\ inUnit (App.finalOverlayProgress app).

Definition inRange (st : ContentPane.System (num := Q)) : Prop :=
  appInRange (fst st) /\ (0 <= ContentPane.activeCardIndex (snd st) <= 3)%Z.

(** The pages of the mobile site, in order: the four sections and the
    final page; the progress at which each one rests. *)
Definition pageOf (activeCardIndex : Z) (isOnFinalPage : bool) : nat :=
  if isOnFinalPage then 4%nat else Z.to_nat activeCardIndex.

Definition snapOf (page : nat) : Q := nth page ContentPane.snapPoints 0.82%Q.

(** One frame of exponential smoothing toward [target], which lands on the
    target once it is closer than 0.001: the shape the three animation
    loops of [MainApp] share. *)
Definition approach (rate target prev : Q) : Q :=
  if Qltb (Math_abs (target - prev)%Q) 0.001 then target
  else (prev + (target - prev) * rate)%Q.

(** [v] lies between [a] and [b], whichever is larger. *)
Definition between (a b v : Q) : Prop :=
  (Qmin a b <= v <= Qmax a b)%Q.

(** A section is shown when its opacity is positive. *)
Definition shown (style : ContentPane.Style (num := Q)) : bool :=
  Qltb 0 (ContentPane.opacity style).

(** A visit of the page: a swipe on a phone, then the window is widened
    and the wheel is turned. *)
Definition visit : list (Event (num := Q)) :=
  [Resize 400; TouchStart 600; TouchMove 300 800; TouchEnd; ScrollFrame;
   SyncEffect; Resize 1200; Wheel 9000; ScrollFrame; BlackoutEffect;
   BlackoutFrame; FinalOverlayEffect; OverlayFrame]%Q.

(** A phone in the middle of a swipe up from the first section. *)
Definition midSwipe : ContentPane.System (num := Q) :=
  run [Resize 400; TouchStart 600; TouchMove 300 800]%Q mounted.

(** A phone that has just loaded the page. *)
Definition phone : ContentPane.System (num := Q) := run [Resize 400%Q] mounted.

(** What the frame callback of [InterLayerLines] draws of a line at group
    growth [baseGrowth]: its start point, and the point at the line's own
    growth fraction on the way to its end point. *)
Definition drawnLine {num : Type} `{JsArith num} (baseGrowth : num)
           (pair : InterLayerLines.Pair (num := num)) : list num :=
  let '(sx, sy, sz) := InterLayerLines.startPoint pair in
  let '(ex, ey, ez) := InterLayerLines.endPoint pair in
  let growth := InterLayerLines.lineGrowth baseGrowth (InterLayerLines.offset pair) in
  [sx; sy; sz; lerp sx ex growth; lerp sy ey growth; lerp sz ez growth].

(** The two kinds of instance the frame callback of [LayerNodes] writes:
    a node at its place, and an unused instance scaled to nothing. *)
Definition nodeInstance {num : Type} `{JsArith num} (scale : num) (particle : Vector3 num)
  : LayerNodes.Instance (num := num) :=
  LayerNodes.mkInstance (px particle, py particle, pz particle) (mul (lit 0.2) scale).

Definition unusedInstance {num : Type} `{JsArith num} : LayerNodes.Instance (num := num) :=
  LayerNodes.mkInstance (lit 0, lit 0, lit 0) (lit 0).

(** A section that is hidden, and the section that is shown at rest. *)
Definition hiddenStyle (style : ContentPane.Style (num := Q)) : Prop :=
  ContentPane.opacity style = 0%Q /\ ContentPane.pointerEvents style = false.

Definition activeStyle : ContentPane.Style (num := Q) :=
  ContentPane.mkStyle (ContentPane.translateY 0%Q) 1%Q true.

(** Where a node of a layer is in the scene: its group is moved up by
    [groupY]. *)
Definition worldPosition {num : Type} `{JsArith num} (l : Experience.layer)
           (p : Vector3 num) : num * num * num :=
  (px p, add (ofN (Experience.groupY l)) (py p), pz p).

(** The points are the places of pairwise distinct nodes of the layer. *)
Definition joins {num : Type} `{JsArith num} (l : Experience.layer)
           (nodes : list (Vector3 num)) (points : list (num * num * num)) : Prop :=
  exists indices,
    NoDup indices
    /\ Forall2 (fun i point =>
                  exists p, nth_error nodes i = Some p /\ point = worldPosition l p)
               indices points.

Section Growth.
Context {num : Type} `{JsArith num} `{JsMath num}.
Local Open Scope js_scope.

(** [p] is a candidate the sampler generates around [point]: at an angle
    and a distance it draws from the generator, with a height it draws
    last. *)
Definition candidateOf (count : nat) (radius : num) (point p : Vector3 num) : Prop :=
  exists s1 s2 s3 : N,
    let angle := fst (rng s1) * Math_PI * lit 2 in
    let dist := LayerNodes.minDist count radius * (lit 1 + fst (rng s2)) in
    p = mkVector3 (px point + Math_cos angle * dist)
                  ((fst (rng s3) - lit 0.5) * lit 0.1)
                  (pz point + Math_sin angle * dist).

(** [Grown count radius temp l]: each point of [l], pushed on [temp] in
    turn, is a candidate around a point that was there before it. *)
Inductive Grown (count : nat) (radius : num)
  : list (Vector3 num) -> list (Vector3 num) -> Prop :=
| Grown_nil temp : Grown count radius temp []
| Grown_cons temp p l :
    (exists point, In point temp /\ candidateOf count radius point p) ->
    Grown count radius (temp ++ [p]) l ->
    Grown count radius temp (p :: l).
End Growth.

(** A colour written with six hexadecimal digits in lower case, from its
    three channels, and a channel darkened by [percent] with the roundings
    of the code: [Math.floor(c * (1 - percent / 100))] on doubles. *)
Section Colours.
Import Ascii String JsString.
Local Open Scope string_scope.

Definition hex2 (c : Z) : string :=
  String (hexDigit (c / 16)) (String (hexDigit (c mod 16)) "").

Definition rgb (r g b : Z) : string := "#" ++ hex2 r ++ hex2 g ++ hex2 b.

Definition darker (percent : double) (c : Z) : Z :=
  Math_floor (ofZ c * (lit 1 - percent / lit 100))%js.

(** The characters [parseInt] takes for a digit in radix 16. *)
Definition isHexDigit (a : ascii) : bool :=
  match digitValue a with
  | Some d => (d <? 16)%Z
  | None => false
  end.
End Colours.

(** The state before [state] in the cycle of the generator, and a scan of
    the sequence from 0 that records the first step at which it is back
    at 0. *)
Definition prevState (state : N) : N := ((state + 183983) * 123901 mod 233280)%N.

Definition scanStep (c : N * N * N) : N * N * N :=
  let '(state, steps, first) := c in
  let state' := nextState state in
  let steps' := N.succ steps in
  (state', steps', if ((state' =? 0) && (first =? 0))%N then steps' else first).

Definition firstReturn (n : N) : N := snd (N.iter n scanStep (0, 0, 0)%N).

(** The Fisher-Yates shuffle as the spec names it: for [i] from the last
    position down to 1, the entry at [i] is exchanged with the entry at a
    position [draw i] of [0..i]. *)
Definition exchange (a : list nat) (i j : nat) : list nat :=
  map (fun k => nth (if (k =? i)%nat then j else if (k =? j)%nat then i else k) a 0%nat)
      (seq 0 (length a)).

Fixpoint fisherYates (draw : nat -> nat) (i : nat) (a : list nat) : list nat :=
  match i with
  | O => a
  | S i' => fisherYates draw i' (exchange a i (draw i))
  end.

(** The position drawn for [i] by a pass that starts at position [top]
    with the generator in [state]: [Math.floor(rng() * (i + 1))] on doubles,
    for the number the generator yields after [top - i] earlier ones. *)
Definition drawn (state : N) (top i : nat) : nat :=
  Z.to_nat (Math_floor (mul (fst (rng (num := double)
                                      (Nat.iter (top - i) nextState state)))
                            (ofNat (i + 1)))).

(** The five seed points a layer of five nodes consists of, on doubles. *)
Definition fiveNodes (radius : double) (seed : N) : list (Vector3 double) :=
  match InterLayerLines.generateNodePositions 5 radius seed with
  | Returns nodes => nodes
  | _ => []
  end.
(* ================================================================== *)
(** * Properties *)

Unset Implicit Arguments.

(* ------------------------------------------------------------------ *)
(** ** The two models satisfy the laws *)

Lemma Zceil_div (b a : Z) : (0 < a)%Z -> (- (- b / a) = (b + a - 1) / a)%Z.
Proof.
  intros Ha.
  pose proof (Z.div_mod (- b) a ltac:(lia)) as E1.
  pose proof (Z.mod_pos_bound (- b) a Ha) as B1.
  apply Z.div_unique with (r := ((a - 1) - (- b) mod a)%Z); [lia|].
  nia.
Qed.

Lemma Qltb_lt (a b : Q) : Qltb a b = true <-> (a < b)%Q.
Proof.
  unfold Qltb. rewrite Qlt_alt. destruct (a ?= b)%Q; split; congruence.
Qed.

Lemma Qltb_ge (a b : Q) : Qltb a b = false <-> (b <= a)%Q.
Proof.
  rewrite <- Bool.not_true_iff_false, Qltb_lt. split.
  - apply Qnot_lt_le.
  - apply Qle_not_lt.
Qed.

#[export] Instance Q_laws : JsArithLaws Q.
Proof.
  constructor.
  - intros s m n Hs Hm Hn.
    change (Qfloor (inject_Z s / inject_Z m * inject_Z n)%Q = (s * n / m)%Z).
    rewrite (Zdiv_Qdiv (s * n) m). apply Qfloor_comp.
    rewrite inject_Z_mult.
    field. intros E. destruct m; try lia; discriminate E.
  - intros b a Hb Ha.
    change (Qceiling (inject_Z b / inject_Z a)%Q = ((b + a - 1) / a)%Z).
    unfold Qceiling. rewrite <- Zceil_div by assumption. f_equal.
    rewrite (Zdiv_Qdiv (- b) a). apply Qfloor_comp.
    rewrite inject_Z_opp. field.
    intros E. destruct a; try lia; discriminate E.
  - intros a. cbn. apply Qltb_ge. apply Qle_refl.
  - intros a b c. cbn. rewrite !Qltb_lt. apply Qlt_trans.
  - intros a b c. cbn. rewrite !Qltb_ge. intros; eapply Qle_trans; eauto.
  - intros a b. cbn.
    destruct (Qltb b a) eqn:E.
    + apply Qltb_lt in E. apply Qltb_lt. Lqa.lra.
    + apply Qltb_ge in E. apply Qltb_ge. Lqa.lra.
Qed.

Lemma Rltb_lt (a b : R) : Rltb a b = true <-> (a < b)%R.
Proof.
  unfold Rltb. destruct (Rlt_dec a b); split; intros; try assumption;
    try reflexivity; try discriminate; contradiction.
Qed.

Lemma Rltb_ge (a b : R) : Rltb a b = false <-> (b <= a)%R.
Proof.
  unfold Rltb. destruct (Rlt_dec a b); split; intros; try reflexivity;
    try discriminate; Lra.lra.
Qed.

Lemma Q2R_inject_Z (k : Z) : Q2R (inject_Z k) = IZR k.
Proof. unfold Q2R; cbn. Lra.lra. Qed.

#[export] Instance R_laws : JsArithLaws R.
Proof.
  constructor.
  - intros s m n Hs Hm Hn.
    change (Zfloor (Q2R (inject_Z s) / Q2R (inject_Z m) * Q2R (inject_Z n))%R
            = (s * n / m)%Z).
    rewrite !Q2R_inject_Z. apply Zfloor_eq.
    pose proof (Z.div_mod (s * n) m ltac:(lia)) as E.
    pose proof (Z.mod_pos_bound (s * n) m Hm) as B.
    assert (Hm' : (0 < IZR m)%R) by (apply IZR_lt; assumption).
    assert (ER : (IZR s * IZR n = IZR m * IZR (s * n / m) + IZR ((s * n) mod m))%R).
    { rewrite <- !mult_IZR, <- plus_IZR. f_equal. exact E. }
    assert (B0 : (0 <= IZR ((s * n) mod m))%R) by (apply IZR_le; lia).
    assert (B1 : (IZR ((s * n) mod m) < IZR m)%R) by (apply IZR_lt; lia).
    set (x := (IZR s / IZR m * IZR n)%R).
    assert (EX : (x * IZR m = IZR s * IZR n)%R) by (unfold x; field; Lra.lra).
    split; Lra.nra.
  - intros b a Hb Ha.
    change (Zceil (Q2R (inject_Z b) / Q2R (inject_Z a))%R = ((b + a - 1) / a)%Z).
    rewrite !Q2R_inject_Z. apply Zceil_eq.
    pose proof (Z.div_mod (b + a - 1) a ltac:(lia)) as E.
    pose proof (Z.mod_pos_bound (b + a - 1) a Ha) as B.
    assert (Ha' : (0 < IZR a)%R) by (apply IZR_lt; assumption).
    assert (ER : (IZR b + IZR a - 1
                  = IZR a * IZR ((b + a - 1) / a) + IZR ((b + a - 1) mod a))%R).
    { rewrite <- mult_IZR, <- plus_IZR.
      change 1%R with (IZR 1). rewrite <- plus_IZR, <- minus_IZR.
      f_equal. exact E. }
    assert (B0 : (0 <= IZR ((b + a - 1) mod a))%R) by (apply IZR_le; lia).
    assert (B1 : (IZR ((b + a - 1) mod a) <= IZR a - 1)%R).
    { change 1%R with (IZR 1). rewrite <- minus_IZR. apply IZR_le; lia. }
    set (x := (IZR b / IZR a)%R).
    assert (EX : (x * IZR a = IZR b)%R) by (unfold x; field; Lra.lra).
    split; Lra.nra.
  - intros a. cbn. apply Rltb_ge. Lra.lra.
  - intros a b c. cbn. rewrite !Rltb_lt. Lra.lra.
  - intros a b c. cbn. rewrite !Rltb_ge. Lra.lra.
  - intros a b. cbn.
    destruct (Rltb b a) eqn:E.
    + apply Rltb_lt in E. apply Rltb_lt. change (Q2R 0) with (Q2R (inject_Z 0)).
      rewrite Q2R_inject_Z. Lra.lra.
    + apply Rltb_ge in E. apply Rltb_ge. change (Q2R 0) with (Q2R (inject_Z 0)).
      rewrite Q2R_inject_Z. Lra.lra.
Qed.

(* ------------------------------------------------------------------ *)
(** ** The definitions at work, on rationals *)

Section Examples.
Local Open Scope Q_scope.

(** The first states of the generator seeded with 0, and its first number. *)
Example rng_stream :
  map (fun k => Nat.iter k nextState 0%N) [1; 2; 3; 4]%nat
  = [49297; 165494; 127551; 172348]%N
  /\ fst (rng (num := Q) 0) == 49297 # 233280.
Proof. split; vm_compute; reflexivity. Qed.

(** A Fisher-Yates pass over five indices, with the seed of the first pair
    of layers. *)
Example shuffle_five :
  fst (InterLayerLines.shuffle (num := Q) 4 (seq 0 5) 8) = [3; 0; 4; 1; 2]%nat.
Proof. vm_compute. reflexivity. Qed.

(** Four nodes: each joins its two nearest neighbours of higher index. *)
Example internalLines_four_nodes :
  LayerNodes.internalLines
    [mkVector3 1 0 0; mkVector3 0 0 1; mkVector3 3 0 3; mkVector3 3 0 4] true
  = [(0, 1); (0, 2); (1, 2); (2, 3)]%nat.
Proof. vm_compute. reflexivity. Qed.

(** Two nodes facing three: [ceil(3 / 2) = 2] edges per node, and only one
    per node once the cutoff [3 * radius] excludes the longer ones. *)
Example externalLines_two_layers :
  let particles := [mkVector3 1 0 0; mkVector3 0 0 1] in
  let connectTo := [mkVector3 1 8 0; mkVector3 0 8 2; mkVector3 (-2) 8 0] in
  LayerNodes.connectionsPerNode particles connectTo = 2%Z
  /\ length (LayerNodes.externalLines 3.5 particles connectTo) = 4%nat
  /\ length (LayerNodes.externalLines 2.7 particles connectTo) = 2%nat.
Proof. repeat split; vm_compute; reflexivity. Qed.

(** The frame values in the middle of the first growth phase, during the
    first hand-off, and the line counts of the scene. *)
Example frame_values :
  Experience.foundationToNetworkGrowth 0.28 == 1 # 2
  /\ Experience.foundationToNetworkOpacity 0.28 == 1
  /\ Experience.foundationToNetworkOpacity 0.365 == 11 # 20
  /\ Experience.layer3Opacity 0.57 == 1 # 2
  /\ App.blackoutTarget false 0.81 0 == 1 # 2
  /\ (Experience.foundationToNetworkLineCount (num := Q),
      Experience.networkToEcosystemLineCount (num := Q),
      Experience.ecosystemUpwardLineCount (num := Q)) = (15, 30, 50)%Z.
Proof. repeat split; vm_compute; reflexivity. Qed.

(** The second seed point of a layer of radius 1, to six decimals. *)
Example second_seed_point :
  match nth_error (seedPoints (num := Q) 1 0) 1 with
  | Some p => (Qfloor (px p * 1000000), Qfloor (pz p * 1000000))
  | None => (0, 0)%Z
  end = (123606, 380422)%Z.
Proof. vm_compute. reflexivity. Qed.
End Examples.

(** Case analysis on the condition of the first [if] of a hypothesis. *)
Tactic Notation "case_if" hyp(H) "as" ident(V) :=
  match type of H with
  | context [if ?c then _ else _] => destruct c eqn:V
  end.

(* ------------------------------------------------------------------ *)
(** ** Arrays and the generator *)

Lemma index_map {A B : Type} (f : A -> B) (arr : list A) (i : Z) :
  index (map f arr) i = option_map f (index arr i).
Proof.
  unfold index. destruct (i <? 0)%Z; [reflexivity|]. apply nth_error_map.
Qed.

Lemma splice1_map {A B : Type} (f : A -> B) (arr : list A) (i : Z) :
  splice1 (map f arr) i = map f (splice1 arr i).
Proof.
  unfold splice1. now rewrite map_app, firstn_map, skipn_map.
Qed.

Lemma index_in_range {A : Type} (arr : list A) (i : Z) :
  (0 <= i < Z.of_nat (length arr))%Z -> exists a, index arr i = Some a.
Proof.
  intros Hi. unfold index. destruct (Z.ltb_spec i 0); [lia|].
  destruct (nth_error arr (Z.to_nat i)) eqn:E; [eauto|].
  apply nth_error_None in E. lia.
Qed.

Lemma splice1_length {A : Type} (arr : list A) (i : Z) :
  (0 <= i < Z.of_nat (length arr))%Z -> S (length (splice1 arr i)) = length arr.
Proof.
  intros Hi. unfold splice1. rewrite length_app, length_firstn, length_skipn. lia.
Qed.

Lemma in_skipn {A : Type} (k : nat) (l : list A) (a : A) :
  In a (skipn k l) -> In a l.
Proof. intros Ha. rewrite <- (firstn_skipn k l). apply in_or_app. now right. Qed.

Lemma in_firstn {A : Type} (k : nat) (l : list A) (a : A) :
  In a (firstn k l) -> In a l.
Proof. intros Ha. rewrite <- (firstn_skipn k l). apply in_or_app. now left. Qed.

Lemma nextState_bound (state : N) : (nextState state < 233280)%N.
Proof. unfold nextState. apply N.mod_upper_bound. discriminate. Qed.

Section GeneratorFacts.
Context {num : Type} `{JsArithLaws num}.

(** [Math.floor(rng() * n)] is the integer [state' * n / 233280], an index
    below [n]. *)
Lemma floor_rng (state : N) (n : nat) :
  Math_floor (mul (fst (rng state)) (ofNat n))
  = (Z.of_N (nextState state) * Z.of_nat n / 233280)%Z.
Proof.
  unfold rng, ofN, ofNat; cbn [fst].
  change (Z.of_N 233280) with 233280%Z.
  apply floor_ratio; lia.
Qed.

Lemma floor_rng_range (state : N) (n : nat) :
  (0 < n)%nat ->
  (0 <= Math_floor (mul (fst (rng state)) (ofNat n)) < Z.of_nat n)%Z.
Proof.
  intros Hn. rewrite floor_rng.
  pose proof (nextState_bound state) as Hs.
  split.
  - apply Z.div_pos; lia.
  - apply Z.div_lt_upper_bound; [lia|]. nia.
Qed.
End GeneratorFacts.

(* ------------------------------------------------------------------ *)
(** ** The sampler of LayerNodes.jsx *)

Section SamplerFacts.
Context {num : Type} `{JsArith num} `{JsMath num}.

Variable count : nat.
Variable radius : num.

Local Abbreviation isValid := (LayerNodes.isValid count radius).
Local Abbreviation attempts := (LayerNodes.attempts count radius).
Local Abbreviation sampling := (LayerNodes.sampling count radius).
Local Abbreviation seedLoop := (LayerNodes.seedLoop radius).

Lemma attempts_valid n point temp state p state' :
  attempts n point temp state = (Some p, state') ->
  isValid (px p) (pz p) temp = true.
Proof.
  revert state. induction n as [|n IH]; intros state; cbn.
  - discriminate.
  - intros E. case_if E as V.
    + injection E as <- <-. exact V.
    + eapply IH, E.
Qed.

Lemma seedLoop_length n i temp state :
  length (fst (seedLoop n i temp state)) = (length temp + n)%nat.
Proof.
  revert i temp state. induction n as [|n IH]; intros i temp state; cbn.
  - lia.
  - rewrite IH, length_app. cbn. lia.
Qed.

Arguments LayerNodes.attempts : simpl never.

(** What a returning run of the loop hands back: its [temp], followed by
    accepted points, and no more than [count] points once [temp] is below
    [count]. *)
Lemma sampling_accepted fuel temp activeList state nodes :
  sampling fuel temp activeList state = Returns nodes ->
  exists l, nodes = temp ++ l /\ Accepted count radius temp l
            /\ (length nodes <= Nat.max (length temp) count)%nat.
Proof.
  revert temp activeList state.
  induction fuel as [|fuel IH]; intros temp activeList state; cbn.
  - destruct (_ && _); [discriminate|]. intros [= <-].
    exists []. rewrite app_nil_r. repeat split; [constructor|lia].
  - destruct (_ && _) eqn:C.
    2:{ intros [= <-]. exists []. rewrite app_nil_r.
        repeat split; [constructor|lia]. }
    apply andb_true_iff in C. destruct C as [_ C]. apply Nat.ltb_lt in C.
    destruct (index activeList _) as [point|]; [|discriminate].
    destruct (attempts _ point temp _) as [[newPoint|] state'] eqn:A.
    + intros E. apply IH in E. destruct E as (l & -> & Hl & Hlen).
      exists (newPoint :: l). rewrite <- app_assoc. repeat split.
      * constructor; [eapply attempts_valid; eassumption | assumption].
      * rewrite !length_app in *. cbn in *. lia.
    + apply IH.
Qed.

Context `{!JsArithLaws num}.

(** The loop returns, given one unit of fuel per point it can still accept
    or retire. *)
Lemma sampling_returns fuel temp activeList state :
  ((length temp < count)%nat ->
   (2 * (count - length temp) + length activeList <= fuel + 2)%nat) ->
  exists nodes, sampling fuel temp activeList state = Returns nodes.
Proof.
  revert temp activeList state.
  induction fuel as [|fuel IH]; intros temp activeList state Hm; cbn.
  - destruct (_ && _) eqn:C; [|eauto].
    apply andb_true_iff in C. destruct C as [C1 C2].
    apply Nat.ltb_lt in C2. specialize (Hm C2).
    destruct activeList; [discriminate|]. cbn in Hm. lia.
  - destruct (_ && _) eqn:C; [|eauto].
    apply andb_true_iff in C. destruct C as [C0 C2].
    apply Nat.ltb_lt in C2. specialize (Hm C2).
    assert (C1 : (0 < length activeList)%nat)
      by (destruct activeList; [discriminate | cbn; lia]).
    pose proof (floor_rng_range state _ C1) as Hi.
    unfold rng in *. cbn [fst] in Hi.
    destruct (index_in_range activeList _ Hi) as [point ->].
    destruct (attempts _ point temp _) as [[newPoint|] state'].
    + apply IH. rewrite !length_app. cbn. lia.
    + apply IH. pose proof (splice1_length activeList _ Hi). lia.
Qed.
End SamplerFacts.

(* ------------------------------------------------------------------ *)
(** ** The two copies of the sampler agree *)

Section SamplerAgreement.
Context {num : Type} `{JsArith num} `{JsMath num}.

Variable count : nat.
Variable radius : num.

Lemma seedLoop_agree n i temp state :
  InterLayerLines.seedLoop radius n i temp state
  = LayerNodes.seedLoop radius n i temp state.
Proof.
  revert i temp state. induction n as [|n IH]; intros i temp state.
  - reflexivity.
  - cbn. apply IH.
Qed.

Lemma attempts_agree n point temp state :
  InterLayerLines.attempts count radius n (activeOf point) temp state
  = LayerNodes.attempts count radius n point temp state.
Proof.
  revert state. induction n as [|n IH]; intros state.
  - reflexivity.
  - cbn. rewrite IH. reflexivity.
Qed.

Arguments LayerNodes.attempts : simpl never.
Arguments InterLayerLines.attempts : simpl never.

(** The loops run in lock step: same [temp], same generator state, and an
    [activeList] that holds the [x] and [z] of the other one's points. *)
Lemma sampling_agree fuel temp activeList state :
  InterLayerLines.sampling count radius fuel temp (map activeOf activeList) state
  = LayerNodes.sampling count radius fuel temp activeList state.
Proof.
  revert temp activeList state.
  induction fuel as [|fuel IH]; intros temp activeList state; cbn;
    rewrite length_map.
  - reflexivity.
  - destruct (_ && _); [|reflexivity].
    rewrite index_map.
    destruct (index activeList _) as [point|]; [|reflexivity].
    cbn [option_map]. rewrite attempts_agree.
    destruct (LayerNodes.attempts _ _ _ point temp _) as [[newPoint|] state'].
    + rewrite <- IH. now rewrite map_app.
    + rewrite <- IH. now rewrite splice1_map.
Qed.

Lemma generateNodePositions_particles (seed : N) :
  InterLayerLines.generateNodePositions count radius seed
  = LayerNodes.particles count radius seed.
Proof.
  unfold InterLayerLines.generateNodePositions, LayerNodes.particles.
  rewrite seedLoop_agree.
  destruct (LayerNodes.seedLoop _ _ _ _ _) as [temp state].
  apply sampling_agree.
Qed.
End SamplerAgreement.

(** C2.  Node generation depends on [(count, radius, seed)] alone: each copy
    of the sampler builds its generator from [seed] inside the call and
    carries nothing over between calls, so calls with identical arguments
    return the identical node sequence; and the sampler of
    [InterLayerLines.jsx] returns, point for point, what the one of
    [LayerNodes.jsx] returns. *)
Theorem node_generation_pure
  {num : Type} `{JsArith num} `{JsMath num}
  (count1 count2 : nat) (radius1 radius2 : num) (seed1 seed2 : N) :
  count1 = count2 -> radius1 = radius2 -> seed1 = seed2 ->
  LayerNodes.particles count1 radius1 seed1 = LayerNodes.particles count2 radius2 seed2
  /\ InterLayerLines.generateNodePositions count1 radius1 seed1
     = InterLayerLines.generateNodePositions count2 radius2 seed2
  /\ InterLayerLines.generateNodePositions count1 radius1 seed1
     = LayerNodes.particles count2 radius2 seed2.
Proof.
  intros <- <- <-. repeat split. apply generateNodePositions_particles.
Qed.

Lemma node_generation_pure_witness :
  LayerNodes.particles 60 3.5%R 0 = LayerNodes.particles 60 3.5%R 0
  /\ InterLayerLines.generateNodePositions 60 3.5%R 0
     = InterLayerLines.generateNodePositions 60 3.5%R 0
  /\ InterLayerLines.generateNodePositions 60 3.5%R 0
     = LayerNodes.particles 60 3.5%R 0.
Proof.
  apply (node_generation_pure 60 60 3.5%R 3.5%R 0 0); reflexivity.
Defined.

(* ------------------------------------------------------------------ *)
(** ** How many points the sampler returns *)

Section SamplerCount.
Context {num : Type} `{JsArith num} `{JsMath num} `{!JsArithLaws num}.

Variable count : nat.
Variable radius : num.

Lemma seedPoints_length (seed : N) : length (seedPoints radius seed) = 5%nat.
Proof. unfold seedPoints. now rewrite seedLoop_length. Qed.

(** The sampler returns its five seeds followed by accepted points. *)
Lemma particles_returns (seed : N) :
  exists l,
    LayerNodes.particles count radius seed = Returns (seedPoints radius seed ++ l)
    /\ Accepted count radius (seedPoints radius seed) l
    /\ (5 + length l <= Nat.max count 5)%nat.
Proof.
  unfold LayerNodes.particles, seedPoints.
  pose proof (seedLoop_length radius LayerNodes.numSeeds 0 [] (seededRandom seed)) as L.
  destruct (LayerNodes.seedLoop _ _ _ _ _) as [temp state].
  cbn in L. unfold LayerNodes.numSeeds in L.
  destruct (sampling_returns count radius (2 * count) temp temp state) as [nodes E];
    [lia|].
  rewrite E. apply sampling_accepted in E. destruct E as (l & -> & Hl & Hlen).
  exists l. cbn [fst]. repeat split; [assumption|].
  rewrite length_app in Hlen. lia.
Qed.

(** When no candidate is ever valid the loop retires its active points one
    by one and returns [temp] as it is. *)
Lemma sampling_nothing_valid fuel temp activeList state :
  (forall x z, LayerNodes.isValid count radius x z temp = false) ->
  ((length temp < count)%nat -> (length activeList <= fuel)%nat) ->
  LayerNodes.sampling count radius fuel temp activeList state = Returns temp.
Proof.
  intros Hinvalid.
  assert (A : forall n point st,
             fst (LayerNodes.attempts count radius n point temp st) = None).
  { induction n as [|n IH]; intros point st; cbn; [reflexivity|].
    rewrite Hinvalid. apply IH. }
  revert activeList state.
  induction fuel as [|fuel IH]; intros activeList state Hfuel;
    cbn -[LayerNodes.attempts];
    (destruct (_ && _) eqn:C; [|reflexivity]);
    apply andb_true_iff in C; destruct C as [C0 C2];
    apply Nat.ltb_lt in C2; specialize (Hfuel C2);
    assert (C1 : (0 < length activeList)%nat)
      by (destruct activeList; [discriminate | cbn; lia]).
  - lia.
  - pose proof (floor_rng_range state _ C1) as Hi.
    unfold rng in *. cbn [fst] in Hi.
    destruct (index_in_range activeList _ Hi) as [point ->].
    specialize (A LayerNodes.maxAttempts point (nextState state)).
    destruct (LayerNodes.attempts _ _ _ point temp _) as [[newPoint|] state'];
      [discriminate|].
    apply IH. pose proof (splice1_length activeList _ Hi). lia.
Qed.
End SamplerCount.

(** On a layer of negative radius no candidate is inside the disc. *)
Lemma isValid_negative_radius (count : nat) (radius x z : R) points :
  (radius < 0)%R -> LayerNodes.isValid count radius x z points = false.
Proof.
  intros Hr. unfold LayerNodes.isValid.
  replace (ltb radius _) with true; [reflexivity|].
  symmetry. apply Rltb_lt.
  apply Rlt_le_trans with 0%R; [assumption | apply sqrt_pos].
Qed.

Lemma particles_negative_radius (count : nat) (radius : R) (seed : N) :
  (radius < 0)%R ->
  LayerNodes.particles count radius seed = Returns (seedPoints radius seed).
Proof.
  intros Hr. unfold LayerNodes.particles, seedPoints.
  pose proof (seedLoop_length radius LayerNodes.numSeeds 0 [] (seededRandom seed)) as L.
  destruct (LayerNodes.seedLoop _ _ _ _ _) as [temp state].
  cbn in L. unfold LayerNodes.numSeeds in L. cbn [fst].
  apply sampling_nothing_valid.
  - intros x z. now apply isValid_negative_radius.
  - lia.
Qed.

(** C3, as the code has it.  For every count, radius and seed the sampler
    (either copy) returns normally, with its five seed points first: at
    least 5 points and at most [max count 5], hence at most [count] points
    whenever [count >= 5].  It may return fewer than [count] points, as it
    does on a layer of negative radius, and that too is a normal return. *)
Theorem sampler_point_count :
  (forall (count : nat) (radius : R) (seed : N),
      exists nodes,
        LayerNodes.particles count radius seed = Returns nodes
        /\ InterLayerLines.generateNodePositions count radius seed = Returns nodes
        /\ (5 <= length nodes <= Nat.max count 5)%nat)
  /\ (exists (count : nat) (radius : R) (seed : N) nodes,
         LayerNodes.particles count radius seed = Returns nodes
         /\ (length nodes < count)%nat).
Proof.
  split.
  - intros count radius seed.
    destruct (particles_returns count radius seed) as (l & E & _ & Hlen).
    exists (seedPoints radius seed ++ l). rewrite generateNodePositions_particles.
    repeat split; try assumption; rewrite length_app, seedPoints_length; lia.
  - exists 60%nat, (-1)%R, 0%N, (seedPoints (-1)%R 0). split.
    + apply particles_negative_radius. Lra.lra.
    + rewrite seedPoints_length. lia.
Qed.

(** C3 fails as stated: asked for 3 points, the sampler returns its 5 seeds. *)
Lemma sampler_more_than_count :
  exists nodes,
    LayerNodes.particles 3 1%R 0 = Returns nodes
    /\ length nodes = 5%nat
    /\ ~ (length nodes <= 3)%nat.
Proof.
  eexists. split; [reflexivity|]. split; [reflexivity|]. cbn. lia.
Qed.

(* ------------------------------------------------------------------ *)
(** ** The scroll state machine, on exact rationals *)

Ltac q_unfold :=
  cbv beta iota zeta delta
      [ltb lit add sub mul div geb Math_min Math_max lerp clamp Q_arith
       Experience.layer1Opacity Experience.layer2Opacity Experience.layer3Opacity
       Experience.foundationToNetwork Experience.networkToEcosystem
       Experience.ecosystemUpward
       Experience.foundationToNetworkGrowth Experience.foundationToNetworkOpacity
       Experience.networkToEcosystemGrowth Experience.networkToEcosystemOpacity
       Experience.ecosystemUpwardGrowth Experience.ecosystemUpwardOpacity
       Experience.growthOf Experience.opacityOf
       Experience.FADED_OPACITY Experience.LAYER_PAUSE fst snd
       Experience.targetPos Experience.targetLookAt Experience.xPos_zPos
       Experience.yPos_lookAtY Experience.targetX Experience.lookAtOffset
       Experience.foundationCam Experience.networkCam Experience.ecosystemCam
       Experience.z Experience.y Experience.lookAt
       InterLayerLines.lineGrowth
       App.blackoutTarget App.handleWheel
       App.BLACKOUT_START App.BLACKOUT_END App.MAX_SCROLL_PROGRESS
       blackoutRamp growthStart growthEnd handsOff inUnit] in *.

(** Division by a constant becomes multiplication by its inverse. *)
Ltac q_inv :=
  unfold Qdiv in *;
  repeat match goal with
  | |- context [Qinv ?c] =>
      let c' := eval vm_compute in (Qinv c) in
      lazymatch c' with
      | Qmake _ _ => change (Qinv c) with c'
      end
  end.

(** Case analysis on every comparison. *)
Ltac q_cases :=
  repeat match goal with
  | |- context [Qltb ?a ?b] =>
      let E := fresh "C" in
      destruct (Qltb a b) eqn:E; [apply Qltb_lt in E | apply Qltb_ge in E]
  | H : context [Qltb ?a ?b] |- _ =>
      let E := fresh "C" in
      destruct (Qltb a b) eqn:E; [apply Qltb_lt in E | apply Qltb_ge in E]
  end.

Ltac q_solve := q_unfold; q_inv; q_cases; cbn [negb andb] in *; try Lqa.lra.

Section ScrollStateMachine.
Local Open Scope Q_scope.

(** Eight of the nine values stay in [[0, 1]] whatever the progress. *)
Lemma frame_values_in_unit (offset : Q) :
  inUnit (Experience.layer1Opacity (num := Q))
  /\ inUnit (Experience.layer2Opacity offset)
  /\ (forall g, inUnit (Experience.growthOf g offset))
  /\ (forall g, inUnit (Experience.opacityOf g offset)).
Proof.
  split; [q_solve|]. split; [q_solve|].
  split; intros []; q_solve.
Qed.

(** The opacity of the top layer stays in [[0, 1]] up to the end of its
    fade-out at 0.88. *)
Lemma layer3Opacity_in_unit (offset : Q) :
  offset <= 0.88 -> inUnit (Experience.layer3Opacity offset).
Proof. intros Hp. q_solve. Qed.

(** The wheel handler keeps the target progress within [[0, 0.82]]. *)
Lemma handleWheel_range (targetProgress deltaY : Q) :
  0 <= App.handleWheel targetProgress deltaY <= 0.82.
Proof. q_solve. Qed.

(** C1.  The claim fails at progress 0.9: past the end of its fade-out the
    opacity of the top layer keeps decreasing, to [-2/3] there, outside
    [[0, 1]]. *)
Theorem layer3Opacity_below_zero :
  Experience.layer3Opacity (0.9 : Q) == - (2 # 3)
  /\ ~ inUnit (Experience.layer3Opacity (0.9 : Q)).
Proof.
  split.
  - vm_compute. reflexivity.
  - intros [H0 _]. revert H0. q_solve.
Qed.

(** C5 fails as stated: at progress 0.85 the blackout target is already 1,
    while a ramp over [[0.78, 0.88)] would be at 0.7. *)
Lemma blackout_not_over_078_088 :
  App.blackoutTarget false (0.85 : Q) 0 == 1
  /\ blackoutRamp 0.78 0.88 0.85 == 0.7
  /\ ~ App.blackoutTarget false (0.85 : Q) 0 == blackoutRamp 0.78 0.88 0.85.
Proof.
  repeat split; try (vm_compute; reflexivity).
  vm_compute. discriminate.
Qed.

(** C5, as the code has it.  On desktop the blackout target is 0 for
    progress below 0.80, ramps linearly from 0 to 1 over [[0.80, 0.82)] and
    holds at 1 from 0.82 onward; and from 0.61 onward, so all through the
    blackout, the camera target holds the ecosystem pose. *)
Theorem blackout_target_ramp (M : JsMath Q) (scrollProgress current : Q) :
  App.blackoutTarget false scrollProgress current
  == blackoutRamp 0.80 0.82 scrollProgress
  /\ (0.61 <= scrollProgress ->
      forall isMobile,
        Experience.targetPos scrollProgress isMobile
        = (Experience.targetX isMobile, 20.5, 12)
        /\ Experience.targetLookAt scrollProgress isMobile
           = (0, 17.5 + Experience.lookAtOffset isMobile, 0)).
Proof.
  split.
  - q_solve.
  - intros Hp isMobile. q_unfold.
    repeat match goal with
    | |- context [Qltb scrollProgress ?c] =>
        replace (Qltb scrollProgress c) with false
          by (symmetry; apply Qltb_ge; Lqa.lra)
    end.
    split; reflexivity.
Qed.

Lemma blackout_target_ramp_witness :
  App.blackoutTarget false 0.81 0 == blackoutRamp 0.80 0.82 0.81
  /\ (0.61 <= 0.81 ->
      forall isMobile,
        Experience.targetPos 0.81 isMobile = (Experience.targetX isMobile, 20.5, 12)
        /\ Experience.targetLookAt 0.81 isMobile
           = (0, 17.5 + Experience.lookAtOffset isMobile, 0)).
Proof. exact (blackout_target_ramp Q_math 0.81 0). Defined.



(** C10.  For an edge with phase offset [o] in [[0, 0.6)] the divisor
    [1 - o] is positive, and the growth of the line, as a function of the
    growth [g] of its group, is 0 whenever [g <= o], is 1 whenever [g >= 1],
    and never decreases when [g] increases: the line is fully retracted at
    group growth 0 and fully drawn at group growth 1. *)
Theorem lineGrowth_staggered (o : Q) :
  0 <= o < 0.6 ->
  0 < 1 - o
  /\ (forall g, g <= o -> InterLayerLines.lineGrowth g o == 0)
  /\ (forall g, 1 <= g -> InterLayerLines.lineGrowth g o == 1)
  /\ (forall g1 g2, g1 <= g2 ->
                    InterLayerLines.lineGrowth g1 o <= InterLayerLines.lineGrowth g2 o)
  /\ InterLayerLines.lineGrowth 0 o == 0
  /\ InterLayerLines.lineGrowth 1 o == 1.
Proof.
  intros Ho.
  assert (Hk : 0 < / (1 - o)) by (apply Qinv_lt_0_compat; Lqa.lra).
  assert (Hk1 : (1 - o) * / (1 - o) == 1) by (apply Qmult_inv_r; Lqa.lra).
  split; [Lqa.lra|].
  q_unfold. unfold Qdiv. set (k := / (1 - o)) in *.
  repeat split; intros; q_cases; try Lqa.lra; Lqa.nra.
Qed.

Lemma lineGrowth_staggered_witness :
  0 < 1 - 0.3
  /\ (forall g, g <= 0.3 -> InterLayerLines.lineGrowth g 0.3 == 0)
  /\ (forall g, 1 <= g -> InterLayerLines.lineGrowth g 0.3 == 1)
  /\ (forall g1 g2, g1 <= g2 ->
                    InterLayerLines.lineGrowth g1 0.3 <= InterLayerLines.lineGrowth g2 0.3)
  /\ InterLayerLines.lineGrowth 0 0.3 == 0
  /\ InterLayerLines.lineGrowth 1 0.3 == 1.
Proof. apply (lineGrowth_staggered 0.3). Lqa.lra. Defined.

End ScrollStateMachine.

(* ------------------------------------------------------------------ *)
(** ** Sorting by distance *)

Section SortFacts.
Context {num : Type} `{JsArithLaws num}.
Variable A : Type.
Variable key : A -> num.

Local Abbreviation byKey := (fun a b : A => sub (key a) (key b)).

Lemma ltb_asym (a b : num) : ltb a b = true -> ltb b a = false.
Proof.
  intros Hab. destruct (ltb b a) eqn:Hba; [|reflexivity].
  pose proof (ltb_trans _ _ _ Hab Hba) as Haa.
  rewrite ltb_irrefl in Haa. discriminate.
Qed.

Lemma insertSorted_perm (a : A) (l : list A) :
  Permutation (insertSorted byKey a l) (a :: l).
Proof.
  induction l as [|b l IH]; cbn.
  - reflexivity.
  - destruct (ltb _ _).
    + rewrite IH. apply perm_swap.
    + reflexivity.
Qed.

Lemma sort_perm (l : list A) : Permutation (sort byKey l) l.
Proof.
  induction l as [|a l IH]; cbn.
  - reflexivity.
  - rewrite insertSorted_perm. now constructor.
Qed.

Lemma insertSorted_sorted (a : A) (l : list A) :
  StronglySorted (noCloser key) l ->
  StronglySorted (noCloser key) (insertSorted byKey a l).
Proof.
  induction 1 as [|b l Hl IH Hb]; cbn.
  - repeat constructor.
  - rewrite sub_sign. destruct (ltb (key b) (key a)) eqn:E.
    + constructor; [assumption|].
      rewrite Forall_forall in *. intros c Hc.
      apply (Permutation_in _ (insertSorted_perm a l)) in Hc.
      destruct Hc as [<- | Hc]; [|now apply Hb].
      unfold noCloser. now apply ltb_asym.
    + constructor; [now constructor|].
      constructor; [exact E|].
      rewrite Forall_forall in *. intros c Hc. specialize (Hb c Hc).
      unfold noCloser in *. eapply ltb_negtrans; eassumption.
Qed.

Lemma sort_sorted (l : list A) : StronglySorted (noCloser key) (sort byKey l).
Proof.
  induction l as [|a l IH]; cbn.
  - constructor.
  - now apply insertSorted_sorted.
Qed.

Lemma sorted_firstn_skipn (l : list A) (k : nat) (c c' : A) :
  StronglySorted (noCloser key) l ->
  In c (firstn k l) -> In c' (skipn k l) -> noCloser key c c'.
Proof.
  intros Hl. revert k. induction Hl as [|b l Hl IH Hb]; intros k Hc Hc'.
  - rewrite firstn_nil in Hc. contradiction.
  - destruct k as [|k]; [contradiction|]. cbn in Hc, Hc'.
    destruct Hc as [<- | Hc].
    + rewrite Forall_forall in Hb. apply Hb.
      eapply in_skipn. exact Hc'.
    + eapply IH; eassumption.
Qed.

(** The first [k] elements of the sorted array are [k] nearest ones. *)
Lemma sort_kNearest (l : list A) (k : Z) :
  (0 <= k)%Z -> kNearest key (Z.to_nat k) l (slice0 (sort byKey l) k).
Proof.
  intros Hk. exists (skipn (Z.to_nat k) (sort byKey l)). unfold slice0.
  split; [|split].
  - rewrite firstn_skipn. symmetry. apply sort_perm.
  - apply firstn_le_length.
  - intros c c'. apply sorted_firstn_skipn, sort_sorted.
Qed.
End SortFacts.

(* ------------------------------------------------------------------ *)
(** ** Inter-layer edges of LayerNodes.jsx *)

Lemma flat_map_optional_length {A B : Type} (f : A -> list B) (l : list A) :
  (forall a, length (f a) <= 1)%nat -> (length (flat_map f l) <= length l)%nat.
Proof.
  intros Hf. induction l as [|a l IH]; cbn.
  - lia.
  - rewrite length_app. specialize (Hf a). lia.
Qed.

Lemma flat_map_bounded_length {A B : Type} (f : A -> list B) (l : list A) (k : nat) :
  (forall a, In a l -> length (f a) <= k)%nat ->
  (length (flat_map f l) <= length l * k)%nat.
Proof.
  induction l as [|a l IH]; intros Hf; cbn.
  - lia.
  - rewrite length_app.
    pose proof (Hf a (or_introl eq_refl)).
    assert (length (flat_map f l) <= length l * k)%nat
      by (apply IH; intros; apply Hf; now right).
    lia.
Qed.

Section ExternalLines.
Context {num : Type} `{JsArith num} `{JsMath num} `{!JsArithLaws num}.
Variable radius : num.
Variables particles connectTo : list (Vector3 num).

Local Abbreviation perNode := (Nat.min 3 (ceilDiv (length connectTo) (length particles))).

Lemma connectionsPerNode_ceil :
  (0 < length particles)%nat ->
  LayerNodes.connectionsPerNode particles connectTo = Z.of_nat perNode.
Proof.
  intros Ha. unfold LayerNodes.connectionsPerNode, ofNat, ceilDiv.
  rewrite ceil_ratio by lia.
  rewrite Nat2Z.inj_min, Nat2Z.inj_div, Nat2Z.inj_sub, Nat2Z.inj_add by lia.
  reflexivity.
Qed.

Lemma externalFrom_length (p1 : Vector3 num) :
  (0 < length particles)%nat ->
  (length (LayerNodes.externalFrom radius particles connectTo p1) <= perNode)%nat.
Proof.
  intros Ha. unfold LayerNodes.externalFrom.
  etransitivity.
  - apply flat_map_optional_length. intros n. destruct (ltb _ _); cbn; lia.
  - unfold slice0. rewrite connectionsPerNode_ceil, Nat2Z.id by assumption.
    apply firstn_le_length.
Qed.

Lemma externalFrom_nearest (p1 : Vector3 num) :
  (0 < length particles)%nat ->
  exists chosen,
    kNearest (LayerNodes.ndist (num := num)) perNode
             (map (fun p2 => LayerNodes.mkNearest p2 (distanceTo p1 p2)) connectTo)
             chosen
    /\ forall edge,
        In edge (LayerNodes.externalFrom radius particles connectTo p1) ->
        exists n,
          In n chosen
          /\ edge = (p1, LayerNodes.node n)
          /\ In (LayerNodes.node n) connectTo
          /\ LayerNodes.ndist n = distanceTo p1 (LayerNodes.node n)
          /\ ltb (LayerNodes.ndist n) (mul radius (lit 3)) = true.
Proof.
  intros Ha. unfold LayerNodes.externalFrom.
  set (nearestNodes := map _ connectTo).
  set (sorted := sort _ nearestNodes).
  exists (slice0 sorted (LayerNodes.connectionsPerNode particles connectTo)).
  split.
  - rewrite <- (Nat2Z.id perNode), <- connectionsPerNode_ceil by assumption.
    apply (sort_kNearest _ (LayerNodes.ndist (num := num))).
    rewrite connectionsPerNode_ceil by assumption. lia.
  - intros edge Hedge. apply in_flat_map in Hedge.
    destruct Hedge as (n & Hn & Hedge). exists n.
    destruct (ltb (LayerNodes.ndist n) _) eqn:Hcut; [|contradiction].
    destruct Hedge as [<- | []].
    assert (Hin : In n nearestNodes).
    { apply (Permutation_in _ (sort_perm _ (LayerNodes.ndist (num := num)) nearestNodes)).
      eapply in_firstn. exact Hn. }
    apply in_map_iff in Hin. destruct Hin as (p2 & <- & Hp2).
    repeat split; assumption.
Qed.
End ExternalLines.

(** C7.  For node sequences [particles] (layer A, of radius [radius]) and
    [connectTo] (layer B): every edge comes from a node of A; a node of A
    emits at most [min(3, ceil(|B| / |A|))] edges; each of them joins the
    node to one of that many nearest nodes of B (no other node of B is
    closer), at a distance below [3 * radius]; so there are at most
    [|A| * min(3, ceil(|B| / |A|))] edges; and when either layer is empty
    the builder returns no edges. *)
Theorem external_edges
  {num : Type} `{JsArith num} `{JsMath num} `{!JsArithLaws num}
  (radius : num) (particles connectTo : list (Vector3 num)) :
  (forall edge,
      In edge (LayerNodes.externalLines radius particles connectTo) ->
      exists p1, In p1 particles
                 /\ In edge (LayerNodes.externalFrom radius particles connectTo p1))
  /\ (forall p1,
         In p1 particles ->
         (length (LayerNodes.externalFrom radius particles connectTo p1)
          <= Nat.min 3 (ceilDiv (length connectTo) (length particles)))%nat
         /\ exists chosen,
             kNearest (LayerNodes.ndist (num := num))
                      (Nat.min 3 (ceilDiv (length connectTo) (length particles)))
                      (map (fun p2 => LayerNodes.mkNearest p2 (distanceTo p1 p2)) connectTo)
                      chosen
             /\ forall edge,
                 In edge (LayerNodes.externalFrom radius particles connectTo p1) ->
                 exists n,
                   In n chosen
                   /\ edge = (p1, LayerNodes.node n)
                   /\ In (LayerNodes.node n) connectTo
                   /\ LayerNodes.ndist n = distanceTo p1 (LayerNodes.node n)
                   /\ ltb (LayerNodes.ndist n) (mul radius (lit 3)) = true)
  /\ (length (LayerNodes.externalLines radius particles connectTo)
      <= length particles
         * Nat.min 3 (ceilDiv (length connectTo) (length particles)))%nat
  /\ (particles = [] \/ connectTo = [] ->
      LayerNodes.externalLines radius particles connectTo = []).
Proof.
  split; [|split; [|split]].
  - unfold LayerNodes.externalLines. intros edge Hedge.
    destruct (0 <? length connectTo)%nat; [|contradiction].
    apply in_flat_map in Hedge. exact Hedge.
  - intros p1 Hp1.
    assert (Ha : (0 < length particles)%nat)
      by (destruct particles; [contradiction | cbn; lia]).
    split.
    + now apply externalFrom_length.
    + now apply externalFrom_nearest.
  - unfold LayerNodes.externalLines.
    destruct (0 <? length connectTo)%nat; [|cbn; lia].
    apply flat_map_bounded_length. intros p1 Hp1.
    apply externalFrom_length. destruct particles; [contradiction | cbn; lia].
  - unfold LayerNodes.externalLines. intros [-> | ->].
    + now destruct connectTo.
    + reflexivity.
Qed.

Lemma external_edges_witness :
  let radius := 3.5%Q in
  let particles := [mkVector3 1 0 0; mkVector3 0 0 1]%Q in
  let connectTo := [mkVector3 1 8 0; mkVector3 0 8 2; mkVector3 (-2) 8 0]%Q in
  (forall edge,
      In edge (LayerNodes.externalLines radius particles connectTo) ->
      exists p1, In p1 particles
                 /\ In edge (LayerNodes.externalFrom radius particles connectTo p1))
  /\ (forall p1,
         In p1 particles ->
         (length (LayerNodes.externalFrom radius particles connectTo p1)
          <= Nat.min 3 (ceilDiv (length connectTo) (length particles)))%nat
         /\ exists chosen,
             kNearest (LayerNodes.ndist (num := Q))
                      (Nat.min 3 (ceilDiv (length connectTo) (length particles)))
                      (map (fun p2 => LayerNodes.mkNearest p2 (distanceTo p1 p2)) connectTo)
                      chosen
             /\ forall edge,
                 In edge (LayerNodes.externalFrom radius particles connectTo p1) ->
                 exists n,
                   In n chosen
                   /\ edge = (p1, LayerNodes.node n)
                   /\ In (LayerNodes.node n) connectTo
                   /\ LayerNodes.ndist n = distanceTo p1 (LayerNodes.node n)
                   /\ ltb (LayerNodes.ndist n) (mul radius (lit 3)) = true)
  /\ (length (LayerNodes.externalLines radius particles connectTo)
      <= length particles
         * Nat.min 3 (ceilDiv (length connectTo) (length particles)))%nat
  /\ (particles = [] \/ connectTo = [] ->
      LayerNodes.externalLines radius particles connectTo = []).
Proof.
  intros radius particles connectTo.
  exact (external_edges (num := Q) radius particles connectTo).
Defined.

(* ------------------------------------------------------------------ *)
(** ** Internal edges of LayerNodes.jsx *)

Lemma entries_nth {A : Type} (arr : list A) (i : nat) (a : A) :
  In (i, a) (entries arr) <-> nth_error arr i = Some a.
Proof.
  unfold entries.
  assert (G : forall start, In (i, a) (combine (seq start (length arr)) arr)
                            <-> (start <= i)%nat /\ nth_error arr (i - start) = Some a).
  { induction arr as [|b arr IH]; intros start; cbn.
    - split; [contradiction|]. intros [_ E]. now destruct (i - start)%nat.
    - rewrite IH. split.
      + intros [[= <- <-] | [Hle E]].
        * rewrite Nat.sub_diag. split; [lia | reflexivity].
        * split; [lia|]. replace (i - start)%nat with (S (i - S start)) by lia.
          exact E.
      + intros [Hle E]. destruct (Nat.eq_dec start i) as [<- | Hne].
        * rewrite Nat.sub_diag in E. cbn in E. left. congruence.
        * right. split; [lia|].
          replace (i - start)%nat with (S (i - S start)) in E by lia. exact E. }
  rewrite G, Nat.sub_0_r. split; [tauto | split; [lia | assumption]].
Qed.

Lemma entries_keys {A : Type} (arr : list A) :
  map fst (entries arr) = seq 0 (length arr).
Proof.
  unfold entries. generalize 0%nat as start.
  induction arr as [|a arr IH]; intros start; cbn.
  - reflexivity.
  - now rewrite IH.
Qed.

Lemma NoDup_firstn {A : Type} (k : nat) (l : list A) : NoDup l -> NoDup (firstn k l).
Proof.
  intros Hl. rewrite <- (firstn_skipn k l) in Hl.
  eapply NoDup_app_remove_r. exact Hl.
Qed.

(** A [flatMap] over distinct keys whose pieces are duplicate-free and carry
    their key has no duplicates. *)
Lemma NoDup_flat_map_keyed {A B K : Type} (f : A -> list B) (keyA : A -> K)
      (keyB : B -> K) (l : list A) :
  NoDup (map keyA l) ->
  (forall a, In a l -> NoDup (f a)) ->
  (forall a b, In a l -> In b (f a) -> keyB b = keyA a) ->
  NoDup (flat_map f l).
Proof.
  induction l as [|a l IH]; intros Hkeys Hf Hkey; cbn.
  - constructor.
  - inversion Hkeys as [|? ? Hnotin Hrest]; subst.
    apply NoDup_app.
    + apply Hf. now left.
    + apply IH; [assumption | intros; apply Hf; now right
                | intros; apply Hkey; [now right | assumption]].
    + intros b Hb1 Hb2. apply in_flat_map in Hb2. destruct Hb2 as (a' & Ha' & Hb2).
      apply Hnotin. apply in_map_iff. exists a'. split; [|assumption].
      transitivity (keyB b).
      * symmetry. apply Hkey; [now right | assumption].
      * apply Hkey; [now left | assumption].
Qed.

Section InternalLines.
Context {num : Type} `{JsArith num} `{JsMath num}.
Variable particles : list (Vector3 num).

Lemma neighbors_spec (i : nat) (p1 : Vector3 num) (n : LayerNodes.Neighbor) :
  In n (LayerNodes.neighbors particles i p1) <->
  exists p2, nth_error particles (LayerNodes.idx n) = Some p2
             /\ LayerNodes.idx n <> i
             /\ LayerNodes.dist n = distanceTo p1 p2.
Proof.
  unfold LayerNodes.neighbors. rewrite in_flat_map. split.
  - intros ([j p2] & Hin & Hn). apply entries_nth in Hin.
    destruct (Nat.eqb_spec i j) as [-> | Hne]; [contradiction|].
    destruct Hn as [<- | []]. exists p2. cbn. repeat split; auto.
  - intros (p2 & Hnth & Hne & Hd). exists (LayerNodes.idx n, p2). split.
    + now apply entries_nth.
    + destruct (Nat.eqb_spec i (LayerNodes.idx n)) as [-> | _]; [contradiction|].
      left. destruct n as [j d]. cbn in *. now rewrite Hd.
Qed.

Lemma neighbors_NoDup (i : nat) (p1 : Vector3 num) :
  NoDup (map (LayerNodes.idx (num := num)) (LayerNodes.neighbors particles i p1)).
Proof.
  unfold LayerNodes.neighbors.
  assert (G : forall l : list (nat * Vector3 num),
             NoDup (map fst l) ->
             NoDup (map (LayerNodes.idx (num := num))
                        (flat_map (fun '(j, p2) =>
                                     if (i =? j)%nat then []
                                     else [LayerNodes.mkNeighbor j (distanceTo p1 p2)]) l))).
  { induction l as [|[j p2] l IH]; cbn; intros Hl.
    - constructor.
    - inversion Hl as [|? ? Hnotin Hrest]; subst.
      destruct (i =? j)%nat; cbn; [now apply IH|].
      constructor; [|now apply IH].
      intros Hin. apply Hnotin. apply in_map_iff in Hin.
      destruct Hin as (n & Hidx & Hn). apply in_flat_map in Hn.
      destruct Hn as ([j' p2'] & Hin' & Hn).
      destruct (i =? j')%nat; [contradiction|]. destruct Hn as [<- | []].
      cbn in Hidx. subst j'. apply in_map_iff. now exists (j, p2'). }
  apply G. rewrite entries_keys. apply seq_NoDup.
Qed.

Lemma internalFrom_spec (i : nat) (p1 : Vector3 num) (e : nat * nat) :
  In e (LayerNodes.internalFrom particles i p1) <->
  exists n,
    In n (slice0 (sort (fun a b => sub (LayerNodes.dist a) (LayerNodes.dist b))
                       (LayerNodes.neighbors particles i p1)) 2)
    /\ (i < LayerNodes.idx n)%nat /\ e = (i, LayerNodes.idx n).
Proof.
  unfold LayerNodes.internalFrom. rewrite in_flat_map. split.
  - intros (n & Hn & He). exists n.
    destruct (Nat.ltb_spec i (LayerNodes.idx n)); [|contradiction].
    destruct He as [<- | []]. auto.
  - intros (n & Hn & Hlt & ->). exists n. split; [assumption|].
    destruct (Nat.ltb_spec i (LayerNodes.idx n)); [now left | lia].
Qed.

Lemma internalFrom_length (i : nat) (p1 : Vector3 num) :
  (length (LayerNodes.internalFrom particles i p1) <= 2)%nat.
Proof.
  unfold LayerNodes.internalFrom. etransitivity.
  - apply flat_map_optional_length. intros n. destruct (_ <? _)%nat; cbn; lia.
  - apply firstn_le_length.
Qed.
End InternalLines.

Section InternalEdges.
Context {num : Type} `{JsArith num} `{JsMath num}.
Variable particles : list (Vector3 num).

Local Abbreviation byDist :=
  (fun a b : LayerNodes.Neighbor => sub (LayerNodes.dist a) (LayerNodes.dist b)).

Lemma internalFrom_NoDup (i : nat) (p1 : Vector3 num) :
  NoDup (LayerNodes.internalFrom particles i p1).
Proof.
  unfold LayerNodes.internalFrom.
  apply NoDup_flat_map_keyed with (keyA := LayerNodes.idx (num := num)) (keyB := snd).
  - unfold slice0. rewrite <- firstn_map. apply NoDup_firstn.
    eapply Permutation_NoDup; [|apply (neighbors_NoDup particles i p1)].
    apply Permutation_map. symmetry.
    apply (sort_perm _ (LayerNodes.dist (num := num))).
  - intros n _. destruct (_ <? _)%nat; repeat constructor. intros [].
  - intros n e _ He. destruct (_ <? _)%nat; [|contradiction].
    destruct He as [<- | []]. reflexivity.
Qed.

Lemma internalLines_spec (e : nat * nat) :
  In e (LayerNodes.internalLines particles true) <->
  exists p1, nth_error particles (fst e) = Some p1
             /\ In e (LayerNodes.internalFrom particles (fst e) p1).
Proof.
  unfold LayerNodes.internalLines. rewrite in_flat_map. split.
  - intros ([i p1] & Hin & He). apply entries_nth in Hin.
    assert (fst e = i) as ->.
    { apply internalFrom_spec in He. destruct He as (n & _ & _ & ->). reflexivity. }
    now exists p1.
  - intros (p1 & Hnth & He). exists (fst e, p1). split; [|assumption].
    now apply entries_nth.
Qed.

Lemma internalLines_NoDup : NoDup (LayerNodes.internalLines particles true).
Proof.
  unfold LayerNodes.internalLines.
  apply NoDup_flat_map_keyed with (keyA := fst) (keyB := fst).
  - rewrite entries_keys. apply seq_NoDup.
  - intros [i p1] _. apply internalFrom_NoDup.
  - intros [i p1] e _ He. apply internalFrom_spec in He.
    destruct He as (n & _ & _ & ->). reflexivity.
Qed.

Context `{!JsArithLaws num}.

Lemma internalLines_nearest (i j : nat) :
  In (i, j) (LayerNodes.internalLines particles true) ->
  (i < j)%nat
  /\ exists p1 p2 chosen n,
      nth_error particles i = Some p1
      /\ nth_error particles j = Some p2
      /\ kNearest (LayerNodes.dist (num := num)) 2
                  (LayerNodes.neighbors particles i p1) chosen
      /\ In n chosen
      /\ LayerNodes.idx n = j
      /\ LayerNodes.dist n = distanceTo p1 p2.
Proof.
  intros He. apply internalLines_spec in He. cbn [fst] in He.
  destruct He as (p1 & Hp1 & He). apply internalFrom_spec in He.
  destruct He as (n & Hn & Hlt & [= ->]). split; [assumption|].
  assert (Hin : In n (LayerNodes.neighbors particles i p1)).
  { apply (Permutation_in _ (sort_perm _ (LayerNodes.dist (num := num)) _)).
    eapply in_firstn. exact Hn. }
  apply neighbors_spec in Hin. destruct Hin as (p2 & Hp2 & _ & Hd).
  exists p1, p2, (slice0 (sort byDist (LayerNodes.neighbors particles i p1)) 2), n.
  repeat split; try assumption.
  apply (sort_kNearest _ (LayerNodes.dist (num := num)) _ 2). lia.
Qed.
End InternalEdges.

(** C9.  In the internal-edge list of a layer (an entry [(i, j)] stands for
    the pushed segment [[particles[i], particles[j]]]): every edge comes
    from its lower end [i < j] and leads to one of the 2 nearest neighbours
    of node [i]; a node emits at most 2 edges; no edge is listed twice, and
    [(i, j)] and [(j, i)] are never both present. *)
Theorem internal_edges
  {num : Type} `{JsArith num} `{JsMath num} `{!JsArithLaws num}
  (particles : list (Vector3 num)) :
  (forall i j,
      In (i, j) (LayerNodes.internalLines particles true) ->
      (i < j)%nat
      /\ exists p1 p2 chosen n,
          nth_error particles i = Some p1
          /\ nth_error particles j = Some p2
          /\ kNearest (LayerNodes.dist (num := num)) 2
                      (LayerNodes.neighbors particles i p1) chosen
          /\ In n chosen
          /\ LayerNodes.idx n = j
          /\ LayerNodes.dist n = distanceTo p1 p2)
  /\ (forall e,
         In e (LayerNodes.internalLines particles true) <->
         exists p1, nth_error particles (fst e) = Some p1
                    /\ In e (LayerNodes.internalFrom particles (fst e) p1))
  /\ (forall i p1, (length (LayerNodes.internalFrom particles i p1) <= 2)%nat)
  /\ NoDup (LayerNodes.internalLines particles true)
  /\ (forall i j,
         In (i, j) (LayerNodes.internalLines particles true) ->
         ~ In (j, i) (LayerNodes.internalLines particles true)).
Proof.
  split; [|split; [|split; [|split]]].
  - intros i j. now apply internalLines_nearest.
  - apply internalLines_spec.
  - apply internalFrom_length.
  - apply internalLines_NoDup.
  - intros i j Hij Hji.
    apply internalLines_nearest in Hij, Hji; try assumption. lia.
Qed.

Lemma internal_edges_witness :
  let particles := [mkVector3 1 0 0; mkVector3 0 0 1; mkVector3 3 0 3]%Q in
  (forall i j,
      In (i, j) (LayerNodes.internalLines particles true) ->
      (i < j)%nat
      /\ exists p1 p2 chosen n,
          nth_error particles i = Some p1
          /\ nth_error particles j = Some p2
          /\ kNearest (LayerNodes.dist (num := Q)) 2
                      (LayerNodes.neighbors particles i p1) chosen
          /\ In n chosen
          /\ LayerNodes.idx n = j
          /\ LayerNodes.dist n = distanceTo p1 p2)
  /\ (forall e,
         In e (LayerNodes.internalLines particles true) <->
         exists p1, nth_error particles (fst e) = Some p1
                    /\ In e (LayerNodes.internalFrom particles (fst e) p1))
  /\ (forall i p1, (length (LayerNodes.internalFrom particles i p1) <= 2)%nat)
  /\ NoDup (LayerNodes.internalLines particles true)
  /\ (forall i j,
         In (i, j) (LayerNodes.internalLines particles true) ->
         ~ In (j, i) (LayerNodes.internalLines particles true)).
Proof.
  intros particles. exact (internal_edges (num := Q) particles).
Defined.

(* ------------------------------------------------------------------ *)
(** ** The random-subset edges of InterLayerLines.jsx *)

Lemma store_length {A : Type} (arr : list A) (i : nat) (v : A) :
  length (store arr i v) = length arr.
Proof.
  revert i. induction arr as [|a arr IH]; intros [|i]; cbn; auto.
Qed.

Lemma store_perm_cons {A : Type} (arr : list A) (k : nat) (x a : A) :
  nth_error arr k = Some x -> Permutation (x :: store arr k a) (a :: arr).
Proof.
  revert k. induction arr as [|b arr IH]; intros [|k]; cbn; try discriminate.
  - intros [= ->]. apply perm_swap.
  - intros E. rewrite perm_swap. rewrite (perm_swap b a). constructor. now apply IH.
Qed.

Lemma store_swap_perm {A : Type} (arr : list A) (i j : nat) (ai aj : A) :
  nth_error arr i = Some ai -> nth_error arr j = Some aj ->
  Permutation (store (store arr i aj) j ai) arr.
Proof.
  revert i j. induction arr as [|a arr IH]; intros [|i] [|j]; cbn; try discriminate.
  - intros [= ->] [= ->]. reflexivity.
  - intros [= ->] Ej. now apply store_perm_cons.
  - intros Ei [= ->]. now apply store_perm_cons.
  - intros Ei Ej. constructor. now apply IH.
Qed.

Section ShuffleFacts.
Context {num : Type} `{JsArith num}.

Lemma swap_perm (arr : list nat) (i : nat) (j : Z) :
  Permutation (InterLayerLines.swap arr i j) arr.
Proof.
  unfold InterLayerLines.swap, index.
  destruct (nth_error arr i) as [ai|] eqn:Ei; [|reflexivity].
  destruct (j <? 0)%Z; [reflexivity|].
  destruct (nth_error arr (Z.to_nat j)) as [aj|] eqn:Ej; [|reflexivity].
  now apply store_swap_perm.
Qed.

(** A shuffle permutes the indices, and takes one number of the stream for
    each position from [i] down to 1. *)
Lemma shuffle_perm (i : nat) (indices : list nat) (state : N) :
  Permutation (fst (InterLayerLines.shuffle i indices state)) indices.
Proof.
  revert indices state. induction i as [|i IH]; intros indices state; cbn.
  - reflexivity.
  - rewrite IH. apply swap_perm.
Qed.

Lemma shuffle_state (i : nat) (indices : list nat) (state : N) :
  snd (InterLayerLines.shuffle i indices state) = Nat.iter i nextState state.
Proof.
  revert indices state. induction i as [|i IH]; intros indices state.
  - reflexivity.
  - cbn [InterLayerLines.shuffle rng]. rewrite IH. symmetry. apply Nat.iter_succ_r.
Qed.

Context `{!JsArithLaws num}.

(** The index [j] drawn at position [i] lies in [[0, i]], so both reads of
    the swap are inside the array. *)
Lemma shuffle_index_range (i : nat) (state : N) :
  (0 <= Math_floor (mul (fst (rng state)) (ofNat (i + 1))) <= Z.of_nat i)%Z.
Proof.
  pose proof (floor_rng_range state (i + 1) ltac:(lia)). lia.
Qed.
End ShuffleFacts.

Section ConnectFacts.
Context {num : Type} `{JsArith num}.
Variables startY endY : N.
Variables startNodes endNodes : list (Vector3 num).

Local Abbreviation connect := (InterLayerLines.connect startY endY startNodes endNodes).

Lemma connect_spec (startIndices endIndices : list nat) (n i : nat) (state : N)
      (pairs out : list InterLayerLines.Pair) :
  connect n i startIndices endIndices state pairs = Returns out ->
  exists l,
    out = pairs ++ l /\ length l = n
    /\ forall k pair, nth_error l k = Some pair ->
                      pairAt startY endY startNodes endNodes startIndices endIndices state (i + k) k pair.
Proof.
  revert i state pairs. induction n as [|n IH]; intros i state pairs; cbn.
  - intros [= <-]. exists []. rewrite app_nil_r. repeat split.
    intros [|k] pair; discriminate.
  - destruct (nth_error startIndices i) as [si|] eqn:Esi; [|discriminate].
    destruct (nth_error endIndices i) as [ei|] eqn:Eei; cbn;
      [|destruct (nth_error startNodes si); discriminate].
    destruct (nth_error startNodes si) as [startNode|] eqn:Es; [|discriminate].
    destruct (nth_error endNodes ei) as [endNode|] eqn:Ee; [|discriminate].
    intros E. apply IH in E. destruct E as (l & -> & Hlen & Hl).
    eexists (_ :: l). rewrite <- app_assoc. repeat split; [cbn; lia|].
    intros [|k] pair; cbn.
    + intros [= <-]. rewrite Nat.add_0_r.
      exists si, ei, startNode, endNode. repeat split; assumption.
    + intros Ek. apply Hl in Ek. rewrite Nat.add_succ_r.
      destruct Ek as (si' & ei' & s' & e' & ? & ? & ? & ? & ? & ? & Ho).
      exists si', ei', s', e'. repeat split; try assumption.
      rewrite Ho. rewrite Nat.iter_succ_r. reflexivity.
Qed.

Lemma connect_returns (startIndices endIndices : list nat) (n i : nat) (state : N)
      (pairs : list InterLayerLines.Pair) :
  Permutation startIndices (seq 0 (length startNodes)) ->
  Permutation endIndices (seq 0 (length endNodes)) ->
  (i + n <= Nat.min (length startNodes) (length endNodes))%nat ->
  exists out, connect n i startIndices endIndices state pairs = Returns out.
Proof.
  intros Hs He. revert i state pairs.
  assert (L : forall (nodes : list (Vector3 num)) indices k,
             Permutation indices (seq 0 (length nodes)) ->
             (k < length nodes)%nat ->
             exists idx node, nth_error indices k = Some idx
                              /\ nth_error nodes idx = Some node).
  { intros nodes indices k Hp Hk.
    destruct (nth_error indices k) as [idx|] eqn:E.
    - assert (Hin : In idx (seq 0 (length nodes)))
        by (eapply Permutation_in; [exact Hp | eapply nth_error_In; exact E]).
      apply in_seq in Hin.
      destruct (nth_error nodes idx) as [node|] eqn:E'; [eauto|].
      apply nth_error_None in E'. lia.
    - apply nth_error_None in E. apply Permutation_length in Hp.
      rewrite length_seq in Hp. lia. }
  induction n as [|n IH]; intros i state pairs Hn; cbn.
  - eauto.
  - destruct (L startNodes startIndices i Hs ltac:(lia)) as (si & s & -> & Es).
    destruct (L endNodes endIndices i He ltac:(lia)) as (ei & e & -> & Ee).
    cbn. rewrite Es, Ee. apply IH. lia.
Qed.
End ConnectFacts.

(** On rationals the generator yields numbers of [[0, 1)]. *)
Lemma rng_unit (state : N) : (0 <= fst (rng (num := Q) state) < 1)%Q.
Proof.
  pose proof (nextState_bound state) as Hs.
  unfold rng, ofN, ofZ; cbn [fst].
  change (lit (inject_Z (Z.of_N (nextState state))) / lit (inject_Z (Z.of_N 233280)))%js
    with (inject_Z (Z.of_N (nextState state)) / inject_Z 233280)%Q.
  assert (0 <= inject_Z (Z.of_N (nextState state)))%Q
    by (rewrite <- (Zle_Qle 0); lia).
  assert (inject_Z (Z.of_N (nextState state)) < inject_Z 233280)%Q
    by (rewrite <- Zlt_Qlt; lia).
  change (inject_Z 233280) with (233280 # 1)%Q in *.
  q_inv. Lqa.lra.
Qed.

(** What the edge builder does with two generated layers. *)
Lemma connectLayers_spec
  (startY endY : N) (numLines : nat) (startNodes endNodes : list (Vector3 Q)) :
  let seed := (startY * 1000 + endY)%N in
  let shuffledStart :=
    InterLayerLines.shuffle (num := Q) (length startNodes - 1)
                            (seq 0 (length startNodes)) (seededRandom seed) in
  let shuffledEnd :=
    InterLayerLines.shuffle (num := Q) (length endNodes - 1)
                            (seq 0 (length endNodes)) (snd shuffledStart) in
  Permutation (fst shuffledStart) (seq 0 (length startNodes))
  /\ Permutation (fst shuffledEnd) (seq 0 (length endNodes))
  /\ snd shuffledEnd
     = Nat.iter (length startNodes - 1 + (length endNodes - 1)) nextState seed
  /\ exists pairs,
      InterLayerLines.connectLayers startY endY numLines startNodes endNodes
      = Returns pairs
      /\ length pairs
         = Nat.min numLines (Nat.min (length startNodes) (length endNodes))
      /\ forall k pair,
          nth_error pairs k = Some pair ->
          pairAt startY endY startNodes endNodes
                 (fst shuffledStart) (fst shuffledEnd) (snd shuffledEnd) k k pair
          /\ (0 <= InterLayerLines.offset pair < 0.6)%Q.
Proof.
  intros seed shuffledStart shuffledEnd.
  assert (St : snd shuffledEnd
               = Nat.iter (length startNodes - 1 + (length endNodes - 1)) nextState seed).
  { unfold shuffledEnd, shuffledStart. rewrite !shuffle_state.
    rewrite Nat.add_comm, Nat.iter_add. reflexivity. }
  assert (Ps : Permutation (fst shuffledStart) (seq 0 (length startNodes)))
    by apply shuffle_perm.
  assert (Pe : Permutation (fst shuffledEnd) (seq 0 (length endNodes)))
    by apply shuffle_perm.
  split; [exact Ps|]. split; [exact Pe|]. split; [exact St|]. clear St.
  - unfold InterLayerLines.connectLayers. rewrite !length_seq.
    fold seed. subst shuffledEnd shuffledStart.
    destruct (InterLayerLines.shuffle (length startNodes - 1) _ _)
      as [startIndices state1].
    cbn [fst snd] in *.
    destruct (InterLayerLines.shuffle (length endNodes - 1) _ _)
      as [endIndices state2].
    cbn [fst snd] in *.
    destruct (connect_returns startY endY startNodes endNodes startIndices endIndices
                (Nat.min numLines (Nat.min (length startNodes) (length endNodes)))
                0 state2 [] Ps Pe ltac:(lia)) as [pairs E].
    exists pairs. split; [exact E|].
    apply connect_spec in E. destruct E as (l & -> & Hlen & Hl).
    split; [exact Hlen|]. intros k pair Hk. cbn [app] in Hk.
    specialize (Hl k pair Hk). cbn [Nat.add] in Hl. split; [exact Hl|].
    destruct Hl as (? & ? & ? & ? & _ & _ & _ & _ & _ & _ & ->).
    pose proof (rng_unit (Nat.iter k nextState state2)) as Hu.
    change (mul ?a (lit 0.6)) with (a * 0.6)%Q. Lqa.lra.
Qed.

(* ------------------------------------------------------------------ *)
(** ** Where the sampler puts its points *)

Section SamplerGeometry.
Context {num : Type} `{JsArith num} `{JsMath num}.
Variable count : nat.
Variable radius : num.

(** The seed points lie at 40% of the radius, a fifth of a turn apart. *)
Lemma seedPoints_nth (seed : N) (i : nat) (p : Vector3 num) :
  nth_error (seedPoints radius seed) i = Some p ->
  (i < 5)%nat
  /\ px p = mul (mul radius (lit 0.4)) (Math_cos (seedAngle i))
  /\ pz p = mul (mul radius (lit 0.4)) (Math_sin (seedAngle i)).
Proof.
  unfold seedPoints. cbn.
  do 5 (destruct i as [|i]; [intros [= <-]; repeat split; lia|]).
  destruct i; discriminate.
Qed.

(** What [isValid] checks. *)
Lemma isValid_true (x z : num) (points : list (Vector3 num)) :
  LayerNodes.isValid count radius x z points = true ->
  ltb radius (Math_sqrt (add (mul x x) (mul z z))) = false
  /\ ltb (Math_sqrt (add (mul x x) (mul z z))) (mul radius (lit 0.15)) = false
  /\ forall q, In q points ->
               ltb (Math_sqrt (add (mul (sub x (px q)) (sub x (px q)))
                                   (mul (sub z (pz q)) (sub z (pz q)))))
                   (LayerNodes.minDist count radius) = false.
Proof.
  unfold LayerNodes.isValid. intros E.
  destruct (ltb radius _) eqn:E1; [discriminate|].
  destruct (ltb _ (mul radius _)) eqn:E2; [discriminate|].
  cbn in E. rewrite forallb_forall in E.
  repeat split. intros q Hq. specialize (E q Hq).
  now apply negb_true_iff in E.
Qed.

(** Every accepted point passed [isValid] against all the points before it. *)
Lemma accepted_valid (temp l : list (Vector3 num)) :
  Accepted count radius temp l ->
  forall j p,
    nth_error (temp ++ l) j = Some p ->
    (length temp <= j)%nat ->
    LayerNodes.isValid count radius (px p) (pz p) (firstn j (temp ++ l)) = true.
Proof.
  induction 1 as [temp | temp p0 l Hvalid Hacc IH]; intros j p Hj Hlen.
  - rewrite app_nil_r in Hj.
    assert (nth_error temp j <> None) as Hn by congruence.
    apply nth_error_Some in Hn. lia.
  - destruct (Nat.eq_dec j (length temp)) as [-> | Hne].
    + rewrite nth_error_app2, Nat.sub_diag in Hj by lia. cbn in Hj.
      injection Hj as <-.
      rewrite firstn_app, Nat.sub_diag, firstn_all. cbn. now rewrite app_nil_r.
    + replace (temp ++ p0 :: l) with ((temp ++ [p0]) ++ l) in *
        by now rewrite <- app_assoc.
      apply IH; [assumption|]. rewrite length_app. cbn. lia.
Qed.
End SamplerGeometry.

(* ------------------------------------------------------------------ *)
(** ** The geometry of the sampler on real numbers *)

Section RealGeometry.
Local Open Scope R_scope.

(** The cosine of a tenth of a turn solves [4 c^2 - 2 c - 1 = 0]. *)
Lemma cos_PI5_quadratic : 4 * cos (PI / 5) * cos (PI / 5) - 2 * cos (PI / 5) - 1 = 0.
Proof.
  pose proof PI_RGT_0 as Hpi.
  assert (Hs : 0 < sin (PI / 5)) by (apply sin_gt_0; Lra.lra).
  assert (E : sin (2 * (PI / 5)) = sin (2 * (PI / 5) + PI / 5)).
  { rewrite <- (sin_PI_x (2 * (PI / 5) + PI / 5)). f_equal. field. }
  rewrite sin_plus, sin_2a, cos_2a_cos in E.
  set (c := cos (PI / 5)) in *. set (s := sin (PI / 5)) in *.
  assert (E' : s * (4 * c * c - 2 * c - 1) = 0) by Lra.lra.
  apply Rmult_integral in E'. destruct E' as [E' | E']; Lra.lra.
Qed.

Lemma cos_PI5_bounds : 0.8 < cos (PI / 5) < 0.81.
Proof.
  pose proof PI_RGT_0 as Hpi.
  pose proof cos_PI5_quadratic as Q.
  assert (Hc : 0 < cos (PI / 5)) by (apply cos_gt_0; Lra.lra).
  set (c := cos (PI / 5)) in *. split; Lra.nra.
Qed.

Lemma cos_2PI5 : cos (2 * (PI / 5)) = cos (PI / 5) - 1 / 2.
Proof. rewrite cos_2a_cos. pose proof cos_PI5_quadratic. Lra.lra. Qed.

Lemma cos_4PI5 : cos (4 * (PI / 5)) = - cos (PI / 5).
Proof. rewrite <- Rtrigo_facts.cos_pi_minus. f_equal. field. Qed.

Lemma cos_6PI5 : cos (6 * (PI / 5)) = - cos (PI / 5).
Proof. rewrite <- neg_cos. f_equal. field. Qed.

Lemma cos_8PI5 : cos (8 * (PI / 5)) = cos (PI / 5) - 1 / 2.
Proof.
  rewrite <- cos_2PI5. rewrite <- (cos_neg (8 * (PI / 5))).
  rewrite <- (cos_period (- (8 * (PI / 5))) 1). f_equal. simpl. field.
Qed.

(** The angle of a seed point, in radians. *)
Lemma seedAngle_R (i : nat) : seedAngle (num := R) i = INR i * (2 * (PI / 5)).
Proof.
  unfold seedAngle, ofNat, ofZ, LayerNodes.numSeeds.
  change (Q2R (inject_Z (Z.of_nat i)) / Q2R (inject_Z (Z.of_nat 5)) * PI
          * Q2R 2 = INR i * (2 * (PI / 5))).
  rewrite !Q2R_inject_Z, <- INR_IZR_INZ. change (Q2R 2) with (Q2R (inject_Z 2)).
  rewrite Q2R_inject_Z. cbn. field.
Qed.

(** Two different seed points are at least a fifth of a turn apart. *)
Lemma seedAngle_apart (i j : nat) :
  (i < 5)%nat -> (j < 5)%nat -> i <> j ->
  cos (seedAngle (num := R) i - seedAngle j) < 0.31.
Proof.
  intros Hi Hj Hij. rewrite !seedAngle_R.
  pose proof cos_PI5_bounds as B.
  assert (K : forall x, cos x < 0.31 -> cos (- x) < 0.31)
    by (intros x; now rewrite cos_neg).
  assert (C2 : cos (2 * (PI / 5)) < 0.31) by (rewrite cos_2PI5; Lra.lra).
  assert (C4 : cos (4 * (PI / 5)) < 0.31) by (rewrite cos_4PI5; Lra.lra).
  assert (C6 : cos (6 * (PI / 5)) < 0.31) by (rewrite cos_6PI5; Lra.lra).
  assert (C8 : cos (8 * (PI / 5)) < 0.31) by (rewrite cos_8PI5; Lra.lra).
  assert (Hi' : (i = 0 \/ i = 1 \/ i = 2 \/ i = 3 \/ i = 4)%nat) by lia.
  assert (Hj' : (j = 0 \/ j = 1 \/ j = 2 \/ j = 3 \/ j = 4)%nat) by lia.
  destruct Hi' as [-> | [-> | [-> | [-> | ->]]]];
    destruct Hj' as [-> | [-> | [-> | [-> | ->]]]];
    try congruence; cbn [INR];
    match goal with
    | |- cos ?a < _ =>
        first [ replace a with (2 * (PI / 5)) by field; exact C2
              | replace a with (4 * (PI / 5)) by field; exact C4
              | replace a with (6 * (PI / 5)) by field; exact C6
              | replace a with (8 * (PI / 5)) by field; exact C8
              | replace a with (- (2 * (PI / 5))) by field; exact (K _ C2)
              | replace a with (- (4 * (PI / 5))) by field; exact (K _ C4)
              | replace a with (- (6 * (PI / 5))) by field; exact (K _ C6)
              | replace a with (- (8 * (PI / 5))) by field; exact (K _ C8) ]
    end.
Qed.
(** The operations of the real model, as operations on [R]. *)
Ltac r_unfold :=
  cbv beta iota zeta delta
      [ltb lit add sub mul div geb Math_min Math_max R_arith R_math
       Math_sqrt Math_cos Math_sin Math_PI
       distFromCenter planarDistance LayerNodes.minDist ofNat ofZ] in *;
  rewrite ?Q2R_inject_Z in *.

Lemma planarDistance_sym (p q : Vector3 R) : planarDistance p q = planarDistance q p.
Proof. unfold planarDistance. r_unfold. f_equal. ring. Qed.

Section Seeds.
Variable count : nat.
Variable radius : R.
Variable seed : N.

(** A seed point lies at 40% of the radius from the centre. *)
Lemma seed_distFromCenter (i : nat) (p : Vector3 R) :
  nth_error (seedPoints radius seed) i = Some p ->
  0 <= radius -> distFromCenter p = radius * 0.4.
Proof.
  intros Hp Hr. apply seedPoints_nth in Hp. destruct Hp as (_ & Hx & Hz).
  unfold distFromCenter. rewrite Hx, Hz. r_unfold.
  set (a := radius * 0.4). set (t := seedAngle i).
  replace (a * cos t * (a * cos t) + a * sin t * (a * sin t))
    with (a * a * ((sin t)² + (cos t)²)) by (unfold Rsqr; ring).
  rewrite sin2_cos2, Rmult_1_r. apply sqrt_square. unfold a. Lra.lra.
Qed.

(** The square of the distance between two seed points. *)
Lemma seed_pair_square (i j : nat) (p q : Vector3 R) :
  nth_error (seedPoints radius seed) i = Some p ->
  nth_error (seedPoints radius seed) j = Some q ->
  (px p - px q) * (px p - px q) + (pz p - pz q) * (pz p - pz q)
  = radius * 0.4 * (radius * 0.4) * (2 - 2 * cos (seedAngle i - seedAngle j)).
Proof.
  intros Hp Hq. apply seedPoints_nth in Hp, Hq.
  destruct Hp as (_ & -> & ->). destruct Hq as (_ & -> & ->).
  rewrite cos_minus. r_unfold.
  set (a := radius * 0.4). set (t := seedAngle i). set (u := seedAngle j).
  pose proof (sin2_cos2 t) as Et. pose proof (sin2_cos2 u) as Eu.
  unfold Rsqr in Et, Eu.
  replace ((a * cos t - a * cos u) * (a * cos t - a * cos u)
           + (a * sin t - a * sin u) * (a * sin t - a * sin u))
    with (a * a * ((sin t * sin t + cos t * cos t) + (sin u * sin u + cos u * cos u)
                   - 2 * (cos t * cos u + sin t * sin u))) by ring.
  rewrite Et, Eu. ring.
Qed.

(** From 15 points on, two seed points are no closer than [minDist]. *)
Lemma seed_pair_minDist (i j : nat) (p q : Vector3 R) :
  nth_error (seedPoints radius seed) i = Some p ->
  nth_error (seedPoints radius seed) j = Some q ->
  i <> j -> (15 <= count)%nat ->
  LayerNodes.minDist count radius <= planarDistance p q.
Proof.
  intros Hp Hq Hij Hcount.
  pose proof (seed_pair_square i j p q Hp Hq) as D.
  assert (Hi : (i < 5)%nat) by (apply seedPoints_nth in Hp; tauto).
  assert (Hj : (j < 5)%nat) by (apply seedPoints_nth in Hq; tauto).
  pose proof (seedAngle_apart i j Hi Hj Hij) as A.
  unfold planarDistance. r_unfold. rewrite D. clear D.
  set (n := IZR (Z.of_nat count)).
  assert (Hn : 15 <= n) by (unfold n; apply IZR_le; lia).
  assert (Hs : sqrt n * sqrt n = n) by (apply sqrt_sqrt; Lra.lra).
  assert (Hs0 : 0 < sqrt n) by (apply sqrt_lt_R0; Lra.lra).
  set (s := sqrt n) in *. set (m := radius / s * 1.8).
  assert (Hm : m * s = radius * 1.8) by (unfold m; field; Lra.lra).
  set (c := cos _) in *.
  destruct (Rle_lt_dec 0 radius) as [Hr | Hr].
  - assert (Hm0 : 0 <= m).
    { unfold m. apply Rmult_le_pos; [|Lra.lra]. apply Rmult_le_pos; [assumption|].
      left. now apply Rinv_0_lt_compat. }
    rewrite <- (sqrt_square m Hm0). apply sqrt_le_1_alt.
    assert (E : m * m * n = 3.24 * (radius * radius)).
    { rewrite <- Hs. transitivity ((m * s) * (m * s)); [ring|]. rewrite Hm.
      Lra.nra. }
    assert (0 <= m * m) by Lra.nra. assert (0 <= radius * radius) by Lra.nra.
    Lra.nra.
  - apply Rle_trans with 0; [|apply sqrt_pos].
    assert (m * s < 0) by (rewrite Hm; Lra.lra). Lra.nra.
Qed.
End Seeds.

(** An accepted point is inside the annulus and no closer than [minDist] to
    any point returned before it. *)
Lemma accepted_point (count : nat) (radius : R) (temp l : list (Vector3 R))
      (j : nat) (q : Vector3 R) :
  Accepted count radius temp l ->
  nth_error (temp ++ l) j = Some q ->
  (length temp <= j)%nat ->
  radius * 0.15 <= distFromCenter q <= radius
  /\ forall i p, nth_error (temp ++ l) i = Some p -> (i < j)%nat ->
                 LayerNodes.minDist count radius <= planarDistance q p.
Proof.
  intros Hacc Hq Hj.
  pose proof (accepted_valid count radius temp l Hacc j q Hq Hj) as V.
  apply isValid_true in V. destruct V as (V1 & V2 & V3).
  apply Rltb_ge in V1, V2. split; [split; assumption|].
  intros i p Hp Hij. apply Rltb_ge. apply (V3 p).
  apply nth_error_In with i. rewrite nth_error_firstn.
  destruct (Nat.ltb_spec i j); [assumption | lia].
Qed.

(** C4, as the code has it.  Distances are those of the layer's plane
    [(x, z)], which is what the sampler checks.  For every count, radius
    and seed the sampler (either copy) returns points such that: every point
    but the five seeds is between [0.15 * radius] and [radius] from the
    centre, and so are the seeds when [radius >= 0] (they lie at
    [0.4 * radius]); any two different points of which one is not a seed are
    at least [minDist = radius / sqrt(count) * 1.8] apart, and so are two
    seeds when [count >= 15]. *)
Theorem sampler_geometry (count : nat) (radius : R) (seed : N) :
  exists nodes,
    LayerNodes.particles count radius seed = Returns nodes
    /\ InterLayerLines.generateNodePositions count radius seed = Returns nodes
    /\ (forall i p,
           nth_error nodes i = Some p ->
           (5 <= i)%nat \/ 0 <= radius ->
           radius * 0.15 <= distFromCenter p <= radius)
    /\ (forall i j p q,
           nth_error nodes i = Some p ->
           nth_error nodes j = Some q ->
           i <> j ->
           (5 <= i)%nat \/ (5 <= j)%nat \/ (15 <= count)%nat ->
           LayerNodes.minDist count radius <= planarDistance p q).
Proof.
  destruct (particles_returns count radius seed) as (l & E & Hacc & _).
  pose proof (seedPoints_length radius seed) as L5.
  exists (seedPoints radius seed ++ l).
  rewrite generateNodePositions_particles.
  split; [exact E|]. split; [exact E|]. split.
  - intros i p Hp Hi.
    destruct (Nat.le_gt_cases 5 i) as [H5 | H5].
    + apply (accepted_point count radius _ l i p Hacc Hp). lia.
    + destruct Hi as [Hi | Hr]; [lia|].
      rewrite nth_error_app1 in Hp by lia.
      rewrite (seed_distFromCenter radius seed i p Hp Hr). Lra.lra.
  - assert (G : forall i j p q,
               nth_error (seedPoints radius seed ++ l) i = Some p ->
               nth_error (seedPoints radius seed ++ l) j = Some q ->
               (i < j)%nat ->
               (5 <= j)%nat \/ (15 <= count)%nat ->
               LayerNodes.minDist count radius <= planarDistance q p).
    { intros i j p q Hp Hq Hij Hc.
      destruct (Nat.le_gt_cases 5 j) as [H5 | H5].
      - assert (Hj : (length (seedPoints radius seed) <= j)%nat) by lia.
        exact (proj2 (accepted_point count radius _ l j q Hacc Hq Hj) i p Hp Hij).
      - destruct Hc as [Hc | Hc]; [lia|].
        rewrite nth_error_app1 in Hp, Hq by lia.
        apply (seed_pair_minDist count radius seed j i q p Hq Hp); lia. }
    intros i j p q Hp Hq Hij Hc.
    destruct (Nat.lt_total i j) as [Hlt | [Heq | Hgt]]; [|contradiction|].
    + rewrite planarDistance_sym. apply (G i j p q Hp Hq Hlt). lia.
    + apply (G j i q p Hq Hp Hgt). lia.
Qed.

(** C4 fails as stated: asked for 9 points on a layer of radius 1, the
    sampler returns two points (its first two seeds) closer to one another
    than [minDist = 0.6]. *)
Lemma seeds_closer_than_minDist :
  exists nodes p q,
    LayerNodes.particles 9 1 0 = Returns nodes
    /\ nth_error nodes 0 = Some p
    /\ nth_error nodes 1 = Some q
    /\ LayerNodes.minDist 9 1 = 0.6
    /\ planarDistance p q < LayerNodes.minDist 9 1.
Proof.
  destruct (particles_returns 9 1 0) as (l & E & _).
  pose proof (seedPoints_length 1 0) as L5.
  destruct (nth_error (seedPoints 1 0) 0) as [p|] eqn:Hp;
    [|apply nth_error_None in Hp; lia].
  destruct (nth_error (seedPoints 1 0) 1) as [q|] eqn:Hq;
    [|apply nth_error_None in Hq; lia].
  exists (seedPoints 1 0 ++ l), p, q.
  rewrite !nth_error_app1 by lia.
  assert (M : LayerNodes.minDist 9 1 = 0.6).
  { r_unfold. replace (IZR (Z.of_nat 9)) with (3 * 3) by (cbn; Lra.lra).
    rewrite sqrt_square by Lra.lra. Lra.lra. }
  repeat split; try assumption. rewrite M.
  pose proof (seed_pair_square 1 0 0 1 p q Hp Hq) as D.
  unfold planarDistance. r_unfold. rewrite D, !seedAngle_R. cbn [INR].
  replace (0 * (2 * (PI / 5)) - 1 * (2 * (PI / 5))) with (- (2 * (PI / 5))) by ring.
  rewrite cos_neg, cos_2PI5.
  pose proof cos_PI5_bounds as B.
  apply Rlt_le_trans with (sqrt (0.6 * 0.6)).
  - apply sqrt_lt_1_alt. Lra.nra.
  - rewrite sqrt_square; Lra.lra.
Qed.

End RealGeometry.

(* ------------------------------------------------------------------ *)
(** ** The page as a whole, on exact rationals *)

Ltac page_unfold :=
  cbv beta iota zeta delta
      [after run mounted inRange appInRange inUnit
       App.initialState App.checkMobile App.handleDragProgress
       App.handleScrollProgress App.animate App.wheelPhase App.onWheel
       App.blackoutEffect App.finalOverlayEffect App.animateBlackout
       App.animateOverlay App.handleFinalOverlayTouchStart
       App.handleFinalOverlayTouchMove App.handleFinalOverlayTouchEnd
       App.logoClick App.blackoutTarget App.handleWheel
       App.BLACKOUT_START App.BLACKOUT_END App.MAX_SCROLL_PROGRESS
       App.setScrollProgress App.setTargetProgress App.setAnimationPhase
       App.setBlackoutProgress App.setFinalOverlayProgress App.setIsMobile
       App.setIsDragging App.setIsOnFinalPage App.setFinalOverlayTouchStart
       App.setFinalOverlayTouchEnd App.setBlackoutTargetRef
       App.setFinalOverlayTargetRef
       App.scrollProgress App.targetProgress App.animationPhase
       App.blackoutProgress App.finalOverlayProgress App.isMobile
       App.isDragging App.isOnFinalPage App.finalOverlayTouchStart
       App.finalOverlayTouchEnd App.blackoutTargetRef App.finalOverlayTargetRef
       App.blackoutOpacity App.finalOverlayOpacity App.finalOverlayPointerEvents
       ContentPane.initialState ContentPane.setActiveCardIndex
       ContentPane.setTouchStart ContentPane.setTouchCurrent
       ContentPane.activeCardIndex ContentPane.touchStart ContentPane.touchCurrent
       ContentPane.syncActiveCard ContentPane.handleTouchStart
       ContentPane.handleTouchMove ContentPane.handleTouchEnd
       ContentPane.newProgress ContentPane.snapPoints ContentPane.phaseToIndex
       ContentPane.dragOffset ContentPane.sectionStyle ContentPane.progressFill
       ContentPane.opacity ContentPane.pointerEvents ContentPane.transform
       leqb geb Math_abs truthy orElse nullish Math_min Math_max
       ltb lit add sub mul div Q_arith ofZ fst snd] in *.

Ltac split_all :=
  repeat match goal with
  | |- _ /\ _ => split
  | H : _ /\ _ |- _ => destruct H
  end.

(** Case analysis on the conditions that are not comparisons of numbers. *)
Ltac bool_cases :=
  repeat match goal with
  | |- context [if ?b then _ else _] =>
      lazymatch b with
      | context [Qltb] => fail
      | _ => destruct b eqn:?
      end
  | |- context [match ?b with _ => _ end] => is_var b; destruct b
  end.

(** Comparisons of constants are evaluated. *)
Ltac q_eval :=
  repeat match goal with
  | |- context [Qltb ?a ?b] =>
      let v := eval vm_compute in (Qltb a b) in
      lazymatch v with
      | true => change (Qltb a b) with true
      | false => change (Qltb a b) with false
      end
  end.

(** [Qmin] and [Qmax] are replaced by their case analyses. *)
Ltac q_minmax :=
  repeat match goal with
  | |- context [Qmin ?a ?b] =>
      let m := fresh "m" in
      let Hm := fresh "Hm" in
      destruct (Q.min_spec a b) as [[? Hm] | [? Hm]];
      revert Hm; generalize (Qmin a b); intros m Hm
  | |- context [Qmax ?a ?b] =>
      let m := fresh "m" in
      let Hm := fresh "Hm" in
      destruct (Q.max_spec a b) as [[? Hm] | [? Hm]];
      revert Hm; generalize (Qmax a b); intros m Hm
  end.

Ltac page_solve :=
  page_unfold; q_inv; q_eval; repeat (progress (bool_cases; q_cases));
  cbn [negb andb orb] in *;
  split_all; try discriminate; try Lqa.lra; try lia.

Section PageFacts.
Local Open Scope Q_scope.

Lemma index_cases (i : Z) : (0 <= i <= 3)%Z -> (i = 0 \/ i = 1 \/ i = 2 \/ i = 3)%Z.
Proof. lia. Qed.

Lemma Math_abs_cases (x : Q) :
  (0 <= x /\ Math_abs x = x) \/ (x < 0 /\ Math_abs x = 0 - x).
Proof.
  cbv [Math_abs ltb lit sub Q_arith]. destruct (Qltb x 0) eqn:E.
  - apply Qltb_lt in E. now right.
  - apply Qltb_ge in E. now left.
Qed.

(** *** Dragging *)

(** The three ways [handleTouchMove] looks its bounds up ([||], [??] and
    the two special cases) all give the snap points of the neighbouring
    pages. *)
Lemma newProgress_clamp (i : Z) (final : bool) (start y h : Q) :
  (0 <= i <= 3)%Z ->
  let page := pageOf i final in
  ContentPane.newProgress i final start y h
  == Qmax (snapOf (Nat.pred page))
          (Qmin (snapOf (S page)) (snapOf page + (start - y) / h * 0.4)).
Proof.
  intros Hi page. subst page.
  destruct (index_cases i Hi) as [-> | [-> | [-> | ->]]]; destruct final;
    vm_compute pageOf; cbv [snapOf Nat.pred nth]; page_unfold;
    generalize ((start - y) / h * 0.4); intros d;
    repeat match goal with
    | |- context [index ?l ?k] =>
        let v := eval vm_compute in (index l k) in change (index l k) with v
    end.
  all: q_minmax; page_solve.
Qed.

Lemma snapOf_range (page : nat) : 0 <= snapOf page <= 0.82.
Proof.
  do 5 (destruct page as [|page]; [vm_compute; split; discriminate|]).
  cbv [snapOf ContentPane.snapPoints nth]. destruct page; Lqa.lra.
Qed.

Lemma snapOf_mono (page : nat) : snapOf page <= snapOf (S page).
Proof.
  do 5 (destruct page as [|page]; [vm_compute; discriminate|]).
  cbv [snapOf ContentPane.snapPoints nth]. destruct page; Lqa.lra.
Qed.

Lemma newProgress_range (i : Z) (final : bool) (start y h : Q) :
  (0 <= i <= 3)%Z ->
  0 <= ContentPane.newProgress i final start y h <= 0.82.
Proof.
  intros Hi. rewrite (newProgress_clamp i final start y h Hi).
  cbv zeta.
  pose proof (snapOf_range (Nat.pred (pageOf i final))).
  pose proof (snapOf_range (S (pageOf i final))).
  q_minmax; Lqa.lra.
Qed.

(** *** Every handler keeps the ranges *)

Lemma handleScrollProgress_inRange (scrollPosition : Q) (app : App.State) :
  appInRange app -> appInRange (App.handleScrollProgress scrollPosition app).
Proof. destruct app. intros Hinv. page_solve. Qed.

Lemma setIsOnFinalPage_inRange (v : bool) (app : App.State) :
  appInRange app -> appInRange (App.setIsOnFinalPage v app).
Proof. destruct app. intros Hinv. exact Hinv. Qed.

Lemma setIsDragging_inRange (v : bool) (app : App.State) :
  appInRange app -> appInRange (App.setIsDragging v app).
Proof. destruct app. intros Hinv. exact Hinv. Qed.

Lemma handleTouchEnd_inRange (st : ContentPane.System) :
  inRange st -> inRange (ContentPane.handleTouchEnd st).
Proof.
  destruct st as [app s]. intros [Happ Hs]. cbn [fst snd] in *.
  cbv beta iota zeta delta [ContentPane.handleTouchEnd].
  destruct (negb (App.isMobile app)); [now split|].
  destruct (ContentPane.touchStart s) as [start|];
    [destruct (ContentPane.touchCurrent s) as [current|]|];
    try (split; [now apply setIsDragging_inRange | exact Hs]).
  destruct (_ || _ || _);
    [split; [now apply setIsDragging_inRange | exact Hs]|].
  repeat match goal with
  | |- context [if ?c then _ else _] => destruct c eqn:?
  end;
  (split; [apply setIsDragging_inRange, handleScrollProgress_inRange;
           try apply setIsOnFinalPage_inRange; exact Happ|]);
  repeat match goal with
  | H : _ && _ = true |- _ => apply andb_prop in H; destruct H
  | H : (_ <? _)%Z = true |- _ => apply Z.ltb_lt in H
  end;
  cbv [fst snd ContentPane.activeCardIndex ContentPane.setTouchCurrent
       ContentPane.setTouchStart ContentPane.setActiveCardIndex];
  destruct s; cbn [ContentPane.activeCardIndex] in *; lia.
Qed.

Lemma after_inRange (e : Event) (st : ContentPane.System) :
  positiveHeight e -> inRange st -> inRange (after e st).
Proof.
  destruct st as [app s].
  destruct e; intros Hh Hinv; try (now apply handleTouchEnd_inRange);
    destruct app, s.
  - page_solve.
  - page_solve.
  - page_solve.
  - page_solve.
  - cbv [after App.onWheel]. cbn [App.targetProgress App.isMobile].
    generalize (handleWheel_range targetProgress deltaY).
    generalize (App.handleWheel targetProgress deltaY). intros w Hw.
    page_solve.
  - page_solve.
  - page_solve.
  - page_solve.
  - page_solve.
  - assert (Hi : (0 <= activeCardIndex <= 3)%Z) by (page_unfold; lia).
    cbv [after ContentPane.handleTouchMove].
    cbn [ContentPane.activeCardIndex ContentPane.touchStart App.isOnFinalPage].
    generalize (newProgress_range activeCardIndex isOnFinalPage).
    generalize (ContentPane.newProgress (num := Q) activeCardIndex isOnFinalPage).
    intros f Hf.
    destruct touchStart as [start|]; [pose proof (Hf start clientY innerHeight Hi)|];
    page_solve.
  - page_solve.
  - page_solve.
  - page_solve.
  - page_solve.
Qed.

Lemma mounted_inRange : inRange mounted.
Proof. page_solve. Qed.

Lemma run_app (events1 events2 : list Event) (st : ContentPane.System (num := Q)) :
  run (events1 ++ events2) st = run events2 (run events1 st).
Proof. apply fold_left_app. Qed.

Lemma run_inRange (events : list Event) (st : ContentPane.System) :
  Forall positiveHeight events -> inRange st -> inRange (run events st).
Proof.
  intros Hev. revert st. induction Hev as [|e events He _ IH]; intros st Hst.
  - exact Hst.
  - cbn [run fold_left]. apply IH. now apply after_inRange.
Qed.
End PageFacts.

(* ------------------------------------------------------------------ *)
(** ** The animation loops, dragging and swiping *)

Section Smoothing.
Local Open Scope Q_scope.

Section Approach.
Variables rate target : Q.
Hypothesis rate_pos : 0 < rate.
Hypothesis rate_lt1 : rate < 1.

Lemma approach_target : approach rate target target = target.
Proof.
  unfold approach.
  replace (Qltb (Math_abs (target - target)) 0.001) with true; [reflexivity|].
  symmetry. apply Qltb_lt.
  destruct (Math_abs_cases (target - target)) as [[_ ->] | [_ ->]]; Lqa.lra.
Qed.

Lemma approach_iter_target (m : nat) : Nat.iter m (approach rate target) target = target.
Proof.
  induction m as [|m IH]; [reflexivity|].
  rewrite Nat.iter_succ, IH. apply approach_target.
Qed.

Lemma approach_settles (n : nat) (prev : Q) :
  Math_abs (target - prev) < 0.001 + inject_Z (Z.of_nat n) * (0.001 * rate) ->
  forall m, (n < m)%nat -> Nat.iter m (approach rate target) prev = target.
Proof.
  revert prev. induction n as [|n IH]; intros prev Hd m Hm.
  - destruct m as [|m]; [lia|]. rewrite Nat.iter_succ_r.
    unfold approach at 2.
    replace (Qltb (Math_abs (target - prev)) 0.001) with true.
    + apply approach_iter_target.
    + symmetry. apply Qltb_lt.
      change (inject_Z (Z.of_nat 0)) with 0 in Hd. Lqa.lra.
  - destruct m as [|m]; [lia|]. rewrite Nat.iter_succ_r.
    unfold approach at 2. destruct (Qltb (Math_abs (target - prev)) 0.001) eqn:E.
    + apply approach_iter_target.
    + apply Qltb_ge in E. apply IH; [|lia].
      rewrite Nat2Z.inj_succ, <- Z.add_1_r, inject_Z_plus in Hd.
      change (inject_Z 1) with 1 in Hd.
      destruct (Math_abs_cases (target - prev)) as [[H1 H2] | [H1 H2]];
        destruct (Math_abs_cases (target - (prev + (target - prev) * rate))) as [[H3 H4] | [H3 H4]];
        rewrite H4; rewrite H2 in *; Lqa.nra.
Qed.

Lemma approach_between (prev : Q) : between prev target (approach rate target prev).
Proof.
  unfold approach, between.
  destruct (Qltb _ _); q_minmax; Lqa.nra.
Qed.

(** Every start is within reach. *)
Lemma approach_reaches (prev : Q) :
  exists n, forall m, (n < m)%nat -> Nat.iter m (approach rate target) prev = target.
Proof.
  set (d := Math_abs (target - prev)).
  exists (Z.to_nat (Qceiling (d / (0.001 * rate)))).
  apply approach_settles. fold d.
  assert (Hd : 0 <= d).
  { unfold d. destruct (Math_abs_cases (target - prev)) as [[? ->] | [? ->]]; Lqa.lra. }
  assert (Hr : 0 < 0.001 * rate) by Lqa.lra.
  assert (Hq : 0 <= d / (0.001 * rate)).
  { apply Qle_shift_div_l; [exact Hr | Lqa.lra]. }
  rewrite Z2Nat.id.
  - pose proof (Qle_ceiling (d / (0.001 * rate))) as Hc.
    apply (Qmult_le_compat_r _ _ (0.001 * rate)) in Hc; [|Lqa.lra].
    assert (E : d / (0.001 * rate) * (0.001 * rate) == d) by (field; Lqa.lra).
    rewrite E in Hc. Lqa.lra.
  - assert (H0 : (-1 < Qceiling (d / (0.001 * rate)))%Z); [|lia].
    rewrite Zlt_Qlt. pose proof (Qle_ceiling (d / (0.001 * rate))).
    change (inject_Z (-1)) with (-1). Lqa.lra.
Qed.
End Approach.

Lemma animate_iter (m : nat) (s : App.State) :
  App.isDragging s = false ->
  Nat.iter m App.animate s
  = App.setScrollProgress
      (Nat.iter m (approach (if App.isMobile s then 0.05 else 0.15) (App.targetProgress s))
                (App.scrollProgress s)) s.
Proof.
  intros Hd. induction m as [|m IH].
  - now destruct s.
  - rewrite !Nat.iter_succ, IH. destruct s. cbn in Hd. subst.
    cbv [App.animate App.setScrollProgress App.scrollProgress App.targetProgress
         App.isDragging App.isMobile App.animationPhase App.blackoutProgress
         App.finalOverlayProgress App.isOnFinalPage App.finalOverlayTouchStart
         App.finalOverlayTouchEnd App.blackoutTargetRef App.finalOverlayTargetRef].
    reflexivity.
Qed.

Lemma animateBlackout_iter (m : nat) (s : App.State) :
  Nat.iter m App.animateBlackout s
  = App.setBlackoutProgress
      (Nat.iter m (approach (if App.isMobile s then 0.05 else 0.1) (App.blackoutTargetRef s))
                (App.blackoutProgress s)) s.
Proof.
  induction m as [|m IH].
  - now destruct s.
  - rewrite !Nat.iter_succ, IH. destruct s.
    cbv [App.animateBlackout App.setBlackoutProgress App.scrollProgress App.targetProgress
         App.isDragging App.isMobile App.animationPhase App.blackoutProgress
         App.finalOverlayProgress App.isOnFinalPage App.finalOverlayTouchStart
         App.finalOverlayTouchEnd App.blackoutTargetRef App.finalOverlayTargetRef].
    reflexivity.
Qed.

Lemma animateOverlay_iter (m : nat) (s : App.State) :
  Nat.iter m App.animateOverlay s
  = App.setFinalOverlayProgress
      (Nat.iter m (approach (if App.isMobile s then 0.05 else 0.08)
                            (App.finalOverlayTargetRef s))
                (App.finalOverlayProgress s)) s.
Proof.
  induction m as [|m IH].
  - now destruct s.
  - rewrite !Nat.iter_succ, IH. destruct s.
    cbv [App.animateOverlay App.setFinalOverlayProgress App.scrollProgress App.targetProgress
         App.isDragging App.isMobile App.animationPhase App.blackoutProgress
         App.finalOverlayProgress App.isOnFinalPage App.finalOverlayTouchStart
         App.finalOverlayTouchEnd App.blackoutTargetRef App.finalOverlayTargetRef].
    reflexivity.
Qed.

Lemma animate_dragging (m : nat) (s : App.State (num := Q)) :
  App.isDragging s = true -> Nat.iter m App.animate s = s.
Proof.
  intros Hd. induction m as [|m IH]; [reflexivity|].
  rewrite Nat.iter_succ, IH. destruct s. cbn in Hd. subst. reflexivity.
Qed.

(** X1.  Each of the three animation loops of [MainApp]
    (scroll progress, blackout, final overlay) moves its value toward its
    target without ever passing it, and after finitely many frames the
    value is the target itself and stays there; while a finger drags, the
    scroll loop leaves the progress alone. *)
Theorem smoothing_settles (s : App.State) :
  (App.isDragging s = false ->
   (exists n, forall m, (n < m)%nat ->
      App.scrollProgress (Nat.iter m App.animate s) = App.targetProgress s)
   /\ between (App.scrollProgress s) (App.targetProgress s)
              (App.scrollProgress (App.animate s)))
  /\ (App.isDragging s = true -> forall m, Nat.iter m App.animate s = s)
  /\ (exists n, forall m, (n < m)%nat ->
        App.blackoutProgress (Nat.iter m App.animateBlackout s) = App.blackoutTargetRef s)
  /\ between (App.blackoutProgress s) (App.blackoutTargetRef s)
             (App.blackoutProgress (App.animateBlackout s))
  /\ (exists n, forall m, (n < m)%nat ->
        App.finalOverlayProgress (Nat.iter m App.animateOverlay s)
        = App.finalOverlayTargetRef s)
  /\ between (App.finalOverlayProgress s) (App.finalOverlayTargetRef s)
             (App.finalOverlayProgress (App.animateOverlay s)).
Proof.
  assert (R : forall (b : bool) (x : Q), 0 < x < 1 ->
                0 < (if b then 0.05 else x) /\ (if b then 0.05 else x) < 1).
  { intros [] x Hx; Lqa.lra. }
  split; [intros Hd; split | split; [intros Hd m; now apply animate_dragging | ]].
  - destruct (R (App.isMobile s) 0.15 ltac:(Lqa.lra)) as [R1 R2].
    destruct (approach_reaches _ (App.targetProgress s) R1 R2 (App.scrollProgress s))
      as [n Hn].
    exists n. intros m Hm. rewrite animate_iter by exact Hd.
    destruct s. apply (Hn m Hm).
  - destruct (R (App.isMobile s) 0.15 ltac:(Lqa.lra)) as [R1 R2].
    change (App.animate s) with (Nat.iter 1 App.animate s).
    rewrite animate_iter by exact Hd. destruct s.
    apply approach_between; assumption.
  - destruct (R (App.isMobile s) 0.1 ltac:(Lqa.lra)) as [R1 R2].
    destruct (R (App.isMobile s) 0.08 ltac:(Lqa.lra)) as [R3 R4].
    repeat split.
    + destruct (approach_reaches _ (App.blackoutTargetRef s) R1 R2 (App.blackoutProgress s))
        as [n Hn].
      exists n. intros m Hm. rewrite animateBlackout_iter. destruct s. apply (Hn m Hm).
    + change (App.animateBlackout s) with (Nat.iter 1 App.animateBlackout s).
      rewrite animateBlackout_iter. destruct s. apply approach_between; assumption.
    + change (App.animateBlackout s) with (Nat.iter 1 App.animateBlackout s).
      rewrite animateBlackout_iter. destruct s. apply approach_between; assumption.
    + destruct (approach_reaches _ (App.finalOverlayTargetRef s) R3 R4
                  (App.finalOverlayProgress s)) as [n Hn].
      exists n. intros m Hm. rewrite animateOverlay_iter. destruct s. apply (Hn m Hm).
    + change (App.animateOverlay s) with (Nat.iter 1 App.animateOverlay s).
      rewrite animateOverlay_iter. destruct s. apply approach_between; assumption.
    + change (App.animateOverlay s) with (Nat.iter 1 App.animateOverlay s).
      rewrite animateOverlay_iter. destruct s. apply approach_between; assumption.
Qed.
End Smoothing.

Section PageTheorems.
Local Open Scope Q_scope.

Lemma lineGrowth_inUnit (baseGrowth offset : Q) :
  inUnit (InterLayerLines.lineGrowth baseGrowth offset).
Proof.
  cbv [InterLayerLines.lineGrowth clamp]. generalize ((baseGrowth - offset) / (1 - offset))%js.
  intros x. page_solve.
Qed.

(** X2.  Whatever happens to the page (resizes, frames of the
    animation loops, wheel events, effects, touches on the content pane and
    on the final overlay, clicks on the logo, in any order), the scroll
    progress and its target stay within [[0, 0.82]], the opacities of the
    two overlays within [[0, 1]], the index of the active card within 0..3
    and the fill of the progress indicator within 0..100 percent. *)
Theorem page_ranges (events : list Event) :
  Forall positiveHeight events ->
  let st := run events mounted in
  0 <= App.scrollProgress (fst st) <= 0.82
  /\ 0 <= App.targetProgress (fst st) <= 0.82
  /\ inUnit (App.blackoutOpacity (fst st))
  /\ inUnit (App.finalOverlayOpacity (fst st))
  /\ (0 <= ContentPane.activeCardIndex (snd st) <= 3)%Z
  /\ 0 <= ContentPane.progressFill st <= 100.
Proof.
  intros Hev st.
  pose proof (run_inRange events mounted Hev mounted_inRange) as Hinv.
  fold st in Hinv. destruct st as [app s].
  destruct Hinv as [(H1 & H2 & H3 & H4 & H5 & H6) Hs]. cbn [fst snd] in *.
  repeat split; try apply H1; try apply H2; try apply H4; try apply H6; try apply Hs.
  all: destruct s as [i ? ?], app; cbn [ContentPane.activeCardIndex] in Hs;
    destruct (index_cases i Hs) as [-> | [-> | [-> | ->]]];
    page_solve.
Qed.

Lemma page_ranges_witness :
  let st := run visit mounted in
  0 <= App.scrollProgress (fst st) <= 0.82
  /\ 0 <= App.targetProgress (fst st) <= 0.82
  /\ inUnit (App.blackoutOpacity (fst st))
  /\ inUnit (App.finalOverlayOpacity (fst st))
  /\ (0 <= ContentPane.activeCardIndex (snd st) <= 3)%Z
  /\ 0 <= ContentPane.progressFill st <= 100.
Proof. apply (page_ranges visit). repeat constructor. Defined.



(** X4.  While a finger drags, the progress shown is the
    snap point of the current page plus 0.4 times the travel of the finger
    in window heights, clamped between the snap points of the previous and
    of the next page: the lookups [||] and [??] and the special cases of
    [handleTouchMove] amount to that.  It is the snap point itself when the
    finger has not moved, and it never decreases when the finger moves
    further up. *)
Theorem drag_follows_finger (i : Z) (final : bool) (start y h : Q) :
  (0 <= i <= 3)%Z -> 0 < h ->
  let page := pageOf i final in
  let p := ContentPane.newProgress i final start y h in
  p == Qmax (snapOf (Nat.pred page))
            (Qmin (snapOf (S page)) (snapOf page + (start - y) / h * 0.4))
  /\ snapOf (Nat.pred page) <= p <= snapOf (S page)
  /\ (start == y -> p == snapOf page)
  /\ (forall y', y' <= y -> p <= ContentPane.newProgress i final start y' h).
Proof.
  intros Hi Hh page p.
  pose proof (newProgress_clamp i final start y h Hi) as E. cbv zeta in E.
  fold page in E. fold p in E.
  assert (Hk : 0 < / h) by now apply Qinv_lt_0_compat.
  pose proof (snapOf_mono page) as M1.
  assert (M0 : snapOf (Nat.pred page) <= snapOf page).
  { destruct page; [apply Qle_refl | apply snapOf_mono]. }
  split; [exact E|]. split; [|split].
  - rewrite E. q_minmax; Lqa.lra.
  - intros Hy. rewrite E.
    assert (E0 : (start - y) / h * 0.4 == 0).
    { unfold Qdiv. rewrite Hy. Lqa.lra. }
    revert E0. generalize ((start - y) / h * 0.4). intros d E0.
    q_minmax; Lqa.lra.
  - intros y' Hy. rewrite E.
    rewrite (newProgress_clamp i final start y' h Hi). cbv zeta. fold page.
    assert (Hd : (start - y) / h * 0.4 <= (start - y') / h * 0.4).
    { unfold Qdiv. Lqa.nra. }
    revert Hd. generalize ((start - y) / h * 0.4) ((start - y') / h * 0.4).
    intros d d' Hd. q_minmax; Lqa.lra.
Qed.

Lemma drag_follows_finger_witness :
  let page := pageOf 1 false in
  let p := ContentPane.newProgress 1 false 600 500 800 in
  p == Qmax (snapOf (Nat.pred page))
            (Qmin (snapOf (S page)) (snapOf page + (600 - 500) / 800 * 0.4))
  /\ snapOf (Nat.pred page) <= p <= snapOf (S page)
  /\ (600 == 500 -> p == snapOf page)
  /\ (forall y', y' <= 500 -> p <= ContentPane.newProgress 1 false 600 y' 800).
Proof. apply (drag_follows_finger 1 false 600 500 800); [lia | reflexivity]. Defined.

Lemma truthy_Q (x : Q) : truthy (Some x) = true <-> ~ x == 0.
Proof.
  cbv [truthy ltb lit Q_arith]. split.
  - intros H E. apply orb_prop in H. destruct H as [H | H]; apply Qltb_lt in H; Lqa.lra.
  - intros H. destruct (Qltb x 0) eqn:E1; [reflexivity|]. apply Qltb_ge in E1.
    cbn. apply Qltb_lt. destruct (Qlt_le_dec 0 x); [assumption|].
    exfalso. apply H. Lqa.lra.
Qed.



Lemma handleTouchMove_top_edge (clientY innerHeight : Q) (app : App.State)
      (i : Z) (current : option Q) :
  ContentPane.handleTouchMove clientY innerHeight (app, ContentPane.mkState i (Some 0) current)
  = (app, ContentPane.mkState i (Some 0) current).
Proof.
  cbv [ContentPane.handleTouchMove ContentPane.touchStart].
  destruct (negb (App.isMobile app)); [reflexivity|].
  replace (truthy (Some 0)) with false by reflexivity.
  now rewrite orb_true_r.
Qed.

(** X6.  A touch that starts at the very top of
    the window, at [clientY] 0, is ignored: 0 is falsy, so the moves are
    dropped and lifting the finger only ends the drag; the page, the
    progress and its target are what they were, however far the finger
    went. *)
Theorem touch_from_top_edge_ignored
        (moves : list (Q * Q)) (app : App.State) (s : ContentPane.State) :
  App.isMobile app = true ->
  let st' :=
    run (TouchStart 0 :: map (fun m => TouchMove (fst m) (snd m)) moves ++ [TouchEnd])
        (app, s) in
  ContentPane.activeCardIndex (snd st') = ContentPane.activeCardIndex s
  /\ App.scrollProgress (fst st') = App.scrollProgress app
  /\ App.targetProgress (fst st') = App.targetProgress app
  /\ App.animationPhase (fst st') = App.animationPhase app
  /\ App.isOnFinalPage (fst st') = App.isOnFinalPage app
  /\ App.blackoutTargetRef (fst st') = App.blackoutTargetRef app
  /\ App.isDragging (fst st') = false.
Proof.
  intros Hm st'. subst st'.
  change (TouchStart 0 :: ?l) with ([TouchStart 0] ++ l).
  rewrite !run_app.
  assert (E1 : run [TouchStart 0] (app, s)
               = (App.setIsDragging true app,
                  ContentPane.mkState (ContentPane.activeCardIndex s) (Some 0) (Some 0))).
  { cbn [run fold_left after]. cbv [ContentPane.handleTouchStart]. rewrite Hm.
    now destruct s. }
  rewrite E1.
  assert (E2 : forall st i current,
             run (map (fun m : Q * Q => TouchMove (fst m) (snd m)) moves)
                 (st, ContentPane.mkState i (Some 0) current)
             = (st, ContentPane.mkState i (Some 0) current)).
  { induction moves as [|m moves IH]; intros st i current; [reflexivity|].
    cbn [map run fold_left after]. rewrite handleTouchMove_top_edge. apply IH. }
  rewrite E2. cbn [run fold_left after]. cbv [ContentPane.handleTouchEnd].
  destruct app. cbn in Hm. subst. cbn. repeat split.
Qed.

Lemma touch_from_top_edge_ignored_witness :
  let st' :=
    run (TouchStart 0 :: map (fun m => TouchMove (fst m) (snd m)) [(300, 800)] ++ [TouchEnd])
        (fst phone, snd phone) in
  ContentPane.activeCardIndex (snd st') = ContentPane.activeCardIndex (snd phone)
  /\ App.scrollProgress (fst st') = App.scrollProgress (fst phone)
  /\ App.targetProgress (fst st') = App.targetProgress (fst phone)
  /\ App.animationPhase (fst st') = App.animationPhase (fst phone)
  /\ App.isOnFinalPage (fst st') = App.isOnFinalPage (fst phone)
  /\ App.blackoutTargetRef (fst st') = App.blackoutTargetRef (fst phone)
  /\ App.isDragging (fst st') = false.
Proof.
  apply (touch_from_top_edge_ignored [(300, 800)] (fst phone) (snd phone)).
  reflexivity.
Defined.

(** X7.  Of the four sections the content pane renders, at
    most two are shown (have a positive opacity) at any time, and no
    opacity is negative.  On desktop exactly the section of the current
    phase is shown, at rest on a phone exactly the active card, and on the
    final page none. *)
Theorem sections_shown (h : Q) (st : ContentPane.System) :
  (0 <= ContentPane.activeCardIndex (snd st) <= 3)%Z ->
  let styles := ContentPane.sectionStyles h st in
  length styles = 4%nat
  /\ Forall (fun style => 0 <= ContentPane.opacity style) styles
  /\ (length (filter shown styles) <= 2)%nat
  /\ (App.isMobile (fst st) = false ->
      forall k style, nth_error styles k = Some style ->
        if (Z.of_nat k =? ContentPane.phaseToIndex (App.animationPhase (fst st)))%Z
        then style = activeStyle else hiddenStyle style)
  /\ (App.isMobile (fst st) = true -> App.isOnFinalPage (fst st) = true ->
      Forall hiddenStyle styles)
  /\ (App.isMobile (fst st) = true -> App.isOnFinalPage (fst st) = false ->
      App.isDragging (fst st) = false ->
      forall k style, nth_error styles k = Some style ->
        if (Z.of_nat k =? ContentPane.activeCardIndex (snd st))%Z
        then style = activeStyle else hiddenStyle style).
Proof.
  destruct st as [app s]. destruct app, s as [i touchStart touchCurrent].
  cbn [fst snd ContentPane.activeCardIndex App.isMobile App.isOnFinalPage
       App.isDragging App.animationPhase].
  intros Hi. cbv zeta.
  cbv [ContentPane.sectionStyles ContentPane.sections entries length seq combine map].
  split; [reflexivity|].
  destruct (index_cases i Hi) as [-> | [-> | [-> | ->]]].
  all: cbv [ContentPane.sectionStyle App.isMobile App.isOnFinalPage App.isDragging
         App.animationPhase ContentPane.activeCardIndex indexOf App.Phase_eqb
         hiddenStyle activeStyle shown].
  all: set (d := ContentPane.dragOffset h _); clearbody d.
  all: destruct isMobile, isOnFinalPage, isDragging.
  all: try destruct animationPhase.
  all: cbn [Z.eqb Z.ltb Z.add Z.sub Z.of_nat Z.compare Pos.compare Pos.compare_cont
            Pos.eqb Z.pos_sub Z.opp Z.succ_double Z.pred_double Z.double
            Pos.pred_double Pos.succ Pos.add Pos.of_succ_nat negb].
  all: (split; [repeat constructor; cbn [ContentPane.opacity]; page_solve|]).
  all: (split;
        [cbn [filter ContentPane.opacity]; page_unfold; q_inv; q_eval; q_cases;
         cbn [length]; first [lia | exfalso; Lqa.lra]|]).
  all: (split; [first [discriminate 1
                      | intros _ k style Hk;
                        do 4 (destruct k as [|k];
                              [injection Hk as <-; cbn; try solve [repeat split]|]);
                        try (destruct k; discriminate)]|]).
  all: (split; [first [discriminate 1 | intros _; discriminate 1
                      | intros _ _; repeat constructor]|]).
  all: first [discriminate 1 | intros _; discriminate 1
             | intros _ _; discriminate 1
             | intros _ _ _ k style Hk;
               do 4 (destruct k as [|k];
                     [injection Hk as <-; cbn; try solve [repeat split]|]);
               try (destruct k; discriminate)].
Qed.

Lemma sections_shown_witness :
  let styles := ContentPane.sectionStyles 800 midSwipe in
  length styles = 4%nat
  /\ Forall (fun style => 0 <= ContentPane.opacity style) styles
  /\ (length (filter shown styles) <= 2)%nat
  /\ (App.isMobile (fst midSwipe) = false ->
      forall k style, nth_error styles k = Some style ->
        if (Z.of_nat k =? ContentPane.phaseToIndex (App.animationPhase (fst midSwipe)))%Z
        then style = activeStyle else hiddenStyle style)
  /\ (App.isMobile (fst midSwipe) = true -> App.isOnFinalPage (fst midSwipe) = true ->
      Forall hiddenStyle styles)
  /\ (App.isMobile (fst midSwipe) = true -> App.isOnFinalPage (fst midSwipe) = false ->
      App.isDragging (fst midSwipe) = false ->
      forall k style, nth_error styles k = Some style ->
        if (Z.of_nat k =? ContentPane.activeCardIndex (snd midSwipe))%Z
        then style = activeStyle else hiddenStyle style).
Proof. apply (sections_shown 800 midSwipe). cbn. lia. Defined.
End PageTheorems.

(* ------------------------------------------------------------------ *)
(** ** The camera, the wheel and the layers *)

Ltac cam_unfold :=
  cbv beta iota zeta delta
      [Experience.yPos_lookAtY Experience.targetPos Experience.targetLookAt
       Experience.xPos_zPos Experience.targetX Experience.lookAtOffset
       Experience.foundationCam Experience.networkCam Experience.ecosystemCam
       Experience.z Experience.y Experience.lookAt
       Experience.lerpFactor Experience.lerp3 Experience.cameraStep
       Experience.wrapperFrame Experience.visible Experience.meshOpacity
       Experience.lineOpacity Experience.opacityRef
       Experience.layer1Opacity Experience.layer2Opacity Experience.layer3Opacity
       lerp clamp Math_min Math_max geb leqb ltb lit add sub mul div Q_arith fst snd] in *.

Section CameraFacts.
Local Open Scope Q_scope.

Lemma smoothstep_unit (a : Q) : 0 <= a <= 1 -> 0 <= a * a * (3 - 2 * a) <= 1.
Proof.
  intros Ha.
  assert (H1 : 0 <= a * a) by (apply Qmult_le_0_compat; Lqa.lra).
  assert (H2 : 0 <= (a * a) * (3 - 2 * a)) by (apply Qmult_le_0_compat; Lqa.lra).
  assert (H3 : 0 <= (1 - a) * (1 - a)) by (apply Qmult_le_0_compat; Lqa.lra).
  assert (H4 : 0 <= ((1 - a) * (1 - a)) * (1 + 2 * a))
    by (apply Qmult_le_0_compat; Lqa.lra).
  split; Lqa.lra.
Qed.

End CameraFacts.

(** The eased parameter of the arc is abstracted, with its range. *)
Ltac ease :=
  try match goal with
  | |- context [?a * ?a * (3 - 2 * ?a)] =>
      let Ha := fresh "Ha" in
      let He := fresh "He" in
      assert (Ha : 0 <= a <= 1) by (split; Lqa.lra);
      pose proof (smoothstep_unit a Ha) as He;
      revert He; generalize (a * a * (3 - 2 * a)); intros ? He
  end.

Section Camera.
Local Open Scope Q_scope.

(** X8.  For every progress from 0 on, the height the
    camera heads for stays within [[6.5, 50]] and at least 3 above the
    height of the point it looks at, which stays between the look-at
    offset and 17.5 above it; and from the end of the intro (0.18) on the
    camera never heads lower when the progress grows. *)
Theorem camera_looks_down (offset : Q) (isMobile : bool) :
  0 <= offset ->
  let yPos := fst (Experience.yPos_lookAtY offset isMobile) in
  let lookAtY := snd (Experience.yPos_lookAtY offset isMobile) in
  6.5 <= yPos <= 50
  /\ lookAtY + 3 <= yPos
  /\ Experience.lookAtOffset isMobile <= lookAtY <= 17.5 + Experience.lookAtOffset isMobile
  /\ (0.18 <= offset -> forall offset', offset <= offset' ->
        yPos <= fst (Experience.yPos_lookAtY offset' isMobile)).
Proof.
  intros H0. cbv zeta.
  split; [|split; [|split]].
  - cam_unfold. destruct isMobile; q_inv; q_cases; ease; split; Lqa.lra.
  - cam_unfold. destruct isMobile; q_inv; q_cases; ease; Lqa.lra.
  - cam_unfold. destruct isMobile; q_inv; q_cases; ease; split; Lqa.lra.
  - intros H1 offset' H2. cam_unfold. destruct isMobile; q_inv; q_cases; Lqa.lra.
Qed.

Lemma camera_looks_down_witness :
  let yPos := fst (Experience.yPos_lookAtY 0.12 false) in
  let lookAtY := snd (Experience.yPos_lookAtY 0.12 false) in
  6.5 <= yPos <= 50
  /\ lookAtY + 3 <= yPos
  /\ Experience.lookAtOffset false <= lookAtY <= 17.5 + Experience.lookAtOffset false
  /\ (0.18 <= 0.12 -> forall offset', 0.12 <= offset' ->
        yPos <= fst (Experience.yPos_lookAtY offset' false)).
Proof. apply (camera_looks_down 0.12 false). discriminate. Defined.

(** X9.  One frame of the camera smoothing moves each
    coordinate of the camera and of its look-at point to a value between
    the current one and its target, for every frame time [delta >= 0]; a
    frame that took a quarter of a second or more puts the camera on its
    target. *)
Theorem camera_step_smooths (M : JsMath Q) (offset delta : Q) (isMobile : bool)
        (currentCameraPos currentLookAt : Q * Q * Q) :
  0 <= delta ->
  let next := Experience.cameraStep offset isMobile currentCameraPos currentLookAt delta in
  let '(cx, cy, cz) := currentCameraPos in
  let '(tx, ty, tz) := Experience.targetPos offset isMobile in
  let '(nx, ny, nz) := fst next in
  let '(lx, ly, lz) := currentLookAt in
  let '(ux, uy, uz) := Experience.targetLookAt offset isMobile in
  let '(mx, my, mz) := snd next in
  between cx tx nx /\ between cy ty ny /\ between cz tz nz
  /\ between lx ux mx /\ between ly uy my /\ between lz uz mz
  /\ (0.25 <= delta ->
      nx == tx /\ ny == ty /\ nz == tz /\ mx == ux /\ my == uy /\ mz == uz).
Proof.
  intros Hd. cbv zeta.
  destruct currentCameraPos as [[cx cy] cz], currentLookAt as [[lx ly] lz].
  unfold Experience.cameraStep. 
  destruct (Experience.targetPos offset isMobile) as [[tx ty] tz].
  destruct (Experience.targetLookAt offset isMobile) as [[ux uy] uz].
  cbn [fst snd Experience.lerp3].
  assert (Hf : 0 <= Experience.lerpFactor delta <= 1
               /\ (0.25 <= delta -> Experience.lerpFactor delta == 1)).
  { cam_unfold. q_cases; split; try split; intros; try Lqa.lra. }
  revert Hf. generalize (Experience.lerpFactor delta). intros f [Hf H1].
  unfold between, lerp. cbv [add sub mul lit Q_arith].
  repeat split; try (q_minmax; Lqa.nra).
  all: intros H25; specialize (H1 H25); rewrite H1; Lqa.lra.
Qed.

Lemma camera_step_smooths_witness :
  let next := Experience.cameraStep (H0 := Q_math) 0.5 false (0, 50, 0) (0, 0, 0) (1 # 60) in
  let '(cx, cy, cz) := ((0, 50, 0) : Q * Q * Q) in
  let '(tx, ty, tz) := Experience.targetPos (H0 := Q_math) 0.5 false in
  let '(nx, ny, nz) := fst next in
  let '(lx, ly, lz) := ((0, 0, 0) : Q * Q * Q) in
  let '(ux, uy, uz) := Experience.targetLookAt 0.5 false in
  let '(mx, my, mz) := snd next in
  between cx tx nx /\ between cy ty ny /\ between cz tz nz
  /\ between lx ux mx /\ between ly uy my /\ between lz uz mz
  /\ (0.25 <= 1 # 60 ->
      nx == tx /\ ny == ty /\ nz == tz /\ mx == ux /\ my == uy /\ mz == uz).
Proof.
  apply (camera_step_smooths Q_math 0.5 (1 # 60) false (0, 50, 0) (0, 0, 0)).
  discriminate.
Defined.

Lemma handleWheel_clamp (targetProgress deltaY : Q) :
  App.handleWheel targetProgress deltaY
  == Qmax 0 (Qmin 0.82 (targetProgress + deltaY / 10000)).
Proof. page_unfold. q_inv. q_minmax; q_cases; Lqa.lra. Qed.

Lemma onWheel_desktop (deltaY : Q) (s : App.State) :
  App.isMobile s = false ->
  let p := App.handleWheel (App.targetProgress s) deltaY in
  App.targetProgress (App.onWheel deltaY s) = p
  /\ App.animationPhase (App.onWheel deltaY s) = App.wheelPhase p
  /\ App.isOnFinalPage (App.onWheel deltaY s) = geb p 0.80
  /\ App.scrollProgress (App.onWheel deltaY s) = App.scrollProgress s.
Proof.
  destruct s. cbn [App.isMobile App.targetProgress App.scrollProgress].
  intros ->. cbv zeta.
  cbv [App.onWheel App.isMobile App.targetProgress App.animationPhase
       App.BLACKOUT_START].
  generalize (App.handleWheel targetProgress deltaY). intros w.
  destruct (App.wheelPhase w) eqn:Ew, animationPhase;
    cbn [App.Phase_eqb negb]; change (lit 0.80) with (0.80 : Q);
    destruct (geb w 0.80) eqn:Eg; repeat split.
Qed.

(** X10.  On desktop a wheel event moves the target
    progress by [deltaY / 10000], clamped to [[0, 0.82]] (the two clamps of
    the listener amount to this one), and leaves the progress shown to the
    animation loop.  The phase it announces is a function of the new
    target alone and follows the camera: 'intro' below 0.18, 'foundation'
    where the camera rests on the foundation pose, 'network' and
    'ecosystem' from the moment the camera leaves for the next layer; the
    final page is on exactly from 0.80. *)
Theorem wheel_moves_target (deltaY : Q) (s : App.State) :
  App.isMobile s = false ->
  let s' := App.onWheel deltaY s in
  let p := App.targetProgress s' in
  p == Qmax 0 (Qmin 0.82 (App.targetProgress s + deltaY / 10000))
  /\ App.animationPhase s' = App.wheelPhase p
  /\ (App.isOnFinalPage s' = true <-> 0.80 <= p)
  /\ App.scrollProgress s' = App.scrollProgress s
  /\ (App.animationPhase s' = App.intro <-> p < 0.18)
  /\ (App.animationPhase s' = App.foundation ->
      Experience.yPos_lookAtY p false
      = (Experience.y (Experience.foundationCam false),
         Experience.lookAt (Experience.foundationCam false)))
  /\ (App.animationPhase s' = App.network ->
      6.5 <= fst (Experience.yPos_lookAtY p false) <= 14.5)
  /\ (App.animationPhase s' = App.ecosystem ->
      14.5 <= fst (Experience.yPos_lookAtY p false) <= 20.5).
Proof.
  intros Hm. cbv zeta.
  destruct (onWheel_desktop deltaY s Hm) as (E1 & E2 & E3 & E4). cbv zeta in *.
  rewrite E1, E2, E3, E4.
  pose proof (handleWheel_range (App.targetProgress s) deltaY) as Hw.
  pose proof (handleWheel_clamp (App.targetProgress s) deltaY) as Hc.
  clear E1 E2 E3 E4. revert Hw Hc.
  generalize (App.handleWheel (App.targetProgress s) deltaY). intros w Hw Hc.
  split; [exact Hc|]. split; [reflexivity|]. clear Hc.
  split; [|split; [reflexivity|]].
  - cbv [geb ltb lit Q_arith]. destruct (Qltb w 0.80) eqn:E; cbn [negb].
    + apply Qltb_lt in E. split; [discriminate | intros; Lqa.lra].
    + apply Qltb_ge in E. split; [intros; Lqa.lra | reflexivity].
  - cbv [App.wheelPhase geb ltb lit Q_arith]. cam_unfold. q_inv.
    q_cases; cbn [negb]; repeat split; intros; try discriminate; try reflexivity;
      try Lqa.lra.
Qed.

Lemma wheel_moves_target_witness :
  let s := fst (run [Resize 1200; Wheel 2000] mounted) in
  let s' := App.onWheel 2500 s in
  let p := App.targetProgress s' in
  p == Qmax 0 (Qmin 0.82 (App.targetProgress s + 2500 / 10000))
  /\ App.animationPhase s' = App.wheelPhase p
  /\ (App.isOnFinalPage s' = true <-> 0.80 <= p)
  /\ App.scrollProgress s' = App.scrollProgress s
  /\ (App.animationPhase s' = App.intro <-> p < 0.18)
  /\ (App.animationPhase s' = App.foundation ->
      Experience.yPos_lookAtY p false
      = (Experience.y (Experience.foundationCam false),
         Experience.lookAt (Experience.foundationCam false)))
  /\ (App.animationPhase s' = App.network ->
      6.5 <= fst (Experience.yPos_lookAtY p false) <= 14.5)
  /\ (App.animationPhase s' = App.ecosystem ->
      14.5 <= fst (Experience.yPos_lookAtY p false) <= 20.5).
Proof.
  exact (wheel_moves_target 2500 (fst (run [Resize 1200; Wheel 2000] mounted)) eq_refl).
Defined.

(** X11.  A layer the wrapper shows has an opacity in
    [(0.01, 1]] on its spheres and a tenth of it on its line segments,
    at every progress, also past 0.88 where the opacity computed for the
    top layer is negative: the group is then hidden.  The foundation layer
    is always shown; the network layer is hidden exactly on
    [[0.1796, 0.3008]], the top layer exactly on [[0.1796, 0.5308]] and
    from 0.8797 on. *)
Theorem layers_shown (offset : Q) :
  (forall l,
     let shown := Experience.wrapperFrame (Experience.opacityRef l offset) in
     Experience.visible shown = true ->
     0.01 < Experience.meshOpacity shown <= 1
     /\ 0.001 < Experience.lineOpacity shown <= 0.1)
  /\ Experience.visible
       (Experience.wrapperFrame (Experience.opacityRef Experience.Foundation offset)) = true
  /\ (Experience.visible
        (Experience.wrapperFrame (Experience.opacityRef Experience.Network offset)) = false
      <-> 0.1796 <= offset <= 0.3008)
  /\ (Experience.visible
        (Experience.wrapperFrame (Experience.opacityRef Experience.Ecosystem offset)) = false
      <-> 0.1796 <= offset <= 0.5308 \/ 0.8797 <= offset).
Proof.
  split; [|split; [|split]].
  - intros l. cbv zeta. destruct l; cam_unfold; q_inv; q_cases;
      intros; try discriminate; split; split; Lqa.lra.
  - reflexivity.
  - cam_unfold; q_inv; q_cases; split; intros; try discriminate; try reflexivity;
      try (split; Lqa.lra); try (exfalso; Lqa.lra).
  - cam_unfold; q_inv; q_cases; split; intros; try discriminate; try reflexivity;
      try (left; split; Lqa.lra); try (right; Lqa.lra);
      try (exfalso; repeat match goal with H : _ \/ _ |- _ => destruct H | H : _ /\ _ |- _ => destruct H end; Lqa.lra).
Qed.

End Camera.

(* ------------------------------------------------------------------ *)
(** ** The lines of the scene join the nodes of its layers *)

Lemma pairAt_joins (startY endY : N) (startNodes endNodes : list (Vector3 Q))
      (startIndices endIndices : list nat) (state : N)
      (pairs : list (InterLayerLines.Pair (num := Q))) :
  (forall k pair, nth_error pairs k = Some pair ->
     pairAt startY endY startNodes endNodes startIndices endIndices state k k pair) ->
  Forall2 (fun i point =>
             exists p, nth_error startNodes i = Some p
                       /\ point = (px p, add (ofN startY) (py p), pz p))
          (firstn (length pairs) startIndices) (map InterLayerLines.startPoint pairs)
  /\ Forall2 (fun i point =>
                exists p, nth_error endNodes i = Some p
                          /\ point = (px p, add (ofN endY) (py p), pz p))
             (firstn (length pairs) endIndices) (map InterLayerLines.endPoint pairs).
Proof.
  revert startIndices endIndices state.
  induction pairs as [|pair pairs IH]; intros startIndices endIndices state Hp.
  - split; constructor.
  - destruct (Hp 0%nat pair eq_refl) as (si & ei & sn & en & H1 & H2 & H3 & H4 & H5 & H6 & _).
    destruct startIndices as [|si' startIndices]; [discriminate|].
    destruct endIndices as [|ei' endIndices]; [discriminate|].
    injection H1 as ->. injection H3 as ->.
    destruct (IH startIndices endIndices (nextState state)) as [IH1 IH2].
    { intros k p Hk. destruct (Hp (S k) p Hk)
        as (si' & ei' & sn' & en' & ? & ? & ? & ? & ? & ? & Ho).
      exists si', ei', sn', en'. repeat split; try assumption.
      rewrite Ho. cbn [Nat.iter]. rewrite <- Nat.iter_succ_r. reflexivity. }
    cbn [length firstn map]. split; constructor; try assumption.
    + exists sn. split; assumption.
    + exists en. split; assumption.
Qed.

Lemma Forall2_length_eq {A B : Type} (R : A -> B -> Prop) (l : list A) (l' : list B) :
  Forall2 R l l' -> length l = length l'.
Proof. induction 1; cbn; congruence. Qed.

(** X12.  With the props [Experience] passes, every
    edge group is built and holds between 5 lines and a quarter of the node
    count of its lower layer; each of its lines starts at the place in the
    scene of a node of the lower layer as [LayerNodes] draws it, no node
    carrying two lines of the group, and for the first two groups ends in
    the same way on a node of the upper layer (the upward lines end on a
    layer that is not drawn).  The layers themselves build no line: they
    are given [connectInternal = false] and no [connectTo]. *)
Theorem scene_lines_join_nodes (M : JsMath Q) (g : Experience.group) :
  exists lower pairs,
    Experience.nodesOf (num := Q) (Experience.lowerLayer g) = Returns lower
    /\ Experience.linesOf (num := Q) g = Returns pairs
    /\ (5 <= length pairs <= Z.to_nat (lineCountOf (num := Q) g))%nat
    /\ joins (Experience.lowerLayer g) lower (map InterLayerLines.startPoint pairs)
    /\ match Experience.upperLayer g with
       | Some u =>
           exists upper,
             Experience.nodesOf (num := Q) u = Returns upper
             /\ joins u upper (map InterLayerLines.endPoint pairs)
       | None => True
       end
    /\ forall l nodes, Experience.layerLines (num := Q) l nodes = ([], []).
Proof.
  assert (P : forall count radius seed,
             exists nodes, LayerNodes.particles (num := Q) count radius seed = Returns nodes
                           /\ (5 <= length nodes)%nat).
  { intros count radius seed.
    destruct (particles_returns count radius seed) as (l & E & _ & _).
    eexists. split; [exact E|]. rewrite length_app, seedPoints_length. lia. }
  assert (W : forall startY endY numLines (startRadius endRadius : Q)
                     startCount endCount startSeed endSeed,
             (5 <= numLines)%nat ->
             exists startNodes endNodes pairs,
               LayerNodes.particles startCount startRadius startSeed = Returns startNodes
               /\ LayerNodes.particles endCount endRadius endSeed = Returns endNodes
               /\ InterLayerLines.nodePairs startY endY startRadius endRadius numLines
                    (Some startCount) (Some endCount) startSeed endSeed = Returns pairs
               /\ (5 <= length pairs <= numLines)%nat
               /\ (exists indices, NoDup indices /\
                     Forall2 (fun i point =>
                       exists p, nth_error startNodes i = Some p
                                 /\ point = (px p, add (ofN startY) (py p), pz p))
                     indices (map InterLayerLines.startPoint pairs))
               /\ (exists indices, NoDup indices /\
                     Forall2 (fun i point =>
                       exists p, nth_error endNodes i = Some p
                                 /\ point = (px p, add (ofN endY) (py p), pz p))
                     indices (map InterLayerLines.endPoint pairs))).
  { intros startY endY numLines startRadius endRadius startCount endCount
           startSeed endSeed Hn.
    destruct (P startCount startRadius startSeed) as (startNodes & Es & Ls).
    destruct (P endCount endRadius endSeed) as (endNodes & Ee & Le).
    unfold InterLayerLines.nodePairs. rewrite !generateNodePositions_particles.
    rewrite Es, Ee. cbn [bind].
    destruct (connectLayers_spec startY endY numLines startNodes endNodes)
      as (Ps & Pe & _ & pairs & Ep & Lp & Hp).
    exists startNodes, endNodes, pairs.
    split; [reflexivity|]. split; [reflexivity|]. split; [exact Ep|].
    split; [lia|].
    destruct (pairAt_joins startY endY startNodes endNodes _ _ _ pairs
                (fun k pair Hk => proj1 (Hp k pair Hk))) as [J1 J2].
    split; eexists; (split; [|eassumption]); apply NoDup_firstn.
    - eapply Permutation_NoDup; [symmetry; exact Ps | apply seq_NoDup].
    - eapply Permutation_NoDup; [symmetry; exact Pe | apply seq_NoDup]. }
  assert (C1 : Z.to_nat (Experience.foundationToNetworkLineCount (num := Q)) = 15%nat)
    by reflexivity.
  assert (C2 : Z.to_nat (Experience.networkToEcosystemLineCount (num := Q)) = 30%nat)
    by reflexivity.
  assert (C3 : Z.to_nat (Experience.ecosystemUpwardLineCount (num := Q)) = 50%nat)
    by reflexivity.
  destruct g; cbn [lineCountOf].
  - destruct (W 0%N 8%N (Z.to_nat (Experience.foundationToNetworkLineCount (num := Q)))
                (3.5 : Q) (6 : Q) Experience.foundationNodeCount
                Experience.networkNodeCount 0%N 8000%N ltac:(rewrite C1; lia))
      as (a & b & pairs & Ea & Eb & Ep & Lp & Ja & Jb).
    exists a, pairs. split; [exact Ea|]. split; [exact Ep|]. split; [exact Lp|].
    split; [exact Ja|]. split; [|reflexivity]. exists b. split; [exact Eb | exact Jb].
  - destruct (W 8%N 16%N (Z.to_nat (Experience.networkToEcosystemLineCount (num := Q)))
                (6 : Q) (9 : Q) Experience.networkNodeCount
                Experience.ecosystemNodeCount 8000%N 16000%N ltac:(rewrite C2; lia))
      as (a & b & pairs & Ea & Eb & Ep & Lp & Ja & Jb).
    exists a, pairs. split; [exact Ea|]. split; [exact Ep|]. split; [exact Lp|].
    split; [exact Ja|]. split; [|reflexivity]. exists b. split; [exact Eb | exact Jb].
  - destruct (W 16%N 24%N (Z.to_nat (Experience.ecosystemUpwardLineCount (num := Q)))
                (9 : Q) (12 : Q) Experience.ecosystemNodeCount
                Experience.ecosystemNodeCount 16000%N 24000%N ltac:(rewrite C3; lia))
      as (a & b & pairs & Ea & Eb & Ep & Lp & Ja & Jb).
    exists a, pairs. split; [exact Ea|]. split; [exact Ep|]. split; [exact Lp|].
    split; [exact Ja|]. split; [exact I | reflexivity].
Qed.

(* ------------------------------------------------------------------ *)
(** ** What the frame callbacks draw *)

Lemma store_nth_error {A : Type} (l : list A) (i k : nat) (v : A) :
  nth_error (store l i v) k
  = if (k =? i)%nat && (k <? length l)%nat then Some v else nth_error l k.
Proof.
  revert i k. induction l as [|a l IH]; intros i k.
  - cbn. rewrite andb_false_r. reflexivity.
  - destruct i as [|i], k as [|k]; cbn [store nth_error length]; try reflexivity.
    rewrite IH. reflexivity.
Qed.

Lemma store_app_r {A : Type} (l1 l2 : list A) (k : nat) (v : A) :
  store (l1 ++ l2) (length l1 + k) v = l1 ++ store l2 k v.
Proof.
  induction l1 as [|a l1 IH]; cbn; [reflexivity|]. now rewrite IH.
Qed.

Lemma nth_error_flat_map_six {A B : Type} (f : A -> list B) (l : list A) (k j : nat) (a : A) :
  (forall a, length (f a) = 6%nat) ->
  nth_error l k = Some a -> (j < 6)%nat ->
  nth_error (flat_map f l) (k * 6 + j) = nth_error (f a) j.
Proof.
  intros Hf. revert k. induction l as [|b l IH]; intros k Hk Hj.
  - destruct k; discriminate.
  - cbn [flat_map]. destruct k as [|k].
    + injection Hk as ->. cbn [Nat.mul Nat.add]. rewrite nth_error_app1; [reflexivity|].
      rewrite Hf. exact Hj.
    + cbn in Hk. rewrite nth_error_app2 by (rewrite Hf; lia).
      rewrite Hf. replace (S k * 6 + j - 6)%nat with (k * 6 + j)%nat by lia.
      now apply IH.
Qed.

Lemma flat_map_length_const {A B : Type} (f : A -> list B) (l : list A) (c : nat) :
  (forall a, length (f a) = c) -> length (flat_map f l) = (length l * c)%nat.
Proof.
  intros Hf. induction l as [|a l IH]; [reflexivity|].
  cbn [flat_map length]. rewrite length_app, Hf, IH. lia.
Qed.

Section FrameFacts.
Context {num : Type} `{JsArith num}.

Lemma drawnLine_length (baseGrowth : num) (pair : InterLayerLines.Pair (num := num)) :
  length (drawnLine baseGrowth pair) = 6%nat.
Proof.
  unfold drawnLine. destruct (InterLayerLines.startPoint pair) as [[? ?] ?].
  destruct (InterLayerLines.endPoint pair) as [[? ?] ?]. reflexivity.
Qed.

Lemma positionsOf_length (nodePairs : list (InterLayerLines.Pair (num := num))) :
  length (InterLayerLines.positionsOf nodePairs) = (length nodePairs * 6)%nat.
Proof.
  apply flat_map_length_const. intros pair.
  destruct (InterLayerLines.startPoint pair) as [[? ?] ?].
  destruct (InterLayerLines.endPoint pair) as [[? ?] ?]. reflexivity.
Qed.

Lemma frameLine_draws (baseGrowth : num) (originalPositions done rest : list num)
      (a b c d e f : num) (i : nat) (pair : InterLayerLines.Pair (num := num)) :
  length done = (i * 6)%nat ->
  (forall j, (j < 6)%nat ->
     nth_error originalPositions (i * 6 + j)
     = nth_error (let '(sx, sy, sz) := InterLayerLines.startPoint pair in
                  let '(ex, ey, ez) := InterLayerLines.endPoint pair in
                  [sx; sy; sz; ex; ey; ez]) j) ->
  InterLayerLines.frameLine baseGrowth originalPositions
    (done ++ a :: b :: c :: d :: e :: f :: rest) i pair
  = Some (done ++ drawnLine baseGrowth pair ++ rest).
Proof.
  intros Hd Ho. unfold InterLayerLines.frameLine, drawnLine.
  pose proof (Ho 0%nat ltac:(lia)) as E0. pose proof (Ho 1%nat ltac:(lia)) as E1.
  pose proof (Ho 2%nat ltac:(lia)) as E2. pose proof (Ho 3%nat ltac:(lia)) as E3.
  pose proof (Ho 4%nat ltac:(lia)) as E4. pose proof (Ho 5%nat ltac:(lia)) as E5.
  destruct (InterLayerLines.startPoint pair) as [[sx sy] sz].
  destruct (InterLayerLines.endPoint pair) as [[ex ey] ez].
  rewrite Nat.add_0_r in E0. rewrite E0, E1, E2, E3, E4, E5. cbn [nth_error].
  rewrite <- Hd.
  replace (length done) with (length done + 0)%nat at 1 by lia.
  rewrite !store_app_r. reflexivity.
Qed.

Lemma frame_fold (baseGrowth : num) (originalPositions : list num)
      (nodePairs : list (InterLayerLines.Pair (num := num))) :
  forall (i : nat) (done rest : list num),
    length done = (i * 6)%nat ->
    length rest = (length nodePairs * 6)%nat ->
    (forall k pair j, nth_error nodePairs k = Some pair -> (j < 6)%nat ->
       nth_error originalPositions ((i + k) * 6 + j)
       = nth_error (let '(sx, sy, sz) := InterLayerLines.startPoint pair in
                    let '(ex, ey, ez) := InterLayerLines.endPoint pair in
                    [sx; sy; sz; ex; ey; ez]) j) ->
    fold_left (fun acc '(i, nodePair) =>
                 match acc with
                 | Some positions =>
                     InterLayerLines.frameLine baseGrowth originalPositions positions
                                               i nodePair
                 | None => None
                 end)
              (combine (seq i (length nodePairs)) nodePairs) (Some (done ++ rest))
    = Some (done ++ flat_map (drawnLine baseGrowth) nodePairs).
Proof.
  induction nodePairs as [|pair l IH]; intros i done rest Hd Hr Ho.
  - destruct rest; [reflexivity | discriminate].
  - cbn [length] in Hr.
    do 6 (destruct rest as [|? rest]; [discriminate|]).
    cbn [seq combine fold_left flat_map length].
    rewrite frameLine_draws; [|exact Hd|].
    + rewrite app_assoc. rewrite (IH (S i)).
      * now rewrite <- app_assoc.
      * rewrite length_app, drawnLine_length. lia.
      * cbn [length] in Hr. lia.
      * intros k p j Hk Hj. replace (S i + k)%nat with (i + S k)%nat by lia.
        now apply Ho.
    + intros j Hj. replace (i * 6 + j)%nat with ((i + 0) * 6 + j)%nat by lia.
      now apply Ho.
Qed.

Lemma frame_spec (baseGrowth : num) (nodePairs : list (InterLayerLines.Pair (num := num)))
      (positions : list num) :
  length positions = length (InterLayerLines.positionsOf nodePairs) ->
  InterLayerLines.frame baseGrowth nodePairs
    (InterLayerLines.positionsOf nodePairs) positions
  = Some (flat_map (drawnLine baseGrowth) nodePairs).
Proof.
  intros Hp. rewrite positionsOf_length in Hp.
  unfold InterLayerLines.frame, entries.
  apply (frame_fold baseGrowth (InterLayerLines.positionsOf nodePairs) nodePairs
                    0 [] positions); [reflexivity | exact Hp |].
  intros k pair j Hk Hj. cbn [Nat.add].
  unfold InterLayerLines.positionsOf.
  rewrite (nth_error_flat_map_six _ nodePairs k j pair); [reflexivity| |exact Hk|exact Hj].
  intros p. destruct (InterLayerLines.startPoint p) as [[? ?] ?].
  destruct (InterLayerLines.endPoint p) as [[? ?] ?]. reflexivity.
Qed.
End FrameFacts.

(** X13.  The geometry of an edge group holds six
    positions and six colour components a line.  On it the frame callback
    reads no entry outside the arrays and leaves, for every line, its start
    point where it was and its end point at the line's own growth fraction
    of the way from the start point to the original end point. *)
Theorem frame_redraws_lines
  {num : Type} `{JsArith num}
  (baseGrowth : num) (nodePairs : list (InterLayerLines.Pair (num := num)))
  (positions : list num) (startColorObj endColorObj : num * num * num) :
  length positions = length (InterLayerLines.positionsOf nodePairs) ->
  length (InterLayerLines.positionsOf nodePairs) = (6 * length nodePairs)%nat
  /\ length (InterLayerLines.colorsOf startColorObj endColorObj nodePairs)
     = length (InterLayerLines.positionsOf nodePairs)
  /\ InterLayerLines.frame baseGrowth nodePairs
       (InterLayerLines.positionsOf nodePairs) positions
     = Some (flat_map (drawnLine baseGrowth) nodePairs).
Proof.
  intros Hp. split; [rewrite positionsOf_length; lia|]. split.
  - rewrite positionsOf_length. apply flat_map_length_const. intros _.
    destruct startColorObj as [[? ?] ?], endColorObj as [[? ?] ?]. reflexivity.
  - now apply frame_spec.
Qed.

Lemma frame_redraws_lines_witness :
  let nodePairs := [InterLayerLines.mkPair (1, 0, 0) (0, 8, 2) 0.3]%Q in
  length (InterLayerLines.positionsOf nodePairs) = (6 * length nodePairs)%nat
  /\ length (InterLayerLines.colorsOf (1, 1, 1)%Q (0, 0, 1)%Q nodePairs)
     = length (InterLayerLines.positionsOf nodePairs)
  /\ InterLayerLines.frame 0.5%Q nodePairs
       (InterLayerLines.positionsOf nodePairs) [0; 0; 0; 0; 0; 0]%Q
     = Some (flat_map (drawnLine 0.5%Q) nodePairs).
Proof.
  apply (frame_redraws_lines 0.5%Q
           [InterLayerLines.mkPair (1, 0, 0) (0, 8, 2) 0.3]%Q [0; 0; 0; 0; 0; 0]%Q
           (1, 1, 1)%Q (0, 0, 1)%Q).
  reflexivity.
Defined.

Section InstanceFacts.
Context {num : Type} `{JsArith num}.

Lemma shown_fold (scale : num) (particles : list (Vector3 num)) :
  forall (i : nat) (m : list LayerNodes.Instance),
    let m' :=
      fold_left (fun m '(i, particle) =>
                   LayerNodes.setMatrixAt m i
                     (LayerNodes.mkInstance (px particle, py particle, pz particle)
                                            (mul (lit 0.2) scale)))
                (combine (seq i (length particles)) particles) m in
    length m' = length m
    /\ forall k, nth_error m' k
                 = if (i <=? k)%nat && (k <? i + length particles)%nat
                      && (k <? length m)%nat
                   then nth_error (map (nodeInstance scale) particles) (k - i)
                   else nth_error m k.
Proof.
  unfold LayerNodes.setMatrixAt.
  induction particles as [|p l IH]; intros i m; cbv zeta.
  - cbn [length seq combine fold_left map]. split; [reflexivity|]. intros k.
    destruct (_ && _ && _) eqn:E; [|reflexivity].
    apply andb_prop in E. destruct E as [E _]. apply andb_prop in E.
    destruct E as [E1 E2]. apply Nat.leb_le in E1. apply Nat.ltb_lt in E2. lia.
  - cbn [length seq combine fold_left map].
    destruct (IH (S i) (store m i
                (LayerNodes.mkInstance (px p, py p, pz p) (mul (lit 0.2) scale))))
      as [L N].
    rewrite store_length in L.
    split; [exact L|]. intros k. rewrite N.
    rewrite store_length, store_nth_error.
    destruct (Nat.eq_dec k i) as [-> | Hk].
    + rewrite Nat.eqb_refl, Nat.sub_diag.
      replace (S i <=? i)%nat with false by (symmetry; apply Nat.leb_gt; lia).
      replace (i <=? i)%nat with true by (symmetry; apply Nat.leb_le; lia).
      replace (i <? i + S (length l))%nat with true by (symmetry; apply Nat.ltb_lt; lia).
      cbn [andb nth_error]. destruct (i <? length m)%nat; reflexivity.
    + replace (k =? i)%nat with false by (symmetry; apply Nat.eqb_neq; lia).
      cbn [andb].
      destruct (S i <=? k)%nat eqn:E1.
      * apply Nat.leb_le in E1.
        replace (i <=? k)%nat with true by (symmetry; apply Nat.leb_le; lia).
        replace (k <? i + S (length l))%nat with (k <? S i + length l)%nat
          by (f_equal; lia).
        destruct (_ && _); [|reflexivity].
        replace (k - i)%nat with (S (k - S i)) by lia. reflexivity.
      * apply Nat.leb_gt in E1.
        replace (i <=? k)%nat with false by (symmetry; apply Nat.leb_gt; lia).
        reflexivity.
Qed.

Lemma unused_fold (n : nat) :
  forall (a : nat) (m : list LayerNodes.Instance),
    let m' :=
      fold_left (fun m i => LayerNodes.setMatrixAt m i
                              (LayerNodes.mkInstance (lit 0, lit 0, lit 0) (lit 0)))
                (seq a n) m in
    length m' = length m
    /\ forall k, nth_error m' k
                 = if (a <=? k)%nat && (k <? a + n)%nat && (k <? length m)%nat
                   then Some unusedInstance else nth_error m k.
Proof.
  unfold LayerNodes.setMatrixAt.
  induction n as [|n IH]; intros a m; cbv zeta.
  - cbn [seq fold_left]. split; [reflexivity|]. intros k.
    destruct (_ && _ && _) eqn:E; [|reflexivity].
    apply andb_prop in E. destruct E as [E _]. apply andb_prop in E.
    destruct E as [E1 E2]. apply Nat.leb_le in E1. apply Nat.ltb_lt in E2. lia.
  - cbn [seq fold_left].
    destruct (IH (S a) (store m a
                (LayerNodes.mkInstance (lit 0, lit 0, lit 0) (lit 0)))) as [L N].
    rewrite store_length in L.
    split; [exact L|]. intros k. rewrite N.
    rewrite store_length, store_nth_error.
    destruct (Nat.eq_dec k a) as [-> | Hk].
    + rewrite Nat.eqb_refl.
      replace (S a <=? a)%nat with false by (symmetry; apply Nat.leb_gt; lia).
      replace (a <=? a)%nat with true by (symmetry; apply Nat.leb_le; lia).
      replace (a <? a + S n)%nat with true by (symmetry; apply Nat.ltb_lt; lia).
      cbn [andb]. destruct (a <? length m)%nat eqn:E; reflexivity.
    + replace (k =? a)%nat with false by (symmetry; apply Nat.eqb_neq; lia).
      cbn [andb].
      destruct (S a <=? k)%nat eqn:E1.
      * apply Nat.leb_le in E1.
        replace (a <=? k)%nat with true by (symmetry; apply Nat.leb_le; lia).
        replace (k <? a + S n)%nat with (k <? S a + n)%nat by (f_equal; lia).
        reflexivity.
      * apply Nat.leb_gt in E1.
        replace (a <=? k)%nat with false by (symmetry; apply Nat.leb_gt; lia).
        reflexivity.
Qed.

Lemma useFrame_spec (count : nat) (scale : num) (particles : list (Vector3 num))
      (instanceMatrix : list LayerNodes.Instance) :
  length instanceMatrix = count ->
  let m' := LayerNodes.useFrame count scale particles instanceMatrix in
  length m' = count
  /\ forall i, (i < count)%nat ->
       nth_error m' i
       = Some (match nth_error particles i with
               | Some particle => nodeInstance scale particle
               | None => unusedInstance
               end).
Proof.
  intros Hm. cbv zeta. unfold LayerNodes.useFrame, entries.
  destruct (shown_fold scale particles 0 instanceMatrix) as [L1 N1].
  cbv zeta in L1, N1.
  set (shown := fold_left _ (combine _ _) _) in *.
  destruct (unused_fold (count - length particles) (length particles) shown) as [L2 N2].
  cbv zeta in L2, N2.
  split; [congruence|]. intros i Hi. rewrite N2, N1, L1, Hm.
  replace (i <? count)%nat with true by (symmetry; apply Nat.ltb_lt; lia).
  rewrite !andb_true_r. cbn [Nat.leb Nat.add andb]. rewrite Nat.sub_0_r.
  rewrite nth_error_map.
  destruct (length particles <=? i)%nat eqn:E1.
  - apply Nat.leb_le in E1.
    replace (i <? length particles + (count - length particles))%nat with true
      by (symmetry; apply Nat.ltb_lt; lia).
    cbn [andb]. replace (nth_error particles i) with (@None (Vector3 num));
      [reflexivity|]. symmetry. now apply nth_error_None.
  - apply Nat.leb_gt in E1. cbn [andb].
    replace (i <? length particles)%nat with true by (symmetry; apply Nat.ltb_lt; lia).
    destruct (nth_error particles i) eqn:E; [reflexivity|].
    apply nth_error_None in E. lia.
Qed.
End InstanceFacts.

Section LinesAtTheEnds.
Local Open Scope Q_scope.

Lemma lineGrowth_full (o : Q) : o < 1 -> InterLayerLines.lineGrowth 1 o == 1.
Proof.
  intros Ho.
  assert (Hk1 : (1 - o) * / (1 - o) == 1) by (apply Qmult_inv_r; Lqa.lra).
  cbv [InterLayerLines.lineGrowth clamp Math_max Math_min ltb lit sub div Q_arith].
  unfold Qdiv. revert Hk1. generalize (/ (1 - o)). intros k Hk1.
  q_cases; Lqa.lra.
Qed.

Lemma lineGrowth_none (g o : Q) : g <= o < 1 -> InterLayerLines.lineGrowth g o == 0.
Proof.
  intros Ho.
  assert (Hk : 0 < / (1 - o)) by (apply Qinv_lt_0_compat; Lqa.lra).
  cbv [InterLayerLines.lineGrowth clamp Math_max Math_min ltb lit sub div Q_arith].
  unfold Qdiv. revert Hk. generalize (/ (1 - o)). intros k Hk.
  q_cases; try Lqa.lra; Lqa.nra.
Qed.

Lemma lerp_end (x y t : Q) : t == 1 -> lerp x y t == y.
Proof. intros Ht. cbv [lerp add sub mul lit Q_arith]. rewrite Ht. Lqa.lra. Qed.

Lemma lerp_start (x y t : Q) : t == 0 -> lerp x y t == x.
Proof. intros Ht. cbv [lerp add sub mul lit Q_arith]. rewrite Ht. Lqa.lra. Qed.

(** X14.  When the growth of an edge group is 1, the
    frame callback leaves the geometry as it was built: every line is drawn
    in full.  When it is 0, every line is drawn from its start point to its
    start point: nothing of it shows. *)
Theorem lines_drawn_at_the_ends
        (nodePairs : list (InterLayerLines.Pair (num := Q))) (positions : list Q) :
  length positions = length (InterLayerLines.positionsOf nodePairs) ->
  Forall (fun pair => 0 <= InterLayerLines.offset pair < 1) nodePairs ->
  (exists drawn,
      InterLayerLines.frame 1 nodePairs (InterLayerLines.positionsOf nodePairs) positions
      = Some drawn
      /\ Forall2 Qeq drawn (InterLayerLines.positionsOf nodePairs))
  /\ (exists drawn,
         InterLayerLines.frame 0 nodePairs (InterLayerLines.positionsOf nodePairs)
                               positions
         = Some drawn
         /\ Forall2 Qeq drawn
                    (flat_map (fun pair =>
                                 let '(sx, sy, sz) := InterLayerLines.startPoint pair in
                                 [sx; sy; sz; sx; sy; sz])
                              nodePairs)).
Proof.
  intros Hp Ho. split; eexists; (split; [now apply frame_spec|]); clear Hp.
  - unfold InterLayerLines.positionsOf.
    induction Ho as [|pair l Hpair _ IH]; [constructor|].
    cbn [flat_map]. apply Forall2_app; [|exact IH].
    unfold drawnLine.
    destruct (InterLayerLines.startPoint pair) as [[sx sy] sz].
    destruct (InterLayerLines.endPoint pair) as [[ex ey] ez].
    pose proof (lineGrowth_full (InterLayerLines.offset pair) ltac:(Lqa.lra)) as Hg.
    repeat constructor; try reflexivity; now apply lerp_end.
  - induction Ho as [|pair l Hpair _ IH]; [constructor|].
    cbn [flat_map]. apply Forall2_app; [|exact IH].
    unfold drawnLine.
    destruct (InterLayerLines.startPoint pair) as [[sx sy] sz].
    destruct (InterLayerLines.endPoint pair) as [[ex ey] ez].
    pose proof (lineGrowth_none 0 (InterLayerLines.offset pair) ltac:(Lqa.lra)) as Hg.
    repeat constructor; try reflexivity; now apply lerp_start.
Qed.

Lemma lines_drawn_at_the_ends_witness :
  let nodePairs := [InterLayerLines.mkPair (1, 0, 0) (0, 8, 2) 0.3] in
  (exists drawn,
      InterLayerLines.frame 1 nodePairs (InterLayerLines.positionsOf nodePairs)
                            [0; 0; 0; 0; 0; 0]
      = Some drawn
      /\ Forall2 Qeq drawn (InterLayerLines.positionsOf nodePairs))
  /\ (exists drawn,
         InterLayerLines.frame 0 nodePairs (InterLayerLines.positionsOf nodePairs)
                               [0; 0; 0; 0; 0; 0]
         = Some drawn
         /\ Forall2 Qeq drawn
                    (flat_map (fun pair =>
                                 let '(sx, sy, sz) := InterLayerLines.startPoint pair in
                                 [sx; sy; sz; sx; sy; sz])
                              nodePairs)).
Proof.
  apply (lines_drawn_at_the_ends [InterLayerLines.mkPair (1, 0, 0) (0, 8, 2) 0.3]
                                 [0; 0; 0; 0; 0; 0]).
  - reflexivity.
  - repeat constructor; cbn; Lqa.lra.
Defined.
End LinesAtTheEnds.

(** X15.  The frame callback of [LayerNodes] fills the [count]
    instances of its mesh: instance [i] shows node [i] where the sampler
    produced one, and is scaled to nothing otherwise.  When at least 5
    nodes are asked for, every node the sampler returns is drawn; when
    fewer are asked for, the sampler still returns its 5 seed points and
    the mesh has no instance for those from [count] on. *)
Theorem nodes_drawn
  {num : Type} `{JsArith num} `{JsMath num} `{!JsArithLaws num}
  (count : nat) (radius scale : num) (seed : N)
  (instanceMatrix : list (LayerNodes.Instance (num := num))) :
  length instanceMatrix = count ->
  exists particles,
    LayerNodes.particles count radius seed = Returns particles
    /\ let m := LayerNodes.useFrame count scale particles instanceMatrix in
       length m = count
       /\ (forall i, (i < count)%nat ->
             nth_error m i
             = Some (match nth_error particles i with
                     | Some particle => nodeInstance scale particle
                     | None => unusedInstance
                     end))
       /\ ((5 <= count)%nat ->
           forall i particle, nth_error particles i = Some particle ->
                              nth_error m i = Some (nodeInstance scale particle))
       /\ ((count < 5)%nat ->
           length particles = 5%nat
           /\ forall i, (count <= i)%nat -> nth_error m i = None).
Proof.
  intros Hm.
  destruct (particles_returns count radius seed) as (l & E & _ & Hl).
  exists (seedPoints radius seed ++ l). split; [exact E|].
  destruct (useFrame_spec count scale (seedPoints radius seed ++ l) instanceMatrix Hm)
    as [L N].
  cbv zeta in *. split; [exact L|]. split; [exact N|]. split.
  - intros Hc i particle Hi.
    assert (Hlt : (i < count)%nat).
    { assert (Hs : nth_error (seedPoints radius seed ++ l) i <> None) by congruence.
      apply nth_error_Some in Hs. rewrite length_app, seedPoints_length in Hs. lia. }
    rewrite (N i Hlt), Hi. reflexivity.
  - intros Hc. split.
    + rewrite length_app, seedPoints_length. lia.
    + intros i Hi. apply nth_error_None. lia.
Qed.

Lemma nodes_drawn_witness :
  exists particles,
    LayerNodes.particles 6 3.5%R 0 = Returns particles
    /\ let m := LayerNodes.useFrame 6 0.1%R particles (repeat unusedInstance 6) in
       length m = 6%nat
       /\ (forall i, (i < 6)%nat ->
             nth_error m i
             = Some (match nth_error particles i with
                     | Some particle => nodeInstance 0.1%R particle
                     | None => unusedInstance
                     end))
       /\ ((5 <= 6)%nat ->
           forall i particle, nth_error particles i = Some particle ->
                              nth_error m i = Some (nodeInstance 0.1%R particle))
       /\ ((6 < 5)%nat ->
           length particles = 5%nat
           /\ forall i, (6 <= i)%nat -> nth_error m i = None).
Proof.
  apply (nodes_drawn 6 3.5%R 0.1%R 0 (repeat unusedInstance 6)). reflexivity.
Defined.

Section LineSegmentsFacts.
Context {num : Type} `{JsArith num}.

(** X16.  The geometry of [LineSegments] holds six
    positions a line, the two end points of line [k] from index [6 k] on;
    with a target colour it also holds six colour components a line, the
    colour then the target colour, and without one it holds no colours at
    all. *)
Theorem lineSegments_layout
  (lines : list (Vector3 num * Vector3 num)) (color : num * num * num)
  (targetColor : option (num * num * num)) :
  let points := fst (LayerNodes.lineSegments lines color targetColor) in
  let colors := snd (LayerNodes.lineSegments lines color targetColor) in
  length points = (6 * length lines)%nat
  /\ (forall k p1 p2 j,
        nth_error lines k = Some (p1, p2) -> (j < 6)%nat ->
        nth_error points (k * 6 + j)
        = nth_error [px p1; py p1; pz p1; px p2; py p2; pz p2] j)
  /\ match targetColor with
     | Some (r2, g2, b2) =>
         exists cs,
           colors = Some cs
           /\ length cs = length points
           /\ forall k j, (k < length lines)%nat -> (j < 6)%nat ->
                          nth_error cs (k * 6 + j)
                          = nth_error (let '(r1, g1, b1) := color in
                                       [r1; g1; b1; r2; g2; b2]) j
     | None => colors = None
     end.
Proof.
  cbv zeta. unfold LayerNodes.lineSegments. cbn [fst snd].
  assert (L6 : forall l : Vector3 num * Vector3 num,
             length (let '(p1, p2) := l in [px p1; py p1; pz p1; px p2; py p2; pz p2])
             = 6%nat) by (intros [? ?]; reflexivity).
  split; [|split].
  - rewrite (flat_map_length_const _ lines 6 L6). lia.
  - intros k p1 p2 j Hk Hj.
    rewrite (nth_error_flat_map_six _ lines k j (p1, p2) L6 Hk Hj). reflexivity.
  - destruct targetColor as [[[r2 g2] b2]|]; [|reflexivity].
    destruct color as [[r1 g1] b1].
    eexists. split; [reflexivity|]. split.
    + rewrite (flat_map_length_const _ lines 6 L6).
      apply flat_map_length_const. reflexivity.
    + intros k j Hk Hj. destruct (nth_error lines k) as [l|] eqn:E.
      * rewrite (nth_error_flat_map_six _ lines k j l); [reflexivity| |exact E|exact Hj].
        reflexivity.
      * apply nth_error_None in E. lia.
Qed.
End LineSegmentsFacts.

(* ------------------------------------------------------------------ *)
(** ** LayerNodes.jsx: every node grows out of an earlier one *)

Section GrowthFacts.
Context {num : Type} `{JsArith num} `{JsMath num}.
Variable count : nat.
Variable radius : num.

Lemma attempts_candidate n point temp state p state' :
  LayerNodes.attempts count radius n point temp state = (Some p, state') ->
  candidateOf count radius point p.
Proof.
  revert state. induction n as [|n IH]; intros state; cbn.
  - discriminate.
  - intros E. case_if E as V.
    + injection E as <- _.
      exists state, (nextState state), (nextState (nextState state)). reflexivity.
    + eapply IH, E.
Qed.

Arguments LayerNodes.attempts : simpl never.

Lemma sampling_grown fuel temp activeList state nodes :
  LayerNodes.sampling count radius fuel temp activeList state = Returns nodes ->
  incl activeList temp ->
  exists l, nodes = temp ++ l /\ Grown count radius temp l.
Proof.
  revert temp activeList state.
  induction fuel as [|fuel IH]; intros temp activeList state; cbn.
  - destruct (_ && _); [discriminate|]. intros [= <-] _.
    exists []. rewrite app_nil_r. split; constructor.
  - destruct (_ && _) eqn:C.
    2:{ intros [= <-] _. exists []. rewrite app_nil_r. split; constructor. }
    destruct (index activeList _) as [point|] eqn:Ei; [|discriminate].
    destruct (LayerNodes.attempts _ _ _ point temp _) as [[newPoint|] state'] eqn:A.
    + intros E Hin. apply IH in E.
      * destruct E as (l & -> & Hl).
        exists (newPoint :: l). rewrite <- app_assoc. split; [reflexivity|].
        constructor; [|exact Hl].
        exists point. split; [|eapply attempts_candidate; eassumption].
        apply Hin. unfold index in Ei. destruct (_ <? _)%Z; [discriminate|].
        eapply nth_error_In, Ei.
      * apply incl_app_app; [exact Hin | apply incl_refl].
    + intros E Hin. apply (IH _ _ _ E).
      intros q Hq. apply Hin. unfold splice1 in Hq. apply in_app_or in Hq.
      destruct Hq as [Hq | Hq]; [eapply in_firstn | eapply in_skipn]; eassumption.
Qed.

Lemma grown_nth (temp l : list (Vector3 num)) :
  Grown count radius temp l ->
  forall j p,
    nth_error (temp ++ l) j = Some p -> (length temp <= j)%nat ->
    exists i point,
      (i < j)%nat /\ nth_error (temp ++ l) i = Some point
      /\ candidateOf count radius point p.
Proof.
  induction 1 as [temp | temp p0 l (point & Hin & Hc) Hg IH]; intros j p Hj Hlen.
  - rewrite app_nil_r in Hj.
    assert (nth_error temp j <> None) as Hn by congruence.
    apply nth_error_Some in Hn. lia.
  - destruct (Nat.eq_dec j (length temp)) as [-> | Hne].
    + rewrite nth_error_app2, Nat.sub_diag in Hj by lia. cbn in Hj.
      injection Hj as <-.
      apply In_nth_error in Hin. destruct Hin as [i Hi].
      exists i, point. split; [|split; [|exact Hc]].
      * assert (nth_error temp i <> None) as Hn by congruence.
        now apply nth_error_Some in Hn.
      * rewrite nth_error_app1; [exact Hi|].
        assert (nth_error temp i <> None) as Hn by congruence.
        now apply nth_error_Some in Hn.
    + replace (temp ++ p0 :: l) with ((temp ++ [p0]) ++ l) in *
        by (now rewrite <- app_assoc).
      apply (IH j p Hj). rewrite length_app. cbn. lia.
Qed.
End GrowthFacts.

Ltac real_unfold :=
  cbv beta iota zeta delta
      [ltb lit add sub mul div geb Math_min Math_max R_arith R_math
       Math_sqrt Math_cos Math_sin Math_PI
       distFromCenter planarDistance LayerNodes.minDist ofNat ofZ] in *;
  rewrite ?Q2R_inject_Z in *.

Section RealGrowth.
Local Open Scope R_scope.

Lemma rng_unit_R (state : N) : 0 <= fst (rng (num := R) state) < 1.
Proof.
  pose proof (nextState_bound state) as Hs.
  unfold rng, ofN, ofZ; cbn [fst].
  change (div (lit (inject_Z (Z.of_N (nextState state)))) (lit (inject_Z (Z.of_N 233280))))
    with (Q2R (inject_Z (Z.of_N (nextState state))) / Q2R (inject_Z (Z.of_N 233280))).
  rewrite !Q2R_inject_Z. change (Z.of_N 233280) with 233280%Z.
  assert (H0 : 0 <= IZR (Z.of_N (nextState state))) by (apply IZR_le; lia).
  assert (H1 : IZR (Z.of_N (nextState state)) < 233280) by (apply IZR_lt; lia).
  split.
  - apply Rmult_le_pos; [exact H0|]. apply Rlt_le, Rinv_0_lt_compat. Lra.lra.
  - apply Rmult_lt_reg_r with 233280; [Lra.lra|]. unfold Rdiv.
    rewrite Rmult_assoc, Rinv_l by Lra.lra. Lra.lra.
Qed.

Lemma minDist_nonneg (count : nat) (radius : R) :
  0 <= radius -> 0 <= LayerNodes.minDist count radius.
Proof.
  intros Hr. unfold LayerNodes.minDist. real_unfold.
  assert (Hs : 0 <= / sqrt (IZR (Z.of_nat count))).
  { destruct (Req_dec (sqrt (IZR (Z.of_nat count))) 0) as [-> | Hne].
    - rewrite Rinv_0. Lra.lra.
    - apply Rlt_le, Rinv_0_lt_compat. pose proof (sqrt_pos (IZR (Z.of_nat count))). Lra.lra. }
  unfold Rdiv. assert (0 <= radius * / sqrt (IZR (Z.of_nat count))) by now apply Rmult_le_pos.
  Lra.lra.
Qed.

Lemma candidate_near (count : nat) (radius : R) (point p : Vector3 R) :
  0 <= radius ->
  candidateOf count radius point p ->
  LayerNodes.minDist count radius <= planarDistance point p
    <= 2 * LayerNodes.minDist count radius
  /\ (0 < LayerNodes.minDist count radius ->
      planarDistance point p < 2 * LayerNodes.minDist count radius)
  /\ - 0.05 <= py p < 0.05.
Proof.
  intros Hr (s1 & s2 & s3 & Hp). cbv zeta in Hp.
  pose proof (minDist_nonneg count radius Hr) as Hm.
  pose proof (rng_unit_R s2) as H2. pose proof (rng_unit_R s3) as H3.
  revert Hp Hm H2 H3.
  generalize (LayerNodes.minDist count radius) (fst (rng (num := R) s1))
             (fst (rng (num := R) s2)) (fst (rng (num := R) s3)).
  intros m u1 u2 u3 -> Hm H2 H3. unfold planarDistance. cbn [px py pz].
  real_unfold.
  set (a := u1 * PI * Q2R 2). set (d := m * (Q2R 1 + u2)).
  replace ((px point - (px point + cos a * d)) * (px point - (px point + cos a * d))
           + (pz point - (pz point + sin a * d)) * (pz point - (pz point + sin a * d)))
    with (d * d * ((sin a)² + (cos a)²)) by (unfold Rsqr; ring).
  rewrite sin2_cos2, Rmult_1_r.
  assert (E1 : Q2R 1 = 1) by (unfold Q2R; cbn; Lra.lra).
  assert (E5 : Q2R 0.5 = 0.5) by (unfold Q2R; cbn; Lra.lra).
  assert (E01 : Q2R 0.1 = 0.1) by (unfold Q2R; cbn; Lra.lra).
  assert (Hd : 0 <= d) by (unfold d; rewrite E1; apply Rmult_le_pos; Lra.lra).
  rewrite (sqrt_square d Hd). unfold d. rewrite ?E1, ?E5, ?E01.
  repeat split; try Lra.nra.
Qed.
End RealGrowth.

Section NodesGrow.
Local Open Scope R_scope.

Lemma seedPoints_height (radius : R) (seed : N) (p : Vector3 R) :
  In p (seedPoints radius seed) -> - 0.05 <= py p < 0.05.
Proof.
  unfold seedPoints. cbn [LayerNodes.seedLoop LayerNodes.numSeeds LayerNodes.seedPoint
                          fst snd app rng].
  intros Hp. cbn [In] in Hp.
  repeat match goal with
  | H : _ \/ _ |- _ => destruct H as [<- | H]
  | H : False |- _ => destruct H
  end; cbn [py];
  match goal with
  | |- context [div (ofN (nextState ?s)) _] =>
      pose proof (rng_unit_R s) as Hu; unfold rng in Hu; cbn [fst] in Hu;
      revert Hu; generalize (div (ofN (num := R) (nextState s)) (ofN 233280))
  end; intros u Hu; real_unfold;
  replace (Q2R 0.5) with 0.5 by (unfold Q2R; cbn; Lra.lra);
  replace (Q2R 0.1) with 0.1 by (unfold Q2R; cbn; Lra.lra); Lra.lra.
Qed.

Lemma minDist_pos (count : nat) (radius : R) :
  (0 < count)%nat -> 0 < radius -> 0 < LayerNodes.minDist count radius.
Proof.
  intros Hc Hr. unfold LayerNodes.minDist. real_unfold.
  assert (Hs : 0 < sqrt (IZR (Z.of_nat count))).
  { apply sqrt_lt_R0. apply IZR_lt. lia. }
  assert (Hi : 0 < / sqrt (IZR (Z.of_nat count))) by now apply Rinv_0_lt_compat.
  assert (0 < radius * / sqrt (IZR (Z.of_nat count))) by now apply Rmult_lt_0_compat.
  replace (Q2R 1.8) with 1.8 by (unfold Q2R; cbn; Lra.lra).
  unfold Rdiv. Lra.lra.
Qed.

(** X17.  On the reals the node generation of
    LayerNodes.jsx always returns, every node has its height in
    [-0.05, 0.05), and every node after the five seeds was proposed around
    a node that stands earlier in the list: its distance in the plane to
    that node is between minDist and 2 * minDist, and below 2 * minDist
    when the radius is positive. *)
Theorem nodes_grow_near_nodes (count : nat) (radius : R) (seed : N) :
  exists nodes,
    LayerNodes.particles count radius seed = Returns nodes
    /\ (forall p, In p nodes -> - 0.05 <= py p < 0.05)
    /\ (forall j p,
          (5 <= j)%nat -> nth_error nodes j = Some p ->
          exists i point,
            (i < j)%nat /\ nth_error nodes i = Some point
            /\ LayerNodes.minDist count radius <= planarDistance point p
               <= 2 * LayerNodes.minDist count radius
            /\ (0 < radius ->
                planarDistance point p < 2 * LayerNodes.minDist count radius)).
Proof.
  destruct (Rlt_le_dec radius 0) as [Hr | Hr].
  - exists (seedPoints radius seed).
    split; [now apply particles_negative_radius|]. split.
    + apply seedPoints_height.
    + intros j p Hj Hp.
      assert (Hn : nth_error (seedPoints radius seed) j <> None) by congruence.
      apply nth_error_Some in Hn. rewrite seedPoints_length in Hn. lia.
  - destruct (particles_returns count radius seed) as (l & E & _ & Hlen).
    exists (seedPoints radius seed ++ l). split; [exact E|].
    assert (G : Grown count radius (seedPoints radius seed) l).
    { unfold LayerNodes.particles, seedPoints in *.
      destruct (LayerNodes.seedLoop _ _ _ _ _) as [temp state]. cbn [fst] in *.
      destruct (sampling_grown count radius _ _ _ _ _ E (incl_refl _)) as (l' & El & Hl).
      apply app_inv_head in El. now subst. }
    assert (N : forall j p,
               nth_error (seedPoints radius seed ++ l) j = Some p -> (5 <= j)%nat ->
               exists i point,
                 (i < j)%nat /\ nth_error (seedPoints radius seed ++ l) i = Some point
                 /\ candidateOf count radius point p).
    { intros j p Hp Hj. apply (grown_nth count radius _ _ G j p Hp).
      rewrite seedPoints_length. exact Hj. }
    split.
    + intros p Hp. apply in_app_or in Hp. destruct Hp as [Hp | Hp].
      * now apply seedPoints_height with radius seed.
      * apply In_nth_error in Hp. destruct Hp as [k Hk].
        destruct (N (5 + k)%nat p) as (i & point & _ & _ & Hc); [|lia|].
        -- rewrite nth_error_app2 by (rewrite seedPoints_length; lia).
           rewrite seedPoints_length. replace (5 + k - 5)%nat with k by lia. exact Hk.
        -- now apply (candidate_near count radius point p Hr Hc).
    + intros j p Hj Hp. destruct (N j p Hp Hj) as (i & point & Hi & Hpt & Hc).
      exists i, point. split; [exact Hi|]. split; [exact Hpt|].
      destruct (candidate_near count radius point p Hr Hc) as (H1 & H2 & _).
      split; [exact H1|]. intros Hpos. apply H2. apply minDist_pos; [|exact Hpos].
      assert (Hn : nth_error (seedPoints radius seed ++ l) j <> None) by congruence.
      apply nth_error_Some in Hn. rewrite length_app, seedPoints_length in Hn. lia.
Qed.
End NodesGrow.

(* ------------------------------------------------------------------ *)
(** ** Rounding to doubles *)

Section DoubleFacts.
Local Open Scope Q_scope.

Lemma pow2_pos (z : Z) : 0 < 2 ^ z.
Proof. now apply Qpower_0_lt. Qed.

Lemma pow2_split (a b : Z) : 2 ^ (a + b) == 2 ^ a * 2 ^ b.
Proof. apply Qpower_plus. discriminate. Qed.

Lemma pow2_inject (z : Z) : (0 <= z)%Z -> 2 ^ z == inject_Z (2 ^ z).
Proof. intros Hz. symmetry. now apply (Zpower_Qpower 2). Qed.

Lemma pow2_cancel (z : Z) : 2 ^ (- z) * 2 ^ z == 1.
Proof. rewrite <- pow2_split. now replace (- z + z)%Z with 0%Z by lia. Qed.

Lemma Qred_inject_Z (z : Z) : Qred (inject_Z z) = inject_Z z.
Proof.
  unfold Qred, inject_Z.
  pose proof (Z.ggcd_gcd z 1) as G.
  pose proof (Z.ggcd_correct_divisors z 1) as D.
  destruct (Z.ggcd z 1) as [g [aa bb]]. cbn [fst snd] in *.
  rewrite Z.gcd_1_r in G. subst g. destruct D as [Da Db].
  rewrite !Z.mul_1_l in *. subst aa. now subst bb.
Qed.

(** [ilog2] is not above the logarithm. *)
Lemma ilog2_le (x : Q) : 0 < x -> 2 ^ ilog2 x <= x.
Proof.
  intros Hx. unfold ilog2.
  destruct (Qle_bool _ x) eqn:E; [now apply Qle_bool_iff|]. clear E.
  destruct x as [n d]. cbn [Qnum Qden].
  assert (Hn : (0 < n)%Z) by (unfold Qlt in Hx; cbn in Hx; lia).
  pose proof (Z.log2_spec n Hn) as [Ln _].
  pose proof (Z.log2_spec (Z.pos d) ltac:(lia)) as [_ Ld].
  pose proof (Z.log2_nonneg n) as Nn.
  pose proof (Z.log2_nonneg (Z.pos d)) as Nd.
  set (ln := Z.log2 n) in *. set (ld := Z.log2 (Z.pos d)) in *.
  replace (ln - ld - 1)%Z with (ln + - (ld + 1))%Z by lia.
  rewrite pow2_split.
  assert (A : 2 ^ ln <= inject_Z n)
    by (rewrite pow2_inject by lia; now rewrite <- Zle_Qle).
  assert (B : inject_Z (Z.pos d) <= 2 ^ (ld + 1)).
  { rewrite pow2_inject by lia. rewrite <- Zle_Qle.
    replace (ld + 1)%Z with (Z.succ ld) by lia. lia. }
  assert (C : n # d == inject_Z n * / inject_Z (Z.pos d))
    by (rewrite (Qmake_Qdiv n d); reflexivity).
  rewrite C.
  assert (P1 : 0 < 2 ^ (ld + 1)) by apply pow2_pos.
  assert (P2 : 0 < inject_Z (Z.pos d)) by (now rewrite <- (Zlt_Qlt 0)).
  assert (I : 2 ^ (- (ld + 1)) <= / inject_Z (Z.pos d)).
  { rewrite Qpower_opp. apply Qle_shift_inv_l; [exact P2|].
    apply Qle_trans with (/ 2 ^ (ld + 1) * 2 ^ (ld + 1)).
    - rewrite !(Qmult_comm (/ _)). apply Qmult_le_compat_r; [exact B|].
      apply Qinv_le_0_compat, Qlt_le_weak, P1.
    - rewrite Qmult_comm, Qmult_inv_r; [apply Qle_refl|].
      intros Z0. rewrite Z0 in P1. discriminate P1. }
  apply Qmult_le_compat_nonneg; split;
    [apply Qlt_le_weak, pow2_pos | exact A
    | apply Qlt_le_weak, pow2_pos | exact I].
Qed.

Lemma roundInt_comp (q q' : Q) : q == q' -> roundInt q = roundInt q'.
Proof.
  intros E. unfold roundInt. rewrite (Qfloor_comp _ _ E).
  assert (E' : q - inject_Z (Qfloor q') == q' - inject_Z (Qfloor q'))
    by now rewrite E.
  now rewrite (Qcompare_comp _ _ E' _ _ (Qeq_refl (1 # 2))).
Qed.

Lemma roundInt_Z (z : Z) : roundInt (inject_Z z) = z.
Proof.
  unfold roundInt. rewrite Qfloor_Z.
  assert (E : (inject_Z z - inject_Z z ?= 1 # 2) = Lt).
  { apply Qlt_alt. assert (Z0 : inject_Z z - inject_Z z == 0) by ring.
    rewrite Z0. reflexivity. }
  now rewrite E.
Qed.

Lemma roundInt_nonneg (q : Q) : 0 <= q -> (0 <= roundInt q)%Z.
Proof.
  intros Hq. unfold roundInt.
  assert (F : (0 <= Qfloor q)%Z)
    by (change 0%Z with (Qfloor 0); now apply Qfloor_resp_le).
  destruct (_ ?= _); [destruct (Z.even _)| |]; lia.
Qed.

Lemma roundInt_le (q : Q) (B : Z) : q <= inject_Z B -> (roundInt q <= B)%Z.
Proof.
  intros Hq. unfold roundInt.
  assert (F : (Qfloor q <= B)%Z)
    by (rewrite <- (Qfloor_Z B); now apply Qfloor_resp_le).
  assert (G : 0 < q - inject_Z (Qfloor q) -> (Qfloor q + 1 <= B)%Z).
  { intros P. assert (L : inject_Z (Qfloor q) < inject_Z B) by Lqa.lra.
    rewrite <- Zlt_Qlt in L. lia. }
  destruct (_ ?= _) eqn:E.
  - destruct (Z.even _); [exact F|]. apply G.
    apply Qeq_alt in E. rewrite E. reflexivity.
  - exact F.
  - apply G. apply Qgt_alt in E. Lqa.lra.
Qed.

Lemma roundDouble_zero (x : Q) : x == 0 -> roundDouble x = 0.
Proof.
  intros E. unfold roundDouble.
  assert (N : Qnum x = 0%Z) by (unfold Qeq in E; cbn in E; lia).
  now rewrite N.
Qed.

Lemma roundDouble_nonneg (x : Q) : 0 <= x -> 0 <= roundDouble x.
Proof.
  intros Hx. unfold roundDouble. destruct (Qnum x); [Lqa.lra| |];
    rewrite Qred_correct;
    (apply Qmult_le_0_compat; [|apply Qlt_le_weak, pow2_pos]);
    rewrite <- (Zle_Qle 0); apply roundInt_nonneg;
    (apply Qmult_le_0_compat; [exact Hx | apply Qlt_le_weak, pow2_pos]).
Qed.

(** Rounding does not pass a double: a number [B0 / 2^k] with [B0] below
    [2^53]. *)
Lemma roundDouble_le (x : Q) (B0 k : Z) :
  0 <= x -> (0 < B0 < 2 ^ 53)%Z -> (0 <= k <= 1074)%Z ->
  x <= inject_Z B0 * 2 ^ (- k) ->
  roundDouble x <= inject_Z B0 * 2 ^ (- k).
Proof.
  intros Hx HB Hk Hb.
  assert (Pb : 0 <= inject_Z B0 * 2 ^ (- k)).
  { apply Qmult_le_0_compat; [rewrite <- (Zle_Qle 0); lia|].
    apply Qlt_le_weak, pow2_pos. }
  destruct x as [n d]. unfold roundDouble, ulpExponent. cbn [Qnum Qden].
  destruct n as [|p|p]; [exact Pb| |exfalso; unfold Qle in Hx; cbn in Hx; lia].
  cbn [Z.abs].
  set (x := Z.pos p # d) in *.
  assert (Px : 0 < x) by reflexivity.
  pose proof (ilog2_le x Px) as L.
  assert (Le : (ilog2 x < 53 - k)%Z).
  { apply (Qpower_lt_compat_l_inv 2); [|reflexivity].
    eapply Qle_lt_trans; [exact L|]. eapply Qle_lt_trans; [exact Hb|].
    replace (53 - k)%Z with (53 + - k)%Z by lia. rewrite pow2_split.
    apply Qmult_lt_compat_r; [apply pow2_pos|].
    rewrite pow2_inject by lia. rewrite <- Zlt_Qlt. lia. }
  set (e := (Z.max (ilog2 x) (-1022) - 52)%Z).
  assert (He : (0 <= - e - k)%Z) by (unfold e; lia).
  rewrite Qred_correct.
  assert (S : inject_Z B0 * 2 ^ (- k) == inject_Z (B0 * 2 ^ (- e - k)) * 2 ^ e).
  { rewrite inject_Z_mult, <- (pow2_inject (- e - k)) by lia.
    replace (- k)%Z with ((- e - k) + e)%Z at 1 by lia.
    rewrite pow2_split. ring. }
  rewrite S. apply Qmult_le_compat_r; [|apply Qlt_le_weak, pow2_pos].
  rewrite <- Zle_Qle. apply roundInt_le.
  assert (T : inject_Z (B0 * 2 ^ (- e - k)) == inject_Z B0 * 2 ^ (- k) * 2 ^ (- e)).
  { rewrite inject_Z_mult, <- (pow2_inject (- e - k)) by lia.
    replace (- e - k)%Z with (- k + - e)%Z by lia.
    rewrite pow2_split. ring. }
  rewrite T. apply Qmult_le_compat_r; [exact Hb|].
  apply Qlt_le_weak, pow2_pos.
Qed.

(** The integers below [2^53] are doubles. *)
Lemma roundDouble_int (z : Z) :
  (0 <= z < 2 ^ 53)%Z -> roundDouble (inject_Z z) = inject_Z z.
Proof.
  intros Hz. destruct z as [|p|p]; [reflexivity| |lia].
  unfold roundDouble, ulpExponent. cbn [inject_Z Qnum Qden Z.abs].
  assert (I : ilog2 (Z.pos p # 1) = Z.log2 (Z.pos p)).
  { unfold ilog2. cbn [Qnum Qden]. change (Z.log2 1) with 0%Z.
    rewrite Z.sub_0_r.
    assert (E : Qle_bool (2 ^ Z.log2 (Z.pos p)) (Z.pos p # 1) = true).
    { apply Qle_bool_iff. rewrite pow2_inject by apply Z.log2_nonneg.
      change (Z.pos p # 1) with (inject_Z (Z.pos p)). rewrite <- Zle_Qle.
      apply Z.log2_spec. lia. }
    now rewrite E. }
  rewrite I.
  assert (L : (0 <= Z.log2 (Z.pos p) < 53)%Z).
  { split; [apply Z.log2_nonneg|]. apply Z.log2_lt_pow2; lia. }
  rewrite Z.max_l by lia.
  set (m := (52 - Z.log2 (Z.pos p))%Z).
  replace (Z.log2 (Z.pos p) - 52)%Z with (- m)%Z by (unfold m; lia).
  rewrite Z.opp_involutive.
  assert (M : (0 <= m)%Z) by (unfold m; lia).
  assert (Q1 : inject_Z (Z.pos p) * 2 ^ m == inject_Z (Z.pos p * 2 ^ m)).
  { rewrite inject_Z_mult, <- pow2_inject by lia. reflexivity. }
  rewrite (roundInt_comp _ _ Q1), roundInt_Z.
  rewrite <- (Qred_inject_Z (Z.pos p)). apply Qred_complete.
  rewrite inject_Z_mult, <- pow2_inject by lia.
  rewrite <- Qmult_assoc, (Qmult_comm (2 ^ m)), pow2_cancel. ring.
Qed.
Lemma roundDouble_le_int (x : Q) (B : Z) :
  0 <= x -> (0 < B < 2 ^ 53)%Z -> x <= inject_Z B -> roundDouble x <= inject_Z B.
Proof.
  intros Hx HB Hb.
  assert (E : inject_Z B == inject_Z B * 2 ^ (- 0)) by (cbn; ring).
  rewrite E. apply roundDouble_le; [exact Hx | exact HB | lia |].
  now rewrite <- E.
Qed.

Lemma ofZ_double (z : Z) :
  (0 <= z < 2 ^ 53)%Z -> ofZ z = mkDouble (inject_Z z).
Proof.
  intros Hz. unfold ofZ. cbn [lit double_arith]. f_equal.
  now apply roundDouble_int.
Qed.
End DoubleFacts.

(* ------------------------------------------------------------------ *)
(** ** ContentPane.jsx: darkening a colour *)

Section ColourFacts.
Import Ascii String JsString.
Local Open Scope string_scope.
Local Open Scope Z_scope.

Ltac zdiv := Z.div_mod_to_equations; lia.

Ltac each_digit d :=
  let H := fresh "H" in
  assert (H : In d [0; 1; 2; 3; 4; 5; 6; 7; 8; 9; 10; 11; 12; 13; 14; 15])
    by (cbn [In]; lia);
  cbn [In] in H;
  repeat (destruct H as [<- | H]); [.. | destruct H].

(** What [parseInt] sees of a digit [hexDigit] wrote. *)
Lemma hexDigit_read (d : Z) :
  0 <= d < 16 ->
  digitValue (hexDigit d) = Some d
  /\ isWhiteSpace (hexDigit d) = false
  /\ Ascii.eqb (hexDigit d) "+" = false
  /\ Ascii.eqb (hexDigit d) "-" = false
  /\ Ascii.eqb (hexDigit d) "x" = false
  /\ Ascii.eqb (hexDigit d) "X" = false.
Proof.
  intros Hd. each_digit d; vm_compute; repeat split; reflexivity.
Qed.

Lemma toDouble_small (v : Z) : 0 <= v < 2 ^ 53 -> toDouble v = Finite v.
Proof.
  intros Hv. unfold toDouble. rewrite Z.abs_eq by lia.
  destruct (Z.ltb_spec v (2 ^ 53)); [reflexivity | lia].
Qed.

Lemma int32_small (v : Z) : 0 <= v < 2 ^ 31 -> int32 v = v.
Proof.
  intros Hv. unfold int32. rewrite Z.mod_small by lia.
  destruct (Z.leb_spec (2 ^ 31) v); [lia | reflexivity].
Qed.

(** Six digits are read back as the number they write. *)
Lemma parseInt16_six (d1 d2 d3 d4 d5 d6 : Z) :
  0 <= d1 < 16 -> 0 <= d2 < 16 -> 0 <= d3 < 16 ->
  0 <= d4 < 16 -> 0 <= d5 < 16 -> 0 <= d6 < 16 ->
  parseInt16
    (String (hexDigit d1) (String (hexDigit d2) (String (hexDigit d3)
      (String (hexDigit d4) (String (hexDigit d5) (String (hexDigit d6) ""))))))
  = Finite (((((d1 * 16 + d2) * 16 + d3) * 16 + d4) * 16 + d5) * 16 + d6).
Proof.
  intros H1 H2 H3 H4 H5 H6.
  assert (L1 : (d1 <? 16) = true) by (apply Z.ltb_lt; lia).
  assert (L2 : (d2 <? 16) = true) by (apply Z.ltb_lt; lia).
  assert (L3 : (d3 <? 16) = true) by (apply Z.ltb_lt; lia).
  assert (L4 : (d4 <? 16) = true) by (apply Z.ltb_lt; lia).
  assert (L5 : (d5 <? 16) = true) by (apply Z.ltb_lt; lia).
  assert (L6 : (d6 <? 16) = true) by (apply Z.ltb_lt; lia).
  assert (B : 0 <= ((((d1 * 16 + d2) * 16 + d3) * 16 + d4) * 16 + d5) * 16 + d6
              < 2 ^ 53) by lia.
  pose proof (hexDigit_read d1 H1) as (V1 & W1 & P1 & M1 & _).
  pose proof (hexDigit_read d2 H2) as (V2 & _ & _ & _ & X2 & Y2).
  pose proof (hexDigit_read d3 H3) as (V3 & _).
  pose proof (hexDigit_read d4 H4) as (V4 & _).
  pose proof (hexDigit_read d5 H5) as (V5 & _).
  pose proof (hexDigit_read d6 H6) as (V6 & _).
  unfold parseInt16. cbn [trimStart]. rewrite W1. cbv beta iota zeta.
  rewrite P1, M1. cbn [orb]. cbv beta iota.
  rewrite X2, Y2. cbn [orb]. rewrite andb_false_r. cbv beta iota.
  cbn [digits]. rewrite V1, L1, V2, L2, V3, L3, V4, L4, V5, L5, V6, L6.
  rewrite Z.mul_1_l.
  rewrite toDouble_small; [f_equal; lia|].
  lia.
Qed.

(** Three digits are read as a number below 4096. *)
Lemma parseInt16_three (d1 d2 d3 : Z) :
  0 <= d1 < 16 -> 0 <= d2 < 16 -> 0 <= d3 < 16 ->
  parseInt16 (String (hexDigit d1) (String (hexDigit d2) (String (hexDigit d3) "")))
  = Finite ((d1 * 16 + d2) * 16 + d3).
Proof.
  intros H1 H2 H3.
  assert (L1 : (d1 <? 16) = true) by (apply Z.ltb_lt; lia).
  assert (L2 : (d2 <? 16) = true) by (apply Z.ltb_lt; lia).
  assert (L3 : (d3 <? 16) = true) by (apply Z.ltb_lt; lia).
  pose proof (hexDigit_read d1 H1) as (V1 & W1 & P1 & M1 & _).
  pose proof (hexDigit_read d2 H2) as (V2 & _ & _ & _ & X2 & Y2).
  pose proof (hexDigit_read d3 H3) as (V3 & _).
  unfold parseInt16. cbn [trimStart]. rewrite W1. cbv beta iota zeta.
  rewrite P1, M1. cbn [orb]. cbv beta iota.
  rewrite X2, Y2. cbn [orb]. rewrite andb_false_r. cbv beta iota.
  cbn [digits]. rewrite V1, L1, V2, L2, V3, L3.
  rewrite Z.mul_1_l.
  rewrite toDouble_small; [f_equal; lia|].
  lia.
Qed.

(** [|] adds what [<<] has moved out of the way. *)
Lemma lor_shifted (a b k : Z) :
  0 <= k -> 0 <= b < 2 ^ k -> Z.lor (Z.shiftl a k) b = a * 2 ^ k + b.
Proof.
  intros Hk Hb.
  assert (D : Z.land (Z.shiftl a k) b = 0).
  { apply Z.bits_inj'. intros n Hn. rewrite Z.land_spec, Z.bits_0.
    destruct (Z.lt_ge_cases n k).
    - rewrite Z.shiftl_spec_low by lia. reflexivity.
    - destruct (Z.eq_dec b 0) as [-> | Hb0]; [now rewrite Z.bits_0, andb_false_r|].
      assert (Z.log2 b < k) by (apply Z.log2_lt_pow2; lia).
      rewrite (Z.bits_above_log2 b n) by lia. apply andb_false_r. }
  rewrite <- Z.shiftl_mul_pow2 by lia.
  rewrite Z.add_nocarry_lxor by exact D.
  now rewrite Z.lxor_lor.
Qed.

(** The three channels packed in one integer. *)
Lemma pack_channels (r g b : Z) :
  0 <= r < 256 -> 0 <= g < 256 -> 0 <= b < 256 ->
  bor (bor (shl r 16) (shl g 8)) b = r * 65536 + g * 256 + b.
Proof.
  intros Hr Hg Hb. unfold bor, shl.
  assert (E1 : Z.lor (Z.shiftl r 16) (g * 256) = r * 65536 + g * 256)
    by (rewrite lor_shifted; lia).
  assert (E2 : Z.lor (Z.shiftl (r * 256 + g) 8) b = r * 65536 + g * 256 + b)
    by (rewrite lor_shifted; lia).
  rewrite Z.shiftl_mul_pow2 in E2 by lia.
  replace ((r * 256 + g) * 2 ^ 8) with (r * 65536 + g * 256) in E2 by lia.
  rewrite (int32_small r), (int32_small g), (int32_small b) by lia.
  rewrite (Z.shiftl_mul_pow2 g 8) by lia. change (2 ^ 8) with 256.
  rewrite !(int32_small (g * 256)) by lia.
  assert (B : 0 <= Z.shiftl r 16 < 2 ^ 31) by (rewrite Z.shiftl_mul_pow2; lia).
  rewrite !(int32_small _ B). rewrite E1.
  rewrite int32_small by lia. exact E2.
Qed.

(** The channels read out of the packed integer. *)
Lemma unpack_channels (n : Z) :
  0 <= n < 2 ^ 24 ->
  sar (int32 n) 16 = n / 65536
  /\ band (sar (int32 n) 8) 255 = n / 256 mod 256
  /\ band (int32 n) 255 = n mod 256.
Proof.
  intros Hn. unfold sar, band.
  rewrite !(int32_small n) by lia.
  rewrite !Z.shiftr_div_pow2 by lia.
  change (2 ^ 16) with 65536. change (2 ^ 8) with 256.
  rewrite (int32_small 255) by lia.
  rewrite (int32_small (n / 256)) by zdiv.
  change 255 with (Z.ones 8). rewrite !Z.land_ones by lia.
  change (2 ^ 8) with 256. auto.
Qed.

(** A number below [16 ^ 6] is printed and padded as its six digits. *)
Lemma toString16_six (m : Z) :
  0 <= m < 16 ^ 6 ->
  padStart 6 "0" (toString16 m)
  = String (hexDigit (m / 16 / 16 / 16 / 16 / 16))
      (String (hexDigit (m / 16 / 16 / 16 / 16 mod 16))
        (String (hexDigit (m / 16 / 16 / 16 mod 16))
          (String (hexDigit (m / 16 / 16 mod 16))
            (String (hexDigit (m / 16 mod 16))
              (String (hexDigit (m mod 16)) ""))))).
Proof.
  intros Hm. unfold toString16.
  destruct (Z.ltb_spec m 0) as [|_]; [lia|].
  cbn [hexDigits].
  repeat match goal with
  | |- context [(?a <? 16)] => destruct (Z.ltb_spec a 16)
  end;
  try (exfalso; zdiv);
  unfold padStart; cbn [length Nat.sub repeat string_of_list_ascii append];
  repeat match goal with
  | |- String ?a _ = String ?b _ =>
      replace b with a; [f_equal | try reflexivity]
  end;
  try reflexivity;
  match goal with
  | |- _ = hexDigit ?x =>
      first [ replace x with 0 by zdiv; reflexivity | f_equal; zdiv ]
  end.
Qed.
End ColourFacts.

Section DarkenColor.
Import Ascii String JsString.
Local Open Scope string_scope.
Local Open Scope Q_scope.

Lemma darkenColor_NaN (hex : string) (percent : option Q) :
  parseInt16 (replace "#" "" hex) = NaN ->
  ContentPane.darkenColor hex percent = "#000000".
Proof.
  intros E. unfold ContentPane.darkenColor. rewrite E. cbn [ToInt32].
  change (sar 0 16) with 0%Z. change (band (sar 0 8) 255) with 0%Z.
  change (band 0 255) with 0%Z.
  set (t := (lit 1 - nullish percent (lit 40) / lit 100)%js).
  assert (Z0 : Math_floor (ofZ 0 * t)%js = 0%Z).
  { change (Qfloor (inject_Z 0 * t) = 0%Z).
    assert (E0 : inject_Z 0 * t == 0) by ring. rewrite E0. reflexivity. }
  cbv zeta. rewrite Z0. reflexivity.
Qed.

Lemma rgb_read (r g b : Z) :
  (0 <= r < 256)%Z -> (0 <= g < 256)%Z -> (0 <= b < 256)%Z ->
  parseInt16 (replace "#" "" (rgb r g b)) = Finite (r * 65536 + g * 256 + b).
Proof.
  intros Hr Hg Hb. unfold rgb, hex2. cbn [append replace Ascii.eqb Bool.eqb].
  rewrite parseInt16_six by (Z.div_mod_to_equations; lia).
  f_equal. Z.div_mod_to_equations; lia.
Qed.

(** X19.  When the text after [#] starts with a
    character that is no hexadecimal digit, no white space and no sign, and
    when there is no text at all, [darkenColor] returns black whatever the
    percentage: it never fails. *)
Theorem darkenColor_not_a_colour (a : ascii) (rest : string) (percent : option Q) :
  isHexDigit a = false -> isWhiteSpace a = false ->
  Ascii.eqb a "+" = false -> Ascii.eqb a "-" = false ->
  ContentPane.darkenColor (String "#" (String a rest)) percent = "#000000"
  /\ ContentPane.darkenColor "#" percent = "#000000"
  /\ ContentPane.darkenColor "" percent = "#000000".
Proof.
  intros Hd Hw Hp Hm. repeat split; apply darkenColor_NaN; [|reflexivity..].
  cbn [replace Ascii.eqb Bool.eqb append]. unfold parseInt16.
  cbn [trimStart]. rewrite Hw. cbv beta iota zeta. rewrite Hp, Hm.
  cbn [orb]. cbv beta iota.
  assert (E : forall s, digits 16 (String a s) None = None).
  { intros s. cbn [digits]. unfold isHexDigit in Hd.
    destruct (digitValue a); [now rewrite Hd | reflexivity]. }
  destruct rest as [|b rest']; [now rewrite E|].
  destruct (Ascii.eqb a "0") eqn:A0.
  - apply Ascii.eqb_eq in A0. subst a. discriminate Hd.
  - cbn [andb]. now rewrite E.
Qed.

Lemma darkenColor_not_a_colour_witness :
  ContentPane.darkenColor "#ggg" (Some 75) = "#000000".
Proof.
  exact (proj1 (darkenColor_not_a_colour "g" "gg" (Some 75)
                  eq_refl eq_refl eq_refl eq_refl)).
Defined.

(** A channel is not made brighter, whatever the roundings. *)
Lemma darker_range (percent : double) (c : Z) :
  0 <= valueOf percent <= 100 -> (0 <= c < 2 ^ 53)%Z ->
  (0 <= darker percent c <= c)%Z.
Proof.
  intros Hp Hc. unfold darker. rewrite ofZ_double by exact Hc.
  cbn [mul sub div lit Math_floor double_arith valueOf].
  change (roundDouble 1) with 1. change (roundDouble 100) with 100.
  assert (H0 : 0 <= valueOf percent / 100 <= 1).
  { unfold Qdiv. change (/ 100) with (1 # 100). Lqa.lra. }
  revert H0. generalize (valueOf percent / 100). intros q Hq.
  assert (T1 : 0 <= roundDouble q <= 1).
  { split; [now apply roundDouble_nonneg|].
    apply (roundDouble_le_int q 1); [apply Hq | lia | apply Hq]. }
  revert T1. generalize (roundDouble q). intros t1 T1.
  assert (T2 : 0 <= roundDouble (1 - t1) <= 1).
  { split; [apply roundDouble_nonneg; Lqa.lra|].
    apply (roundDouble_le_int (1 - t1) 1);
      [Lqa.lra | lia | change (inject_Z 1) with 1; Lqa.lra]. }
  revert T2. generalize (roundDouble (1 - t1)). intros t2 T2.
  assert (C : 0 <= inject_Z c) by (rewrite <- (Zle_Qle 0); lia).
  assert (X0 : 0 <= inject_Z c * t2) by (apply Qmult_le_0_compat; [exact C | apply T2]).
  assert (X1 : 0 <= inject_Z c * (1 - t2))
    by (apply Qmult_le_0_compat; [exact C | Lqa.lra]).
  assert (X2 : inject_Z c * t2 <= inject_Z c) by Lqa.lra.
  split.
  - change 0%Z with (Qfloor 0). now apply Qfloor_resp_le, roundDouble_nonneg.
  - rewrite <- (Qfloor_Z c) at 2. apply Qfloor_resp_le.
    destruct (Z.eq_dec c 0) as [-> | Hne].
    + rewrite roundDouble_zero; [apply Qle_refl | ring].
    + apply roundDouble_le_int; [exact X0 | lia | exact X2].
Qed.

Lemma darker_zero (percent : double) : darker percent 0 = 0%Z.
Proof.
  unfold darker. rewrite ofZ_double by lia.
  cbn [mul Math_floor double_arith valueOf].
  rewrite roundDouble_zero; [reflexivity | ring].
Qed.

(** The three percentages that involve no rounding, on every channel. *)
Lemma darker_exact (c : Z) :
  (0 <= c < 256)%Z ->
  darker (lit 0) c = c /\ darker (lit 75) c = (c / 4)%Z /\ darker (lit 100) c = 0%Z.
Proof.
  intros Hc.
  assert (A : forallb (fun k =>
                         let c := Z.of_nat k in
                         (darker (lit 0) c =? c)%Z && (darker (lit 75) c =? c / 4)%Z
                         && (darker (lit 100) c =? 0)%Z)
                      (seq 0 256) = true) by (vm_compute; reflexivity).
  rewrite forallb_forall in A. specialize (A (Z.to_nat c)).
  rewrite Z2Nat.id in A by lia. cbv zeta in A.
  assert (I : In (Z.to_nat c) (seq 0 256)) by (apply in_seq; lia).
  apply A in I. apply andb_prop in I. destruct I as [I I3].
  apply andb_prop in I. destruct I as [I1 I2].
  apply Z.eqb_eq in I1, I2, I3. now repeat split.
Qed.

(** The colour [darkenColor] returns when [parseInt] read a number below
    [2 ^ 24]. *)
Lemma darkenColor_of_number (hex : string) (n : Z) (percent : double) :
  parseInt16 (replace "#" "" hex) = Finite n ->
  (0 <= n < 2 ^ 24)%Z -> 0 <= valueOf percent <= 100 ->
  ContentPane.darkenColor hex (Some percent)
  = rgb (darker percent (n / 65536)) (darker percent (n / 256 mod 256))
        (darker percent (n mod 256)).
Proof.
  intros E Hn Hp. unfold ContentPane.darkenColor. rewrite E.
  cbn [nullish ToInt32].
  destruct (unpack_channels n Hn) as (-> & -> & ->).
  assert (Br : (0 <= n / 65536 < 256)%Z) by (Z.div_mod_to_equations; lia).
  assert (Bg : (0 <= n / 256 mod 256 < 256)%Z) by (Z.div_mod_to_equations; lia).
  assert (Bb : (0 <= n mod 256 < 256)%Z) by (Z.div_mod_to_equations; lia).
  assert (Hr := darker_range percent (n / 65536) Hp ltac:(lia)).
  assert (Hg := darker_range percent (n / 256 mod 256) Hp ltac:(lia)).
  assert (Hb := darker_range percent (n mod 256) Hp ltac:(lia)).
  revert Hr Hg Hb.
  generalize (n / 65536)%Z (n / 256 mod 256)%Z (n mod 256)%Z Br Bg Bb.
  clear. intros cr cg cb Br Bg Bb.
  change ((0 <= darker percent cr <= cr)%Z -> (0 <= darker percent cg <= cg)%Z ->
          (0 <= darker percent cb <= cb)%Z ->
          "#" ++ padStart 6 "0"
                   (toString16 (bor (bor (shl (Z.max 0 (darker percent cr)) 16)
                                         (shl (Z.max 0 (darker percent cg)) 8))
                                    (Z.max 0 (darker percent cb))))
          = rgb (darker percent cr) (darker percent cg) (darker percent cb)).
  generalize (darker percent cr) (darker percent cg) (darker percent cb).
  intros r g b Hr Hg Hb.
  rewrite !Z.max_r by lia.
  rewrite pack_channels by lia.
  rewrite toString16_six by lia.
  unfold rgb, hex2. cbn [append].
  repeat match goal with
  | |- String _ _ = String _ _ => f_equal
  | |- hexDigit _ = hexDigit _ => apply (f_equal hexDigit)
  end; Z.div_mod_to_equations; lia.
Qed.

(** X18.  On doubles, for a colour written [#rrggbb] in
    lower case and a percentage from 0 to 100, [darkenColor] returns a
    colour of the same form, each channel computed from its own channel as
    [Math.floor(c * (1 - percent / 100))] with the roundings of the code and
    never above it: [#5a0000] at 30 gives [#3e0000], since [90 * 0.7] is
    rounded below 63.  0 leaves the colour as it is, 75 (the value the
    section titles pass) quarters each channel, and 100 gives black. *)
Theorem darkenColor_darkens (r g b : Z) :
  (0 <= r < 256)%Z -> (0 <= g < 256)%Z -> (0 <= b < 256)%Z ->
  (forall percent : double,
      0 <= valueOf percent <= 100 ->
      ContentPane.darkenColor (rgb r g b) (Some percent)
      = rgb (darker percent r) (darker percent g) (darker percent b)
      /\ (0 <= darker percent r <= r)%Z
      /\ (0 <= darker percent g <= g)%Z
      /\ (0 <= darker percent b <= b)%Z)
  /\ ContentPane.darkenColor (rgb r g b) (Some (lit 0 : double)) = rgb r g b
  /\ ContentPane.darkenColor (rgb r g b) (Some (lit 75 : double))
     = rgb (r / 4) (g / 4) (b / 4)
  /\ ContentPane.darkenColor (rgb r g b) (Some (lit 100 : double)) = rgb 0 0 0.
Proof.
  intros Hr Hg Hb.
  assert (G : forall percent : double,
             0 <= valueOf percent <= 100 ->
             ContentPane.darkenColor (rgb r g b) (Some percent)
             = rgb (darker percent r) (darker percent g) (darker percent b)).
  { intros percent Hp.
    rewrite (darkenColor_of_number (rgb r g b) _ percent (rgb_read r g b Hr Hg Hb))
      by (lia || exact Hp).
    f_equal; f_equal; Z.div_mod_to_equations; lia. }
  destruct (darker_exact r Hr) as (R0 & R75 & R100).
  destruct (darker_exact g Hg) as (G0 & G75 & G100).
  destruct (darker_exact b Hb) as (B0 & B75 & B100).
  split; [|split; [|split]].
  - intros percent Hp. split; [now apply G|].
    repeat split; apply darker_range; (exact Hp || lia).
  - rewrite G by (split; discriminate). now rewrite R0, G0, B0.
  - rewrite G by (split; discriminate). now rewrite R75, G75, B75.
  - rewrite G by (split; discriminate). now rewrite R100, G100, B100.
Qed.

Lemma darkenColor_darkens_witness :
  ContentPane.darkenColor "#5a0000" (Some (lit 30 : double)) = "#3e0000".
Proof.
  pose proof (proj1 (proj1 (darkenColor_darkens 90 0 0
                              ltac:(lia) ltac:(lia) ltac:(lia))
                           (lit 30) ltac:(split; discriminate))) as W.
  vm_compute in W. vm_compute. exact W.
Defined.

(** X20.  On doubles, a colour in the three-digit form
    [#xyz] is not expanded to [#xxyyzz]: its digits are read as one number
    below 4096, so for a percentage from 0 to 100 the result has no red,
    the first digit as green and the other two as blue, each darkened as
    the code computes it. *)
Theorem darkenColor_shorthand (x y z : Z) (percent : double) :
  (0 <= x < 16)%Z -> (0 <= y < 16)%Z -> (0 <= z < 16)%Z ->
  0 <= valueOf percent <= 100 ->
  ContentPane.darkenColor
    (String "#" (String (hexDigit x) (String (hexDigit y) (String (hexDigit z) ""))))
    (Some percent)
  = rgb 0 (darker percent x) (darker percent (16 * y + z)).
Proof.
  intros Hx Hy Hz Hp.
  rewrite (darkenColor_of_number _ ((x * 16 + y) * 16 + z)%Z percent);
    [| |lia|exact Hp].
  - replace (((x * 16 + y) * 16 + z) / 65536)%Z with 0%Z
      by (Z.div_mod_to_equations; lia).
    rewrite darker_zero.
    f_equal; f_equal; Z.div_mod_to_equations; lia.
  - cbn [replace Ascii.eqb Bool.eqb append]. now apply parseInt16_three.
Qed.

Lemma darkenColor_shorthand_witness :
  ContentPane.darkenColor "#05a" (Some (lit 30 : double)) = "#00003e".
Proof.
  pose proof (darkenColor_shorthand 0 5 10 (lit 30)
                ltac:(lia) ltac:(lia) ltac:(lia) ltac:(split; discriminate)) as W.
  vm_compute in W. vm_compute. exact W.
Defined.
End DarkenColor.

(* ------------------------------------------------------------------ *)
(** ** seededRandom: the cycle of the generator *)

Section GeneratorCycle.
Local Open Scope N_scope.

Lemma prevState_nextState (state : N) :
  state < 233280 -> prevState (nextState state) = state.
Proof.
  intros Hs. unfold prevState, nextState.
  pose proof (N.div_mod (state * 9301 + 49297) 233280 ltac:(discriminate)) as E.
  revert E.
  generalize ((state * 9301 + 49297) / 233280) ((state * 9301 + 49297) mod 233280).
  intros q y E.
  rewrite <- (N.Div0.mod_add ((y + 183983) * 123901) (q * 123901) 233280).
  replace ((y + 183983) * 123901 + q * 123901 * 233280)
    with (state + (state * 4940 + 123901) * 233280) by lia.
  rewrite N.Div0.mod_add. now apply N.mod_small.
Qed.

Lemma iter_bound (k state : N) :
  state < 233280 -> N.iter k nextState state < 233280.
Proof.
  intros Hs. apply N.iter_invariant; [|exact Hs].
  intros x _. apply nextState_bound.
Qed.

(** Two runs that meet after [k] more steps each had met already. *)
Lemma iter_cancel (k x y : N) :
  x < 233280 -> y < 233280 ->
  N.iter k nextState x = N.iter k nextState y -> x = y.
Proof.
  intros Hx Hy. induction k as [|k IH] using N.peano_ind; [easy|].
  rewrite !N.iter_succ. intros E. apply IH.
  rewrite <- (prevState_nextState _ (iter_bound k x Hx)).
  rewrite <- (prevState_nextState _ (iter_bound k y Hy)).
  now rewrite E.
Qed.

Lemma scan_spec (n state steps first : N) :
  N.iter n scanStep (0, 0, 0) = (state, steps, first) ->
  state = N.iter n nextState 0 /\ steps = n
  /\ (first = 0 -> forall j, 0 < j <= n -> N.iter j nextState 0 <> 0)
  /\ (first <> 0 ->
      first <= n /\ N.iter first nextState 0 = 0
      /\ forall j, 0 < j < first -> N.iter j nextState 0 <> 0).
Proof.
  revert state steps first. induction n as [|n IH] using N.peano_ind.
  - intros state steps first E. cbn in E. injection E as <- <- <-.
    repeat split; intros; lia.
  - intros state' steps' first'. rewrite N.iter_succ.
    destruct (N.iter n scanStep (0, 0, 0)) as [[state steps] first].
    destruct (IH state steps first eq_refl) as (-> & -> & I0 & I1).
    unfold scanStep. rewrite <- N.iter_succ. intros E. injection E as <- <- <-.
    split; [reflexivity|]. split; [reflexivity|].
    destruct (N.eqb_spec (N.iter (N.succ n) nextState 0) 0) as [E | E];
      destruct (N.eqb_spec first 0) as [F | F]; cbn [andb].
    + split; [intros F'; lia|]. intros _.
      split; [lia|]. split; [exact E|].
      intros j Hj. apply I0; [exact F | lia].
    + split; [intros F'; contradiction|]. intros _.
      destruct (I1 F) as (A & B & C). split; [lia|]. now split.
    + split; [|intros F'; contradiction]. intros _ j Hj.
      destruct (N.eq_dec j (N.succ n)) as [-> | Hne]; [exact E|].
      apply I0; [exact F | lia].
    + split; [intros F'; contradiction|]. intros _.
      destruct (I1 F) as (A & B & C). split; [lia|]. now split.
Qed.

Lemma firstReturn_zero :
  N.iter 233280 nextState 0 = 0
  /\ forall j, 0 < j < 233280 -> N.iter j nextState 0 <> 0.
Proof.
  assert (E : N.iter 233280 scanStep (0, 0, 0) = (0, 233280, 233280))
    by (vm_compute; reflexivity).
  destruct (scan_spec _ _ _ _ E) as (_ & _ & _ & S).
  destruct S as (_ & A & B); [discriminate|]. now split.
Qed.

(** Every state below 233280 is met from 0 in fewer than 233280 steps. *)
Lemma zero_reaches (t : N) :
  t < 233280 -> exists i, i < 233280 /\ N.iter i nextState 0 = t.
Proof.
  intros Ht. destruct firstReturn_zero as [_ Hmin].
  set (M := N.to_nat 233280).
  set (run := map (fun i => N.iter (N.of_nat i) nextState 0) (seq 0 M)).
  set (all := map N.of_nat (seq 0 M)).
  assert (HM : N.of_nat M = 233280) by (unfold M; apply N2Nat.id).
  assert (D : NoDup run).
  { apply NoDup_map_NoDup_ForallPairs; [|apply seq_NoDup].
    assert (W : forall i j : nat,
               (i <= j)%nat -> (j < M)%nat ->
               N.iter (N.of_nat i) nextState 0 = N.iter (N.of_nat j) nextState 0 ->
               i = j).
    { intros i j Hij Hj E.
      destruct (Nat.eq_dec i j) as [|Hne]; [assumption|exfalso].
      replace (N.of_nat j) with (N.of_nat i + N.of_nat (j - i)) in E by lia.
      rewrite N.iter_add in E.
      apply (Hmin (N.of_nat (j - i))); [lia|].
      symmetry. apply (iter_cancel (N.of_nat i) _ _); [reflexivity| |exact E].
      now apply iter_bound. }
    intros i j Hi Hj E. apply in_seq in Hi, Hj.
    destruct (Nat.le_ge_cases i j) as [L | L].
    - apply W; [exact L | lia | exact E].
    - symmetry. apply W; [exact L | lia | now symmetry]. }
  assert (I : incl run all).
  { intros x Hx. apply in_map_iff in Hx. destruct Hx as (i & <- & _).
    apply in_map_iff. exists (N.to_nat (N.iter (N.of_nat i) nextState 0)).
    split; [apply N2Nat.id|]. apply in_seq.
    pose proof (iter_bound (N.of_nat i) 0 eq_refl). lia. }
  assert (L : (length all <= length run)%nat)
    by (unfold all, run; rewrite !length_map; reflexivity).
  pose proof (NoDup_length_incl D L I) as R.
  assert (T : In t all).
  { apply in_map_iff. exists (N.to_nat t). split; [apply N2Nat.id|].
    apply in_seq. lia. }
  apply R, in_map_iff in T. destruct T as (i & <- & Hi). apply in_seq in Hi.
  exists (N.of_nat i). split; [lia | reflexivity].
Qed.

(** X21.  From a state below 233280 the sequence of
    states of [seededRandom] is back at its start after exactly 233280
    draws, not earlier, and it meets every state below 233280 on the way;
    and a seed shifted by 233280 gives the same draws. *)
Theorem seededRandom_full_period (state : N) :
  state < 233280 ->
  N.iter 233280 nextState state = state
  /\ (forall k, 0 < k < 233280 -> N.iter k nextState state <> state)
  /\ (forall t, t < 233280 ->
        exists k, k < 233280 /\ N.iter k nextState state = t)
  /\ nextState (state + 233280) = nextState state.
Proof.
  intros Hs. destruct firstReturn_zero as [Hret Hmin].
  destruct (zero_reaches state Hs) as (i & Hi & Ei).
  assert (P : forall k, N.iter k nextState state = N.iter i nextState (N.iter k nextState 0)).
  { intros k. rewrite <- Ei, <- !N.iter_add. f_equal. lia. }
  split; [|split; [|split]].
  - rewrite P, Hret. exact Ei.
  - intros k Hk E. rewrite P in E. rewrite <- Ei in E.
    apply iter_cancel in E; [|now apply iter_bound|reflexivity].
    now apply (Hmin k).
  - intros t Ht. destruct (zero_reaches t Ht) as (j & Hj & Ej).
    destruct (N.le_gt_cases i j) as [L | L].
    + exists (j - i). split; [lia|].
      rewrite <- Ei, <- N.iter_add. replace (j - i + i) with j by lia. exact Ej.
    + exists (j + 233280 - i). split; [lia|].
      rewrite <- Ei, <- N.iter_add.
      replace (j + 233280 - i + i) with (j + 233280) by lia.
      rewrite N.iter_add, Hret. exact Ej.
  - unfold nextState.
    replace ((state + 233280) * 9301 + 49297)
      with (state * 9301 + 49297 + 9301 * 233280) by lia.
    apply N.Div0.mod_add.
Qed.

Lemma seededRandom_full_period_witness :
  N.iter 233280 nextState 12345 = 12345.
Proof.
  exact (proj1 (seededRandom_full_period 12345 eq_refl)).
Defined.
End GeneratorCycle.

(* ------------------------------------------------------------------ *)
(** ** InterLayerLines.jsx: the edge builder on doubles *)

Section EdgeBuilder.
Local Open Scope Q_scope.

Lemma rng_double (state : N) :
  fst (rng (num := double) state)
  = mkDouble (roundDouble (inject_Z (Z.of_N (nextState state)) / 233280)).
Proof.
  pose proof (nextState_bound state) as Hs.
  unfold rng, ofN. cbn [fst]. rewrite !ofZ_double by lia. reflexivity.
Qed.

(** The numbers of the generator are doubles of [[0, 1 - 2^-18]]. *)
Lemma rng_double_bound (state : N) :
  0 <= valueOf (fst (rng (num := double) state)) <= 262143 # 262144.
Proof.
  pose proof (nextState_bound state) as Hs.
  rewrite rng_double. cbn [valueOf].
  assert (H0 : 0 <= inject_Z (Z.of_N (nextState state)))
    by (rewrite <- (Zle_Qle 0); lia).
  assert (H1 : inject_Z (Z.of_N (nextState state)) <= 233279)
    by (change 233279 with (inject_Z 233279); rewrite <- Zle_Qle; lia).
  assert (X : 0 <= inject_Z (Z.of_N (nextState state)) / 233280 <= 262143 # 262144).
  { unfold Qdiv. change (/ 233280) with (1 # 233280). Lqa.lra. }
  revert X. generalize (inject_Z (Z.of_N (nextState state)) / 233280). intros x X.
  split; [now apply roundDouble_nonneg|].
  assert (E : 262143 # 262144 == inject_Z 262143 * 2 ^ (- 18)) by reflexivity.
  rewrite E. apply (roundDouble_le x 262143 18); [apply X | lia | lia |].
  rewrite <- E. apply X.
Qed.

(** The position drawn for [i] lies in [[0, i]]: both reads of the exchange
    are inside the array. *)
Lemma draw_range (state : N) (i : nat) :
  (Z.of_nat i + 1 < 2 ^ 32)%Z ->
  (0 <= Math_floor (mul (fst (rng (num := double) state)) (ofNat (i + 1)))
   <= Z.of_nat i)%Z.
Proof.
  intros Hi. pose proof (rng_double_bound state) as Hu.
  unfold ofNat. rewrite ofZ_double by lia.
  cbn [mul Math_floor double_arith valueOf].
  revert Hu. generalize (valueOf (fst (rng (num := double) state))). intros u Hu.
  set (n := Z.of_nat (i + 1)).
  assert (Hn : (1 <= n < 2 ^ 32)%Z) by (unfold n; lia).
  assert (N1 : 1 <= inject_Z n) by (change 1 with (inject_Z 1); rewrite <- Zle_Qle; lia).
  assert (P : 0 <= u * inject_Z n)
    by (apply Qmult_le_0_compat; [apply Hu | Lqa.lra]).
  assert (B : u * inject_Z n <= inject_Z (262143 * n) * 2 ^ (- 18)).
  { rewrite inject_Z_mult. change (2 ^ (- 18)) with (1 # 262144).
    assert (K : 0 <= ((262143 # 262144) - u) * inject_Z n)
      by (apply Qmult_le_0_compat; Lqa.lra).
    change (inject_Z 262143) with 262143. Lqa.lra. }
  assert (R := roundDouble_le (u * inject_Z n) (262143 * n) 18
                 P ltac:(lia) ltac:(lia) B).
  assert (R0 := roundDouble_nonneg (u * inject_Z n) P).
  revert R R0. generalize (roundDouble (u * inject_Z n)). intros x R R0.
  split.
  - change 0%Z with (Qfloor 0). now apply Qfloor_resp_le.
  - assert (L : x < inject_Z n).
    { eapply Qle_lt_trans; [exact R|]. rewrite inject_Z_mult.
      change (2 ^ Z.opp 18) with (1 # 262144). change (inject_Z 262143) with 262143.
      Lqa.lra. }
    pose proof (Qfloor_le x) as F.
    assert (G : inject_Z (Qfloor x) < inject_Z n) by Lqa.lra.
    rewrite <- Zlt_Qlt in G. unfold n in G. lia.
Qed.

(** The offsets are doubles of [[0, 0.6)]. *)
Lemma offset_range (state : N) :
  0 <= valueOf (mul (fst (rng (num := double) state)) (lit 0.6)) < 0.6.
Proof.
  pose proof (rng_double_bound state) as Hu.
  cbn [mul lit double_arith valueOf].
  revert Hu. generalize (valueOf (fst (rng (num := double) state))). intros u Hu.
  assert (C : roundDouble 0.6 = 5404319552844595 # 9007199254740992)
    by (vm_compute; reflexivity).
  rewrite C.
  assert (P : 0 <= u * (5404319552844595 # 9007199254740992))
    by (apply Qmult_le_0_compat; [apply Hu | discriminate]).
  assert (E : 5404319552844595 # 9007199254740992
              == inject_Z 5404319552844595 * 2 ^ (- 53)) by reflexivity.
  assert (B : u * (5404319552844595 # 9007199254740992)
              <= inject_Z 5404319552844595 * 2 ^ (- 53)).
  { rewrite <- E.
    assert (K : 0 <= (1 - u) * (5404319552844595 # 9007199254740992))
      by (apply Qmult_le_0_compat; [Lqa.lra | discriminate]).
    Lqa.lra. }
  split; [now apply roundDouble_nonneg|].
  eapply Qle_lt_trans;
    [apply (roundDouble_le _ 5404319552844595 53 P); [lia | lia | exact B]|].
  reflexivity.
Qed.

Lemma nth_error_map_seq {A : Type} (f : nat -> A) (n k : nat) :
  nth_error (map f (seq 0 n)) k = if (k <? n)%nat then Some (f k) else None.
Proof.
  rewrite nth_error_map, nth_error_seq. now destruct (k <? n)%nat.
Qed.

Lemma exchange_length (a : list nat) (i j : nat) : length (exchange a i j) = length a.
Proof. unfold exchange. now rewrite length_map, length_seq. Qed.

(** The destructuring swap of the code is the exchange of two entries. *)
Lemma swap_exchange (a : list nat) (i j : nat) :
  (j <= i)%nat -> (i < length a)%nat ->
  InterLayerLines.swap a i (Z.of_nat j) = exchange a i j.
Proof.
  intros Hj Hi. unfold InterLayerLines.swap, index.
  rewrite (nth_error_nth' a 0%nat Hi).
  destruct (Z.ltb_spec (Z.of_nat j) 0) as [|_]; [lia|].
  rewrite Nat2Z.id.
  rewrite (nth_error_nth' a 0%nat (n := j)) by lia.
  apply nth_error_ext. intros k.
  rewrite !store_nth_error, store_length. unfold exchange.
  rewrite nth_error_map_seq.
  destruct (Nat.eqb_spec k j) as [-> | Nj]; cbn [andb].
  - destruct (Nat.ltb_spec j (length a)) as [_|]; [|lia].
    destruct (Nat.eqb_spec j i) as [-> | _]; reflexivity.
  - destruct (Nat.eqb_spec k i) as [-> | Ni]; cbn [andb].
    + destruct (Nat.ltb_spec i (length a)) as [_|]; [reflexivity | lia].
    + destruct (Nat.ltb_spec k (length a)) as [Hk | Hk].
      * now apply nth_error_nth'.
      * now apply nth_error_None.
Qed.

Lemma fisherYates_ext (d1 d2 : nat -> nat) (i : nat) (a : list nat) :
  (forall k, (1 <= k <= i)%nat -> d1 k = d2 k) ->
  fisherYates d1 i a = fisherYates d2 i a.
Proof.
  revert a. induction i as [|i IH]; intros a Hd; [reflexivity|].
  cbn [fisherYates]. rewrite (Hd (S i)) by lia. apply IH.
  intros k Hk. apply Hd. lia.
Qed.

(** The loop of the code is the Fisher-Yates shuffle, with the positions
    drawn from the generator. *)
Lemma shuffle_fisherYates (i : nat) (a : list nat) (state : N) :
  (i < length a)%nat -> (Z.of_nat (length a) < 2 ^ 32)%Z ->
  fst (InterLayerLines.shuffle (num := double) i a state)
  = fisherYates (drawn state i) i a.
Proof.
  revert a state. induction i as [|i IH]; intros a state Hi Ha; [reflexivity|].
  cbn [InterLayerLines.shuffle fisherYates].
  change (rng state) with (fst (rng (num := double) state), nextState state).
  cbv beta iota.
  pose proof (draw_range state (S i) ltac:(lia)) as Hr.
  assert (D : drawn state (S i) (S i)
              = Z.to_nat (Math_floor (mul (fst (rng (num := double) state))
                                          (ofNat (S i + 1)))))
    by (unfold drawn; now rewrite Nat.sub_diag).
  rewrite D.
  revert Hr. generalize (Math_floor (mul (fst (rng (num := double) state))
                                         (ofNat (S i + 1)))).
  intros j Hr.
  rewrite <- (Z2Nat.id j) at 1 by lia.
  rewrite swap_exchange by lia.
  rewrite IH by (rewrite exchange_length; lia).
  apply fisherYates_ext. intros k Hk. unfold drawn.
  replace (S i - k)%nat with (S (i - k)) by lia.
  now rewrite Nat.iter_succ_r.
Qed.

(** What the edge builder does with two given layers. *)
Lemma connectLayers_double
  (startY endY : N) (numLines : nat) (startNodes endNodes : list (Vector3 double)) :
  (Z.of_nat (length startNodes) < 2 ^ 32)%Z ->
  (Z.of_nat (length endNodes) < 2 ^ 32)%Z ->
  let seed := (startY * 1000 + endY)%N in
  let a := length startNodes in
  let b := length endNodes in
  let state1 := Nat.iter (a - 1) nextState seed in
  let state2 := Nat.iter (b - 1) nextState state1 in
  let startIndices := fisherYates (drawn seed (a - 1)) (a - 1) (seq 0 a) in
  let endIndices := fisherYates (drawn state1 (b - 1)) (b - 1) (seq 0 b) in
  (forall i, (1 <= i <= a - 1)%nat -> (drawn seed (a - 1) i <= i)%nat)
  /\ (forall i, (1 <= i <= b - 1)%nat -> (drawn state1 (b - 1) i <= i)%nat)
  /\ Permutation startIndices (seq 0 a)
  /\ Permutation endIndices (seq 0 b)
  /\ exists pairs,
      InterLayerLines.connectLayers startY endY numLines startNodes endNodes
      = Returns pairs
      /\ length pairs = Nat.min numLines (Nat.min a b)
      /\ forall k pair,
          nth_error pairs k = Some pair ->
          pairAt startY endY startNodes endNodes startIndices endIndices state2 k k pair
          /\ 0 <= valueOf (InterLayerLines.offset pair) < 0.6.
Proof.
  intros Ha Hb seed a b state1 state2 startIndices endIndices.
  assert (Dr : forall state top i, (Z.of_nat top + 1 < 2 ^ 32)%Z -> (i <= top)%nat ->
                                   (drawn state top i <= i)%nat).
  { intros state top i Ht Hi. unfold drawn.
    pose proof (draw_range (Nat.iter (top - i) nextState state) i ltac:(lia)). lia. }
  assert (Es : fst (InterLayerLines.shuffle (num := double) (a - 1) (seq 0 a)
                                            (seededRandom seed))
               = startIndices).
  { destruct (Nat.eq_dec a 0) as [E0 | N0].
    - unfold startIndices. rewrite E0. reflexivity.
    - apply shuffle_fisherYates; rewrite length_seq; [lia | exact Ha]. }
  assert (Ss : snd (InterLayerLines.shuffle (num := double) (a - 1) (seq 0 a)
                                            (seededRandom seed))
               = state1) by apply shuffle_state.
  assert (Ee : fst (InterLayerLines.shuffle (num := double) (b - 1) (seq 0 b) state1)
               = endIndices).
  { destruct (Nat.eq_dec b 0) as [E0 | N0].
    - unfold endIndices. rewrite E0. reflexivity.
    - apply shuffle_fisherYates; rewrite length_seq; [lia | exact Hb]. }
  assert (Se : snd (InterLayerLines.shuffle (num := double) (b - 1) (seq 0 b) state1)
               = state2) by apply shuffle_state.
  assert (Ps : Permutation startIndices (seq 0 a))
    by (rewrite <- Es; apply shuffle_perm).
  assert (Pe : Permutation endIndices (seq 0 b))
    by (rewrite <- Ee; apply shuffle_perm).
  split; [intros i Hi; apply Dr; lia|].
  split; [intros i Hi; apply Dr; lia|].
  split; [exact Ps|]. split; [exact Pe|].
  unfold InterLayerLines.connectLayers. rewrite !length_seq.
  fold seed a b.
  destruct (InterLayerLines.shuffle (a - 1) (seq 0 a) (seededRandom seed))
    as [startIndices' state1'].
  cbn [fst snd] in Es, Ss. subst startIndices' state1'.
  destruct (InterLayerLines.shuffle (b - 1) (seq 0 b) state1)
    as [endIndices' state2'].
  cbn [fst snd] in Ee, Se. subst endIndices' state2'.
  destruct (connect_returns startY endY startNodes endNodes startIndices endIndices
              (Nat.min numLines (Nat.min a b)) 0 state2 [] Ps Pe ltac:(lia))
    as [pairs E].
  exists pairs. split; [exact E|].
  apply connect_spec in E. destruct E as (l & -> & Hlen & Hl).
  split; [exact Hlen|]. intros k pair Hk. cbn [app] in Hk.
  specialize (Hl k pair Hk). cbn [Nat.add] in Hl. split; [exact Hl|].
  destruct Hl as (? & ? & ? & ? & _ & _ & _ & _ & _ & _ & ->).
  apply offset_range.
Qed.


End EdgeBuilder.
